(** * Portfolio interaction layer: theme, entry selection, carousel, resize

    A shallow embedding of the last revision of [src/script.js] (the
    revision with the auto-advancing carousel), and the properties of its
    theme controller and of its selection / carousel / responsive-mode
    state machine.

    The page is a record of the elements the script looks up; every element
    carries its attributes, its class list and its inline style as finite
    maps and sets.  The script's module variables, the browser's timer
    table, the clock and the pending animation-frame callbacks are fields of
    one state record; every function of the script is a function on that
    state.  Time is counted in milliseconds: a timer set for [d] ms runs at
    the [d]-th millisecond after it was set.

    Scope of the model: the set of elements of the page is fixed (the script
    never creates or removes one).  The resize handler builds an attribute
    selector by concatenating an image identifier into it.  For an
    identifier that is a plain token (no quote, backslash, line break or
    NUL) the selector selects on equality of the [data-image] attribute;
    for any other identifier what [document.querySelector] makes of the
    selector is the browser's business and is a parameter of the page: it
    throws, in which case the handler stops where it is, or it returns one
    of the selectable entries, or null.  (A selector that would reach an
    element other than a selectable entry is outside the model.)  The
    viewport width changes only with a resize event.  The elements inside
    the modal, which only its click handlers look at, are a tree of their
    own.

    The file has two parts: the embedding (elements, page, browser, the
    functions of the script, the event loop, the invariants as predicates)
    and the properties proved of it. *)

From Stdlib Require Import ZArith Lia.
From stdpp Require Import base option list gmap strings.

Local Open Scope string_scope.
Local Open Scope list_scope.
Local Open Scope nat_scope.

(** ** Elements *)

Record Element := mkElement {
  attributes : gmap string string;
  classList : gset string;
  style : gmap string string
}.

Definition getAttribute (name : string) (e : Element) : option string :=
  attributes e !! name.

Definition setAttribute (name value : string) (e : Element) : Element :=
  {| attributes := <[name := value]> (attributes e);
     classList := classList e;
     style := style e |}.

Definition removeAttribute (name : string) (e : Element) : Element :=
  {| attributes := delete name (attributes e);
     classList := classList e;
     style := style e |}.

Definition classList_contains (c : string) (e : Element) : bool :=
  bool_decide (c ∈ classList e).

Definition classList_add (c : string) (e : Element) : Element :=
  {| attributes := attributes e;
     classList := {[c]} ∪ classList e;
     style := style e |}.

Definition classList_remove (c : string) (e : Element) : Element :=
  {| attributes := attributes e;
     classList := classList e ∖ {[c]};
     style := style e |}.

Definition setStyle (prop value : string) (e : Element) : Element :=
  {| attributes := attributes e;
     classList := classList e;
     style := <[prop := value]> (style e) |}.

(** A JavaScript string-or-null used as a condition: [null] and the empty
    string are falsy.  [truthy] keeps the string when the test passes. *)
Definition truthy (v : option string) : option string :=
  match v with
  | Some s => if String.eqb s "" then None else Some s
  | None => None
  end.

(** ** The page *)

(** What [document.querySelector] does with a selector: it throws a
    [SyntaxError], or it returns the selectable entry at a position, or
    [null]. *)
Inductive Lookup :=
  | LookupThrows
  | LookupReturns (found : option nat).

Record Dom := mkDom {
  documentElement : Element;
  body : Element;
  themeToggle : option Element;          (* #themeToggle *)
  entries : list Element;                (* .entry.selectable, document order *)
  showcase : option Element;             (* .showcase *)
  showcaseWrapper : option Element;      (* .showcase .showcase-image-wrapper *)
  mobileShowcase : option Element;       (* .mobile-showcase *)
  mobileModal : option Element;          (* #mobileModal *)
  carouselProgress : option Element;     (* #carouselProgress *)
  carouselProgressBar : option Element;  (* #carouselProgress .carousel-progress-bar *)
  selectorEngine : string → list Element → Lookup
    (* document.querySelector on a selector that is not in the script's
       text, given the selectable entries as they are *)
}.

(** ** The browser *)

(** [localStorage]: either every access throws (storage disabled, private
    browsing), or it is a key-value store. *)
Inductive Storage :=
  | StorageUnavailable
  | StorageItems (items : gmap string string).

(** Completion of a call that may throw. *)
Inductive Completion (A : Type) :=
  | Normal (a : A)
  | Throw (e : string).
Arguments Normal {A} a.
Arguments Throw {A} e.

Definition Storage_getItem (key : string) (s : Storage) : Completion (option string) :=
  match s with
  | StorageUnavailable => Throw "SecurityError"
  | StorageItems items => Normal (items !! key)
  end.

Definition Storage_setItem (key value : string) (s : Storage) : Completion Storage :=
  match s with
  | StorageUnavailable => Throw "SecurityError"
  | StorageItems items => Normal (StorageItems (<[key := value]> items))
  end.

(** What a timer runs. *)
Inductive Callback :=
  | FadeSwap (imageId : string)   (* the closure of updateImageVisibility *)
  | ThemeTransitionEnd            (* the closure of toggleTheme *)
  | CarouselTick.                 (* the closure of startCarousel *)

Record Timer := mkTimer {
  timerId : nat;
  due : Z;                        (* clock value at which it runs *)
  period : option Z;              (* [Some p] for setInterval *)
  callback : Callback
}.

(** What requestAnimationFrame runs. *)
Inductive FrameCallback :=
  | ProgressRun.                  (* the closure of startProgressBar *)

(** ** State: page, browser and module variables *)

Record State := mkState {
  dom : Dom;
  (* browser *)
  innerWidth : Z;
  localStorage : Storage;
  matchMedia : option bool;       (* [None]: no window.matchMedia;
                                     [Some b]: (prefers-color-scheme: dark) matches = b *)
  console : list string;
  readyStateLoading : bool;       (* document.readyState === 'loading' *)
  clock : Z;
  timers : list Timer;
  nextTimerId : nat;
  frames : list FrameCallback;
  (* module variables *)
  wasMobile : bool;
  carouselIntervalId : option nat;
  carouselPaused : bool;
  progressBar : bool              (* the variable holds #carouselProgress *)
}.

(** Field updates. *)

Definition with_dom (d : Dom) (st : State) : State :=
  mkState d (innerWidth st) (localStorage st) (matchMedia st) (console st)
    (readyStateLoading st) (clock st) (timers st) (nextTimerId st) (frames st)
    (wasMobile st) (carouselIntervalId st) (carouselPaused st) (progressBar st).

Definition with_innerWidth (w : Z) (st : State) : State :=
  mkState (dom st) w (localStorage st) (matchMedia st) (console st)
    (readyStateLoading st) (clock st) (timers st) (nextTimerId st) (frames st)
    (wasMobile st) (carouselIntervalId st) (carouselPaused st) (progressBar st).

Definition with_localStorage (s : Storage) (st : State) : State :=
  mkState (dom st) (innerWidth st) s (matchMedia st) (console st)
    (readyStateLoading st) (clock st) (timers st) (nextTimerId st) (frames st)
    (wasMobile st) (carouselIntervalId st) (carouselPaused st) (progressBar st).

Definition with_matchMedia (m : option bool) (st : State) : State :=
  mkState (dom st) (innerWidth st) (localStorage st) m (console st)
    (readyStateLoading st) (clock st) (timers st) (nextTimerId st) (frames st)
    (wasMobile st) (carouselIntervalId st) (carouselPaused st) (progressBar st).

Definition with_console (c : list string) (st : State) : State :=
  mkState (dom st) (innerWidth st) (localStorage st) (matchMedia st) c
    (readyStateLoading st) (clock st) (timers st) (nextTimerId st) (frames st)
    (wasMobile st) (carouselIntervalId st) (carouselPaused st) (progressBar st).

Definition with_readyStateLoading (b : bool) (st : State) : State :=
  mkState (dom st) (innerWidth st) (localStorage st) (matchMedia st) (console st)
    b (clock st) (timers st) (nextTimerId st) (frames st)
    (wasMobile st) (carouselIntervalId st) (carouselPaused st) (progressBar st).

Definition with_clock (t : Z) (st : State) : State :=
  mkState (dom st) (innerWidth st) (localStorage st) (matchMedia st) (console st)
    (readyStateLoading st) t (timers st) (nextTimerId st) (frames st)
    (wasMobile st) (carouselIntervalId st) (carouselPaused st) (progressBar st).

Definition with_timers (ts : list Timer) (st : State) : State :=
  mkState (dom st) (innerWidth st) (localStorage st) (matchMedia st) (console st)
    (readyStateLoading st) (clock st) ts (nextTimerId st) (frames st)
    (wasMobile st) (carouselIntervalId st) (carouselPaused st) (progressBar st).

Definition with_nextTimerId (n : nat) (st : State) : State :=
  mkState (dom st) (innerWidth st) (localStorage st) (matchMedia st) (console st)
    (readyStateLoading st) (clock st) (timers st) n (frames st)
    (wasMobile st) (carouselIntervalId st) (carouselPaused st) (progressBar st).

Definition with_frames (fs : list FrameCallback) (st : State) : State :=
  mkState (dom st) (innerWidth st) (localStorage st) (matchMedia st) (console st)
    (readyStateLoading st) (clock st) (timers st) (nextTimerId st) fs
    (wasMobile st) (carouselIntervalId st) (carouselPaused st) (progressBar st).

Definition with_wasMobile (b : bool) (st : State) : State :=
  mkState (dom st) (innerWidth st) (localStorage st) (matchMedia st) (console st)
    (readyStateLoading st) (clock st) (timers st) (nextTimerId st) (frames st)
    b (carouselIntervalId st) (carouselPaused st) (progressBar st).

Definition with_carouselIntervalId (i : option nat) (st : State) : State :=
  mkState (dom st) (innerWidth st) (localStorage st) (matchMedia st) (console st)
    (readyStateLoading st) (clock st) (timers st) (nextTimerId st) (frames st)
    (wasMobile st) i (carouselPaused st) (progressBar st).

Definition with_carouselPaused (b : bool) (st : State) : State :=
  mkState (dom st) (innerWidth st) (localStorage st) (matchMedia st) (console st)
    (readyStateLoading st) (clock st) (timers st) (nextTimerId st) (frames st)
    (wasMobile st) (carouselIntervalId st) b (progressBar st).

Definition with_progressBar (b : bool) (st : State) : State :=
  mkState (dom st) (innerWidth st) (localStorage st) (matchMedia st) (console st)
    (readyStateLoading st) (clock st) (timers st) (nextTimerId st) (frames st)
    (wasMobile st) (carouselIntervalId st) (carouselPaused st) b.

(** Updates of one element of the page. *)

Definition with_documentElement (e : Element) (d : Dom) : Dom :=
  mkDom e (body d) (themeToggle d) (entries d) (showcase d) (showcaseWrapper d)
    (mobileShowcase d) (mobileModal d) (carouselProgress d) (carouselProgressBar d)
    (selectorEngine d).

Definition with_body (e : Element) (d : Dom) : Dom :=
  mkDom (documentElement d) e (themeToggle d) (entries d) (showcase d) (showcaseWrapper d)
    (mobileShowcase d) (mobileModal d) (carouselProgress d) (carouselProgressBar d)
    (selectorEngine d).

Definition with_themeToggle (e : Element) (d : Dom) : Dom :=
  mkDom (documentElement d) (body d) (Some e) (entries d) (showcase d) (showcaseWrapper d)
    (mobileShowcase d) (mobileModal d) (carouselProgress d) (carouselProgressBar d)
    (selectorEngine d).

Definition with_entries (es : list Element) (d : Dom) : Dom :=
  mkDom (documentElement d) (body d) (themeToggle d) es (showcase d) (showcaseWrapper d)
    (mobileShowcase d) (mobileModal d) (carouselProgress d) (carouselProgressBar d)
    (selectorEngine d).

Definition with_showcase (e : Element) (d : Dom) : Dom :=
  mkDom (documentElement d) (body d) (themeToggle d) (entries d) (Some e) (showcaseWrapper d)
    (mobileShowcase d) (mobileModal d) (carouselProgress d) (carouselProgressBar d)
    (selectorEngine d).

Definition with_showcaseWrapper (e : Element) (d : Dom) : Dom :=
  mkDom (documentElement d) (body d) (themeToggle d) (entries d) (showcase d) (Some e)
    (mobileShowcase d) (mobileModal d) (carouselProgress d) (carouselProgressBar d)
    (selectorEngine d).

Definition with_mobileShowcase (e : Element) (d : Dom) : Dom :=
  mkDom (documentElement d) (body d) (themeToggle d) (entries d) (showcase d) (showcaseWrapper d)
    (Some e) (mobileModal d) (carouselProgress d) (carouselProgressBar d)
    (selectorEngine d).

Definition with_mobileModal (e : Element) (d : Dom) : Dom :=
  mkDom (documentElement d) (body d) (themeToggle d) (entries d) (showcase d) (showcaseWrapper d)
    (mobileShowcase d) (Some e) (carouselProgress d) (carouselProgressBar d)
    (selectorEngine d).

Definition with_carouselProgress (e : Element) (d : Dom) : Dom :=
  mkDom (documentElement d) (body d) (themeToggle d) (entries d) (showcase d) (showcaseWrapper d)
    (mobileShowcase d) (mobileModal d) (Some e) (carouselProgressBar d) (selectorEngine d).

Definition with_carouselProgressBar (e : Element) (d : Dom) : Dom :=
  mkDom (documentElement d) (body d) (themeToggle d) (entries d) (showcase d) (showcaseWrapper d)
    (mobileShowcase d) (mobileModal d) (carouselProgress d) (Some e) (selectorEngine d).

Definition update_dom (f : Dom → Dom) (st : State) : State :=
  with_dom (f (dom st)) st.

(** ** Theme controller *)

Definition THEME_STORAGE_KEY : string := "theme-preference".
Definition THEME_DARK : string := "dark".
Definition THEME_LIGHT : string := "light".

Definition getSystemThemePreference (st : State) : string :=
  match matchMedia st with
  | Some true => THEME_DARK
  | _ => THEME_LIGHT
  end.

(** The read is wrapped in try/catch: a throw is logged and [null] is
    returned.  The result is the returned value and the state (console). *)
Definition getStoredThemePreference (st : State) : option string * State :=
  match Storage_getItem THEME_STORAGE_KEY (localStorage st) with
  | Normal v => (v, st)
  | Throw _ =>
      (None, with_console (console st ++ ["Unable to access localStorage:"]) st)
  end.

Definition setStoredThemePreference (theme : string) (st : State) : State :=
  match Storage_setItem THEME_STORAGE_KEY theme (localStorage st) with
  | Normal s => with_localStorage s st
  | Throw _ => with_console (console st ++ ["Unable to save to localStorage:"]) st
  end.

Definition getCurrentTheme (st : State) : string * State :=
  let '(stored, st1) := getStoredThemePreference st in
  match truthy stored with
  | Some s => (s, st1)
  | None => (getSystemThemePreference st1, st1)
  end.

Definition applyTheme (theme : string) (st : State) : State :=
  if String.eqb theme THEME_DARK
  then update_dom (λ d, with_documentElement
                          (setAttribute "data-theme" THEME_DARK (documentElement d)) d) st
  else update_dom (λ d, with_documentElement
                          (removeAttribute "data-theme" (documentElement d)) d) st.

(** ** Timers and animation frames *)

Definition setTimeout (cb : Callback) (delay : Z) (st : State) : State :=
  with_nextTimerId (S (nextTimerId st))
    (with_timers (timers st ++ [mkTimer (nextTimerId st) (clock st + delay) None cb]) st).

(** Returns the state; the new timer's id is the old [nextTimerId]. *)
Definition setInterval (cb : Callback) (delay : Z) (st : State) : nat * State :=
  (nextTimerId st,
   with_nextTimerId (S (nextTimerId st))
     (with_timers (timers st ++ [mkTimer (nextTimerId st) (clock st + delay) (Some delay) cb]) st)).

Definition clearInterval (id : nat) (st : State) : State :=
  with_timers (List.filter (λ t, negb (Nat.eqb (timerId t) id)) (timers st)) st.

Definition requestAnimationFrame (cb : FrameCallback) (st : State) : State :=
  with_frames (frames st ++ [cb]) st.

(** ** Theme toggle *)

Definition toggleTheme (st : State) : string * State :=
  let currentTheme := getAttribute "data-theme" (documentElement (dom st)) in
  let newTheme :=
    if bool_decide (currentTheme = Some THEME_DARK) then THEME_LIGHT else THEME_DARK in
  let st1 := update_dom (λ d, with_documentElement
               (setAttribute "data-theme-transitioning" "" (documentElement d)) d) st in
  let st2 := applyTheme newTheme st1 in
  let st3 := setStoredThemePreference newTheme st2 in
  let st4 := setTimeout ThemeTransitionEnd 300 st3 in
  (newTheme, st4).

Definition themeTransitionEnd (st : State) : State :=
  update_dom (λ d, with_documentElement
    (removeAttribute "data-theme-transitioning" (documentElement d)) d) st.

(** [updateButtonLabel(button)] for the button [#themeToggle]. *)
Definition updateButtonLabel (st : State) : State :=
  match themeToggle (dom st) with
  | None => st
  | Some button =>
      let isDark :=
        bool_decide (getAttribute "data-theme" (documentElement (dom st)) = Some THEME_DARK) in
      update_dom (with_themeToggle
        (setAttribute "aria-label"
           (if isDark then "Switch to light mode" else "Switch to dark mode") button)) st
  end.

(** The button exists only when [#themeToggle] does; the label update is
    then the only effect of the set-up besides the listeners. *)
Definition setupToggleButton (st : State) : State := updateButtonLabel st.

(** The click and Enter/Space handlers of the toggle button. *)
Definition onToggleActivate (st : State) : State :=
  updateButtonLabel (snd (toggleTheme st)).

(** The media-query change handler. *)
Definition onSystemThemeChange (st : State) : State :=
  let '(stored, st1) := getStoredThemePreference st in
  match truthy stored with
  | Some _ => st1
  | None =>
      let st2 := applyTheme
        (match matchMedia st1 with Some true => THEME_DARK | _ => THEME_LIGHT end) st1 in
      updateButtonLabel st2
  end.

(** ** Viewport *)

Definition isMobile (st : State) : bool := (innerWidth st <=? 768)%Z.

(** ** Mobile modal *)

Definition openMobileModal (imageId : option string) (st : State) : State :=
  match mobileModal (dom st), mobileShowcase (dom st) with
  | Some modal, Some ms =>
      let st1 :=
        match truthy imageId with
        | Some img => update_dom (with_mobileShowcase (setAttribute "data-selected" img ms)) st
        | None => st
        end in
      let st2 := update_dom (with_mobileModal (classList_add "active" modal)) st1 in
      update_dom (λ d, with_body (setStyle "overflow" "hidden" (body d)) d) st2
  | _, _ => st
  end.

Definition closeMobileModal (st : State) : State :=
  match mobileModal (dom st) with
  | None => st
  | Some modal =>
      let st1 := update_dom (with_mobileModal (classList_remove "active" modal)) st in
      update_dom (λ d, with_body (setStyle "overflow" "" (body d)) d) st1
  end.

(** ** Showcase *)

Definition FADE_SWAP_DELAY : Z := 250.

Definition updateImageVisibility (imageId : option string) (skipTransition : bool)
    (st : State) : State :=
  match showcase (dom st), truthy imageId with
  | Some sc, Some img =>
      match showcaseWrapper (dom st) with
      | None => st
      | Some wrapper =>
          if skipTransition then
            update_dom (with_showcase (setAttribute "data-selected" img sc)) st
          else
            let st1 := update_dom (with_showcaseWrapper (classList_add "fading" wrapper)) st in
            setTimeout (FadeSwap img) FADE_SWAP_DELAY st1
      end
  | _, _ => st
  end.

(** The timeout body of [updateImageVisibility]; its showcase and wrapper
    are the ones that passed the checks when the timeout was set. *)
Definition fadeSwap (imageId : string) (st : State) : State :=
  match showcase (dom st), showcaseWrapper (dom st) with
  | Some sc, Some wrapper =>
      let st1 := update_dom (with_showcase (setAttribute "data-selected" imageId sc)) st in
      update_dom (with_showcaseWrapper (classList_remove "fading" wrapper)) st1
  | _, _ => st
  end.

(** ** Progress bar *)

Definition startProgressBar (st : State) : State :=
  match carouselProgress (dom st) with
  | None => with_progressBar false st
  | Some pb =>
      let st0 := with_progressBar true st in
      match carouselProgressBar (dom st) with
      | None => st0
      | Some bar =>
          let pb1 := classList_remove "running" (classList_remove "paused" pb) in
          let bar1 := setStyle "width" "0%" (setStyle "transition" "none" bar) in
          let st1 := update_dom (λ d, with_carouselProgressBar bar1
                                        (with_carouselProgress pb1 d)) st0 in
          requestAnimationFrame ProgressRun st1
      end
  end.

(** The animation-frame body of [startProgressBar]. *)
Definition progressRun (st : State) : State :=
  match carouselProgress (dom st), carouselProgressBar (dom st) with
  | Some pb, Some bar =>
      let bar1 := setStyle "width" "100%" (setStyle "transition" "width 10s linear" bar) in
      update_dom (λ d, with_carouselProgress (classList_add "running" pb)
                         (with_carouselProgressBar bar1 d)) st
  | _, _ => st
  end.

Definition pauseProgressBar (st : State) : State :=
  let st0 := if progressBar st then st
             else with_progressBar (bool_decide (is_Some (carouselProgress (dom st)))) st in
  if progressBar st0 then
    match carouselProgress (dom st0) with
    | Some pb =>
        update_dom (with_carouselProgress
          (classList_add "paused" (classList_remove "running" pb))) st0
    | None => st0
    end
  else st0.

(** ** Carousel *)

Definition CAROUSEL_INTERVAL : Z := 10000.

Definition stopCarousel (st : State) : State :=
  match carouselIntervalId st with
  | Some id => with_carouselIntervalId None (clearInterval id st)
  | None => st
  end.

(** The guard of [startCarousel]: mobile viewport, no entry, no showcase,
    or paused.  ([!entries] never holds: a NodeList is an object.) *)
Definition startGuard (st : State) : bool :=
  isMobile st
  || bool_decide (length (entries (dom st)) = 0)
  || negb (bool_decide (is_Some (showcase (dom st))))
  || carouselPaused st.

Definition startCarousel (st : State) : State :=
  if startGuard st then st
  else
    let st1 := stopCarousel st in
    let st2 := startProgressBar st1 in
    let '(id, st3) := setInterval CarouselTick CAROUSEL_INTERVAL st2 in
    with_carouselIntervalId (Some id) st3.

Definition pauseCarousel (st : State) : State :=
  pauseProgressBar (stopCarousel (with_carouselPaused true st)).

Definition restartCarousel (st : State) : State :=
  startCarousel (stopCarousel st).

(** The state [startCarousel] sets the interval in. *)
Definition readied (st : State) : State := startProgressBar (stopCarousel st).

(** The [forEach] of the tick: the last index carrying the [selected] class
    is kept, [-1] when there is none. *)
Fixpoint scanSelected (es : list Element) (index currentIndex : Z) : Z :=
  match es with
  | [] => currentIndex
  | entry :: es' =>
      scanSelected es' (index + 1)
        (if classList_contains "selected" entry then index else currentIndex)
  end.

(** [a % b] on integers; [None] is NaN. *)
Definition js_rem (a b : Z) : option Z :=
  if (b =? 0)%Z then None else Some (Z.rem a b).

(** [entries[i]] for a number-or-NaN index; [None] is undefined. *)
Definition nodeAt (es : list Element) (i : option Z) : option (nat * Element) :=
  match i with
  | Some z => if (0 <=? z)%Z then (λ e, (Z.to_nat z, e)) <$> es !! Z.to_nat z else None
  | None => None
  end.

Definition deselectAll (es : list Element) : list Element :=
  classList_remove "selected" <$> es.

(** How a callback ends: it returns, or it throws and leaves the state as
    it was at the throw. *)
Inductive Outcome :=
  | Returned (st : State)
  | Threw (st : State).

Definition outcome_state (o : Outcome) : State :=
  match o with Returned st => st | Threw st => st end.

(** The interval body of [startCarousel]. *)
Definition carouselTick (st : State) : Outcome :=
  if isMobile st || carouselPaused st then Returned (stopCarousel st)
  else
    let es := entries (dom st) in
    let currentIndex := scanSelected es 0 (-1) in
    let nextIndex := js_rem (currentIndex + 1) (Z.of_nat (length es)) in
    let nextEntry := nodeAt es nextIndex in
    let st1 := update_dom (with_entries (deselectAll es)) st in
    match nextEntry with
    | None => Threw st1               (* nextEntry.classList on undefined *)
    | Some (k, entry) =>
        let st2 := update_dom (λ d, with_entries
                     (alter (classList_add "selected") k (entries d)) d) st1 in
        let imageId := getAttribute "data-image" entry in
        let st3 := match truthy imageId with
                   | Some img => updateImageVisibility (Some img) false st2
                   | None => st2
                   end in
        Returned (startProgressBar st3)
    end.

(** ** Entry selection *)

(** [document.querySelector] over the selectable entries: the first entry,
    in document order, that passes the test, with its position. *)
Fixpoint queryEntry (p : Element → bool) (es : list Element) : option (nat * Element) :=
  match es with
  | [] => None
  | e :: es' =>
      if p e then Some (0, e)
      else (λ r, (S (fst r), snd r)) <$> queryEntry p es'
  end.

Definition isSelected (e : Element) : bool := classList_contains "selected" e.

(** The entry's [data-image] attribute is [imageId]. *)
Definition hasImage (imageId : string) (e : Element) : bool :=
  bool_decide (getAttribute "data-image" e = Some imageId).

(** The characters that end, escape or break a double-quoted string of a
    selector: the quote, the backslash, the line breaks (LF, FF, CR), and
    NUL, which the selector's parser replaces. *)
Definition breaksString (c : Ascii.ascii) : bool :=
  let n := Ascii.nat_of_ascii c in
  (n =? 34) || (n =? 92) || (n =? 10) || (n =? 12) || (n =? 13) || (n =? 0).

(** An identifier that stands for itself between double quotes. *)
Fixpoint plainToken (s : string) : bool :=
  match s with
  | EmptyString => true
  | String c s' => negb (breaksString c) && plainToken s'
  end.

(** ['.entry.selectable[data-image="' + imageId + '"]']. *)
Definition imageSelector (imageId : string) : string :=
  String.append ".entry.selectable[data-image="
    (String (Ascii.ascii_of_nat 34)
       (String.append imageId (String (Ascii.ascii_of_nat 34) "]"))).

(** [document.querySelector(imageSelector imageId)].  Every selectable entry
    carries the two classes, so for a plain token the selector finds the
    first entry whose [data-image] is the token; any other identifier is
    parsed by the browser (it may end the string early, be changed by an
    escape, or leave no selector at all), and the answer is the page's. *)
Definition querySelectorImage (imageId : string) (d : Dom) : Lookup :=
  if plainToken imageId
  then LookupReturns (fst <$> queryEntry (hasImage imageId) (entries d))
  else selectorEngine d (imageSelector imageId) (entries d).

Definition selectAt (k : nat) (st : State) : State :=
  update_dom (λ d, with_entries (alter (classList_add "selected") k (entries d)) d) st.

(** [selectEntry(entry, isUserAction)] for the [k]-th selectable entry. *)
Definition selectEntry (k : nat) (isUserAction : bool) (st : State) : State :=
  match entries (dom st) !! k with
  | None => st
  | Some entry =>
      let imageId := getAttribute "data-image" entry in
      if isMobile st then
        match truthy imageId with
        | Some img => openMobileModal (Some img) st
        | None => st
        end
      else
        let st1 := update_dom (λ d, with_entries (deselectAll (entries d)) d) st in
        let st2 := selectAt k st1 in
        let st3 := match truthy imageId with
                   | Some img => updateImageVisibility (Some img) false st2
                   | None => st2
                   end in
        if isUserAction then pauseCarousel st3 else st3
  end.

Definition setupEntrySelection (st : State) : State :=
  match showcase (dom st) with
  | None => st
  | Some _ =>
      let st1 := update_dom (λ d, with_entries
                   ((λ e, setAttribute "role" "button" (setAttribute "tabindex" "0" e))
                      <$> entries d) d) st in
      let st2 :=
        match queryEntry isSelected (entries (dom st1)) with
        | Some (_, defaultEntry) =>
            if negb (isMobile st1) then
              match truthy (getAttribute "data-image" defaultEntry) with
              | Some img => updateImageVisibility (Some img) true st1
              | None => st1
              end
            else st1
        | None => st1
        end in
      if negb (isMobile st2) then startCarousel st2 else st2
  end.

Definition initEntrySelection (st : State) : State :=
  if readyStateLoading st then st else setupEntrySelection st.

(** ** Resize *)

(** The block of [handleResize] that runs when the modal is open on the way
    to desktop: close it and carry its image over as the selection.  The
    look-up of the entry can throw; the modal is then closed and every
    entry deselected, and nothing after the look-up has run. *)
Definition carryModalSelection (st : State) : Outcome :=
  match mobileModal (dom st) with
  | Some modal =>
      if classList_contains "active" modal then
        let currentImageId :=
          match mobileShowcase (dom st) with
          | Some ms => getAttribute "data-selected" ms
          | None => None
          end in
        let s1 := closeMobileModal st in
        match truthy currentImageId with
        | Some img =>
            let s2 := update_dom (λ d, with_entries (deselectAll (entries d)) d) s1 in
            match querySelectorImage img (dom s2) with
            | LookupThrows => Threw s2
            | LookupReturns correspondingEntry =>
                let s3 := match correspondingEntry with
                          | Some k => selectAt k s2
                          | None => s2
                          end in
                Returned match showcase (dom s3) with
                         | Some _ => updateImageVisibility (Some img) true s3
                         | None => s3
                         end
            end
        | None => Returned s1
        end
      else Returned st
  | None => Returned st
  end.

(** The block of [handleResize] that hands the desktop selection to the
    mobile showcase. *)
Definition seedMobileShowcase (st : State) : State :=
  match queryEntry isSelected (entries (dom st)) with
  | Some (_, selectedEntry) =>
      match mobileShowcase (dom st), truthy (getAttribute "data-image" selectedEntry) with
      | Some ms, Some img =>
          update_dom (with_mobileShowcase (setAttribute "data-selected" img ms)) st
      | _, _ => st
      end
  | None => st
  end.

(** A throw in the first block ends the handler: the pause flag, the
    carousel and [wasMobile] are as they were. *)
Definition handleResize (st : State) : Outcome :=
  let nowMobile := isMobile st in
  let up :=
    if wasMobile st && negb nowMobile then
      match carryModalSelection st with
      | Returned s => Returned (startCarousel (with_carouselPaused false s))
      | Threw s => Threw s
      end
    else Returned st in
  match up with
  | Returned st1 =>
      let st2 :=
        if negb (wasMobile st1) && nowMobile then
          seedMobileShowcase (pauseProgressBar (stopCarousel st1))
        else st1 in
      Returned (with_wasMobile nowMobile st2)
  | Threw s => Threw s
  end.

Definition initResizeTracking (st : State) : State :=
  with_wasMobile (isMobile st) st.

(** ** Start-up *)

Definition init (st : State) : State :=
  let '(initialTheme, st1) := getCurrentTheme st in
  let st2 := applyTheme initialTheme st1 in
  if readyStateLoading st2 then st2 else setupToggleButton st2.

(** The state in which the script starts: the page as parsed, nothing
    scheduled, the module variables at their declared values. *)
Definition fresh (page : Dom) (width : Z) (storage : Storage) (media : option bool)
    (loading : bool) : State :=
  mkState page width storage media [] loading 0 [] 1 [] false None false false.

(** The body of the script: [init(); initEntrySelection(); initResizeTracking()]. *)
Definition load (page : Dom) (width : Z) (storage : Storage) (media : option bool)
    (loading : bool) : State :=
  initResizeTracking (initEntrySelection (init (fresh page width storage media loading))).

(** ** The event loop *)

Definition runCallback (cb : Callback) (st : State) : State :=
  match cb with
  | FadeSwap img => fadeSwap img st
  | ThemeTransitionEnd => themeTransitionEnd st
  | CarouselTick => outcome_state (carouselTick st)
  end.

Definition hasId (id : nat) (t : Timer) : bool := Nat.eqb (timerId t) id.

(** A timer comes due: a timeout leaves the table, an interval is set for
    its next period, and the callback runs.  A timer cleared since the
    instant began does not run. *)
Definition reschedule (id : nat) (p : Z) (st : State) : State :=
  with_timers
    ((λ u, if hasId id u then mkTimer (timerId u) (due u + p) (period u) (callback u)
           else u) <$> timers st) st.

Definition fireTimer (id : nat) (st : State) : State :=
  match List.find (hasId id) (timers st) with
  | None => st
  | Some t =>
      let st1 :=
        match period t with
        | Some p => reschedule id p st
        | None => clearInterval id st
        end in
      runCallback (callback t) st1
  end.

Definition millisecond (st : State) : State :=
  let st1 := with_clock (clock st + 1) st in
  let dueIds := timerId <$> List.filter (λ t, (due t <=? clock st1)%Z) (timers st1) in
  foldl (λ s id, fireTimer id s) st1 dueIds.

Definition runFrame (cb : FrameCallback) (st : State) : State :=
  match cb with
  | ProgressRun => progressRun st
  end.

Definition animationFrame (st : State) : State :=
  foldl (λ s cb, runFrame cb s) (with_frames [] st) (frames st).

(** The listeners of [setupEntrySelection] exist once it has run on a page
    that has a showcase; those of [setupToggleButton] once it has run on a
    page that has the button. *)
Definition entryListeners (st : State) : bool :=
  negb (readyStateLoading st) && bool_decide (is_Some (showcase (dom st))).

Definition toggleListeners (st : State) : bool :=
  negb (readyStateLoading st) && bool_decide (is_Some (themeToggle (dom st))).

(** What the browser delivers to the script.  A resize carries the new
    viewport width and runs the handler in the same step; a millisecond
    advances the clock by one and runs the timers that have come due, in
    the order in which they were set; an animation frame runs the callbacks
    requested since the last one.  An event whose listener does not exist
    (the set-up has not run, or the element is missing) changes nothing. *)
Inductive Event :=
  | DOMContentLoaded
  | EntryActivate (k : nat)       (* click, Enter or Space on the k-th entry *)
  | ModalDismiss                  (* click on the underlay or beside the image *)
  | ToggleActivate                (* click, Enter or Space on the theme button *)
  | SystemThemeChange (dark : bool)
  | Resize (width : Z)
  | AnimationFrame
  | Millisecond.

Definition step (ev : Event) (st : State) : State :=
  match ev with
  | DOMContentLoaded =>
      if readyStateLoading st
      then setupEntrySelection (setupToggleButton (with_readyStateLoading false st))
      else st
  | EntryActivate k =>
      if entryListeners st then selectEntry k true st else st
  | ModalDismiss =>
      if entryListeners st then closeMobileModal st else st
  | ToggleActivate =>
      if toggleListeners st then onToggleActivate st else st
  | SystemThemeChange dark =>
      match matchMedia st with
      | Some _ => onSystemThemeChange (with_matchMedia (Some dark) st)
      | None => st
      end
  | Resize width => outcome_state (handleResize (with_innerWidth width st))
  | AnimationFrame => animationFrame st
  | Millisecond => millisecond st
  end.

Definition run (evs : list Event) (st : State) : State :=
  foldl (λ s ev, step ev s) st evs.

Inductive reachable : State → Prop :=
  | reachable_load page width storage media loading :
      reachable (load page width storage media loading)
  | reachable_step ev st :
      reachable st → reachable (step ev st).

(** ** Observations *)

Definition isCarouselTimer (t : Timer) : bool :=
  match callback t with CarouselTick => true | _ => false end.

(** The live carousel interval timers. *)
Definition carouselTimers (st : State) : list Timer :=
  List.filter isCarouselTimer (timers st).

Definition carouselRunning (st : State) : bool :=
  match carouselTimers st with [] => false | _ => true end.

(** The index the tick takes as current. *)
Definition activeIndex (st : State) : Z := scanSelected (entries (dom st)) 0 (-1).

Definition selectedAt (k : nat) (st : State) : bool :=
  match entries (dom st) !! k with
  | Some e => isSelected e
  | None => false
  end.

Definition pageModalOpen (page : Dom) : bool :=
  match mobileModal page with
  | Some modal => classList_contains "active" modal
  | None => false
  end.

Definition modalOpen (st : State) : bool := pageModalOpen (dom st).

Definition shownImage (st : State) : option string :=
  showcase (dom st) ≫= getAttribute "data-selected".

Definition mobileImage (st : State) : option string :=
  mobileShowcase (dom st) ≫= getAttribute "data-selected".

Definition fading (st : State) : bool :=
  match showcaseWrapper (dom st) with
  | Some w => classList_contains "fading" w
  | None => false
  end.

(** [n] milliseconds pass with no other event. *)
Definition elapse (n : nat) (st : State) : State := Nat.iter n millisecond st.

(** [n] firings of the interval body in a row. *)
Definition ticks (n : nat) (st : State) : State :=
  Nat.iter n (λ s, outcome_state (carouselTick s)) st.

(** ** The store and the system preference, as the theme contract reads them *)

(** What a read of the preference key gives: the stored string, or nothing
    when the key is absent or the store cannot be read. *)
Definition storedPreference (st : State) : option string :=
  match localStorage st with
  | StorageItems items => items !! THEME_STORAGE_KEY
  | StorageUnavailable => None
  end.

(** The contract of the effective theme, in the words of the specification:
    the stored preference if present and readable, else the system
    preference (dark when the media query matches), else light. *)
Definition effectiveTheme_spec (stored : option string) (prefersDark : option bool) : string :=
  match stored with
  | Some s => s
  | None =>
      match prefersDark with
      | Some true => "dark"
      | _ => "light"
      end
  end.


(** ** Invariants of the timer table *)

Definition timerIds (st : State) : list nat := timerId <$> timers st.

Definition carouselIds (st : State) : list nat := timerId <$> carouselTimers st.

(** Timer ids are pairwise distinct and below the next id to hand out. *)
Definition wfTimers (st : State) : Prop :=
  NoDup (timerIds st) ∧ Forall (λ i, i < nextTimerId st) (timerIds st).

(** Every live carousel timer is the one [carouselIntervalId] names. *)
Definition owned (st : State) : Prop :=
  Forall (λ i, carouselIntervalId st = Some i) (carouselIds st).

(** [carouselIntervalId] names an id already handed out. *)
Definition issued (st : State) : Prop :=
  ∀ i, carouselIntervalId st = Some i → i < nextTimerId st.

Definition coherent (st : State) : Prop := wfTimers st ∧ owned st ∧ issued st.

(** What a live carousel timer implies. *)
Definition guarded (st : State) : Prop :=
  carouselRunning st = true →
  carouselPaused st = false ∧ isMobile st = false ∧
  entries (dom st) ≠ [] ∧ is_Some (showcase (dom st)).

(** The image ids of the entries and the presence of the showcase: what the
    script never changes on the page. *)
Definition shape (st : State) : list (option string) * bool :=
  (getAttribute "data-image" <$> entries (dom st),
   bool_decide (is_Some (showcase (dom st)))).

(** [st'] differs from [st] in nothing the carousel depends on: the page
    may have changed but not its shape, timers other than the carousel's
    may have come and gone, and a carousel timer may have gone. *)
Record calm (st st' : State) : Prop := mkCalm {
  calm_width : innerWidth st' = innerWidth st;
  calm_wasMobile : wasMobile st' = wasMobile st;
  calm_id : carouselIntervalId st' = carouselIntervalId st;
  calm_paused : carouselPaused st' = carouselPaused st;
  calm_loading : readyStateLoading st' = readyStateLoading st;
  calm_shape : shape st' = shape st;
  calm_ids : sublist (carouselIds st') (carouselIds st);
  calm_wf : wfTimers st → wfTimers st';
  calm_next : nextTimerId st ≤ nextTimerId st'
}.

(** Calm, and the modal and the mobile showcase are untouched. *)
Record quiet (st st' : State) : Prop := mkQuiet {
  quiet_calm : calm st st';
  quiet_modal : mobileModal (dom st') = mobileModal (dom st);
  quiet_mobileShowcase : mobileShowcase (dom st') = mobileShowcase (dom st)
}.

(** What every function but the resize handler, the modal and the
    start-up keeps: the viewport variables, the shape of the page, the
    modal and mobile showcase, and the well-formedness of the timer table. *)
Record steady (st st' : State) : Prop := mkSteady {
  steady_width : innerWidth st' = innerWidth st;
  steady_wasMobile : wasMobile st' = wasMobile st;
  steady_loading : readyStateLoading st' = readyStateLoading st;
  steady_shape : shape st' = shape st;
  steady_modal : mobileModal (dom st') = mobileModal (dom st);
  steady_mobileShowcase : mobileShowcase (dom st') = mobileShowcase (dom st);
  steady_wf : wfTimers st → wfTimers st';
  steady_next : nextTimerId st ≤ nextTimerId st'
}.

(** Steady, the pause flag is kept, and the carousel timer is kept or
    stopped. *)
Record tame (st st' : State) : Prop := mkTame {
  tame_steady : steady st st';
  tame_paused : carouselPaused st' = carouselPaused st;
  tame_ids : sublist (carouselIds st') (carouselIds st);
  tame_id : carouselIntervalId st' = carouselIntervalId st
            ∨ (carouselIntervalId st' = None ∧ (owned st → carouselIds st' = []))
}.

(** The invariant of the engine between two events, as long as every
    resize handler has run to its end. *)
Definition Inv (st : State) : Prop :=
  coherent st ∧ guarded st ∧ wasMobile st = isMobile st.

(** The handler ran to its end. *)
Definition returned (o : Outcome) : bool :=
  match o with Returned _ => true | Threw _ => false end.

Definition plainId (v : option string) : bool :=
  match v with Some s => plainToken s | None => true end.

(** Every image id the resize handler can come to look up is a plain
    token: those of the entries, which the modal and the mobile showcase
    take theirs from, and the one the mobile showcase has in the markup. *)
Definition plainPage (page : Dom) : bool :=
  forallb plainId (getAttribute "data-image" <$> entries page)
  && plainId (mobileShowcase page ≫= getAttribute "data-selected").

(** What a live carousel timer implies in every state, whatever the
    handlers before did. *)
Definition poised (st : State) : Prop :=
  carouselRunning st = true →
  carouselPaused st = false ∧ entries (dom st) ≠ [] ∧ is_Some (showcase (dom st)).

(** [wasMobile] differs from the viewport only one way: set on a desktop
    viewport, after a resize handler that threw on the way there. *)
Definition tracked (st : State) : Prop := isMobile st = true → wasMobile st = true.

(** The invariant that survives a handler that throws. *)
Definition Sound (st : State) : Prop := coherent st ∧ poised st ∧ tracked st.

(** What a resize handler that threw leaves behind: [wasMobile] set on a
    desktop viewport, no carousel timer, and the page loaded. *)
Definition stale (st : State) : Prop :=
  wasMobile st = true ∧ isMobile st = false ∧ carouselIds st = []
  ∧ readyStateLoading st = false.

(** The invariant of a page whose markup has the modal closed: that of the
    handlers that return, or the state a handler that threw leaves. *)
Definition settled (st : State) : Prop := Inv st ∨ (coherent st ∧ stale st).

(** The carousel is paused by the user and no carousel timer is live. *)
Definition halted (st : State) : Prop :=
  carouselPaused st = true ∧ carouselIds st = [].

(** A resize that crosses the breakpoint upwards. *)
Definition mobileToDesktop (ev : Event) (st : State) : Prop :=
  match ev with
  | Resize w => wasMobile st = true ∧ (768 < w)%Z
  | _ => False
  end.

(** No event of the trace, run from [st], is such a crossing. *)
Fixpoint noMobileToDesktop (evs : list Event) (st : State) : Prop :=
  match evs with
  | [] => True
  | ev :: evs' => ¬ mobileToDesktop ev st ∧ noMobileToDesktop evs' (step ev st)
  end.

(** While the modal is open, it shows the image of some entry, and the
    entry listeners exist. *)
Definition modalBacked (st : State) : Prop :=
  modalOpen st = true →
  entryListeners st = true ∧
  ∃ img, truthy (mobileImage st) = Some img ∧
         is_Some (queryEntry (hasImage img) (entries (dom st))).

(** The carousel's functions touch no element but the progress bar. *)
Record pageKept (st st' : State) : Prop := mkPageKept {
  kept_entries : entries (dom st') = entries (dom st);
  kept_showcase : showcase (dom st') = showcase (dom st);
  kept_wrapper : showcaseWrapper (dom st') = showcaseWrapper (dom st);
  kept_modal : mobileModal (dom st') = mobileModal (dom st);
  kept_mobileShowcase : mobileShowcase (dom st') = mobileShowcase (dom st)
}.

(** States reached from a page whose markup has the modal closed. *)
Inductive reachableFrom (page : Dom) : State → Prop :=
  | reachableFrom_load width storage media loading :
      reachableFrom page (load page width storage media loading)
  | reachableFrom_step ev st :
      reachableFrom page st → reachableFrom page (step ev st).

(** ** The fade switch, in time *)

Definition isFadeTimer (t : Timer) : bool :=
  match callback t with FadeSwap _ => true | _ => false end.

(** The timer [updateImageVisibility] sets in state [st] for image [img]. *)
Definition fadeTimer (st : State) (img : string) : Timer :=
  mkTimer (nextTimerId st) (clock st + FADE_SWAP_DELAY) None (FadeSwap img).

(** The timer table is well formed and [carouselIntervalId] names an id
    already handed out. *)
Definition timersSound (st : State) : Prop := wfTimers st ∧ issued st.

(** The swap [ours] is pending at clock [c]: the showcase still shows [old]
    and is fading; the timers set before [ours] are no swaps, those set
    after it are swaps due later than it. *)
Record pending (ours : Timer) (old : option string) (c : Z) (s : State) : Prop := mkPending {
  pending_clock : clock s = c;
  pending_wf : wfTimers s;
  pending_id : carouselIntervalId s ≠ Some (timerId ours);
  pending_fading : fading s = true;
  pending_shown : shownImage s = old;
  pending_showcase : is_Some (showcase (dom s));
  pending_split :
    ∃ pre post, timers s = pre ++ ours :: post
                ∧ Forall (λ u, isFadeTimer u = false) pre
                ∧ Forall (λ u, isFadeTimer u = true ∧ (due ours < due u)%Z) post
}.

(** The id [i] is not the pending swap's and names no swap timer, now or
    later. *)
Definition fireable (ours : Timer) (i : nat) (s : State) : Prop :=
  i ≠ timerId ours ∧ i < nextTimerId s
  ∧ ∀ u, u ∈ timers s → timerId u = i → isFadeTimer u = false.

(** ** Further observations *)

Definition isDark (st : State) : bool :=
  bool_decide (getAttribute "data-theme" (documentElement (dom st)) = Some THEME_DARK).

(** The marker [data-theme-transitioning] is on the document element. *)
Definition transitioning (st : State) : bool :=
  bool_decide (is_Some (getAttribute "data-theme-transitioning" (documentElement (dom st)))).

Definition buttonLabel (st : State) : option string :=
  themeToggle (dom st) ≫= getAttribute "aria-label".

(** The label [updateButtonLabel] writes for a theme. *)
Definition labelFor (dark : bool) : string :=
  if dark then "Switch to light mode" else "Switch to dark mode".

Definition pageScrollLocked (page : Dom) : bool :=
  bool_decide (style (body page) !! "overflow" = Some "hidden").

Definition scrollLocked (st : State) : bool := pageScrollLocked (dom st).

Definition selectedFlags (st : State) : list bool := isSelected <$> entries (dom st).

Definition selectedCount (es : list Element) : nat := length (List.filter isSelected es).

(** The position [document.querySelector('.entry.selectable.selected')]
    finds, as the tick counts positions: [-1] when there is none. *)
Definition firstSelected (st : State) : Z :=
  match queryEntry isSelected (entries (dom st)) with
  | Some (k, _) => Z.of_nat k
  | None => (-1)%Z
  end.

Definition progressClass (c : string) (st : State) : bool :=
  match carouselProgress (dom st) with
  | Some pb => classList_contains c pb
  | None => false
  end.

Definition barStyle (prop : string) (st : State) : option string :=
  carouselProgressBar (dom st) ≫= λ bar, style bar !! prop.

(** ** What a function leaves untouched *)

(** Five sides of the state, each with what can be seen of it. *)
Inductive Aspect :=
  | Theme        (* the theme of the document, its button, the store,
                    the system preference and the ready state *)
  | Modal        (* the modal and the body, which carries the scroll lock *)
  | Selection    (* which entries carry the [selected] class *)
  | Viewport     (* the width of the window *)
  | Clock.       (* the time *)

Definition themeView (st : State)
    : option string * option Element * Storage * option bool * bool :=
  (getAttribute "data-theme" (documentElement (dom st)), themeToggle (dom st),
   localStorage st, matchMedia st, readyStateLoading st).

Definition modalView (st : State) : option Element * Element :=
  (mobileModal (dom st), body (dom st)).

(** [st] shows of the aspect [a] what [s] shows. *)
Definition kept (a : Aspect) (s st : State) : Prop :=
  match a with
  | Theme => themeView st = themeView s
  | Modal => modalView st = modalView s
  | Selection => selectedFlags st = selectedFlags s
  | Viewport => innerWidth st = innerWidth s
  | Clock => clock st = clock s
  end.

(** The button's label names the theme a press would switch to, once the
    button has been set up. *)
Definition labelled (st : State) : Prop :=
  toggleListeners st = true → buttonLabel st = Some (labelFor (isDark st)).

(** The scroll lock is on exactly while the modal is open, and the modal
    is open on a mobile viewport only. *)
Definition modalSound (st : State) : Prop :=
  scrollLocked st = modalOpen st ∧ (modalOpen st = true → isMobile st = true).

(** Exactly one entry carries the [selected] class. *)
Definition oneSelected (st : State) : Prop := selectedCount (entries (dom st)) = 1.

(** The two variables the set-up neither reads nor writes: the ready state
    of the document and [wasMobile]. *)
Inductive Bookkeeping : (State → State) → Prop :=
  | bookkeeping_loading (b : bool) : Bookkeeping (with_readyStateLoading b)
  | bookkeeping_wasMobile (b : bool) : Bookkeeping (with_wasMobile b).

Definition isThemeTimer (t : Timer) : bool :=
  match callback t with ThemeTransitionEnd => true | _ => false end.

(** The theme-transition marker is set and [ours], the earliest of the
    timers that will remove it, is pending at clock [c]. *)
Record markerPending (ours : Timer) (c : Z) (s : State) : Prop := mkMarkerPending {
  mp_clock : clock s = c;
  mp_wf : wfTimers s;
  mp_id : carouselIntervalId s ≠ Some (timerId ours);
  mp_marker : transitioning s = true;
  mp_ours : ours ∈ timers s;
  mp_first : ∀ u, u ∈ timers s → isThemeTimer u = true → (due ours ≤ due u)%Z
}.

(** The id [i] names no timer that removes the marker, now or later. *)
Definition idle (i : nat) (s : State) : Prop :=
  i < nextTimerId s ∧ ∀ u, u ∈ timers s → timerId u = i → isThemeTimer u = false.

(** The timer [toggleTheme] sets in state [st]. *)
Definition themeTimer (st : State) : Timer :=
  mkTimer (nextTimerId st) (clock st + 300) None ThemeTransitionEnd.

(** The interval timer of the carousel with id [id], next due at [dueAt]. *)
Definition carouselTimer (id : nat) (dueAt : Z) : Timer :=
  mkTimer id dueAt (Some CAROUSEL_INTERVAL) CarouselTick.

(** The carousel interval, as a number of milliseconds. *)
Definition CAROUSEL_TICKS : nat := Z.to_nat CAROUSEL_INTERVAL.

(** The carousel is cycling at clock [c]: its timer [id] is next due at
    [dueAt], the viewport is desktop, the user has not paused, and there are
    entries. *)
Record cycling (id : nat) (dueAt : Z) (c : Z) (s : State) : Prop := mkCycling {
  cy_clock : clock s = c;
  cy_coherent : coherent s;
  cy_id : carouselIntervalId s = Some id;
  cy_timer : carouselTimer id dueAt ∈ timers s;
  cy_desktop : isMobile s = false;
  cy_unpaused : carouselPaused s = false;
  cy_entries : entries (dom s) ≠ []
}.

(** ** Clicks inside the modal *)

(** The elements inside [#mobileModal], as far as the close handlers see
    them: each with its classes and its children, in document order. *)
#[local] Unset Elimination Schemes.
Inductive Node := mkNode (nodeClasses : list string) (childNodes : list Node).
#[local] Set Elimination Schemes.

Definition hasClass (c : string) (n : Node) : bool :=
  match n with mkNode classes _ => bool_decide (c ∈ classes) end.

(** An element inside the modal, by the positions of its ancestors and of
    itself among their siblings; [[]] is the modal. *)
Definition Path := list nat.

Fixpoint subtree (p : Path) (n : Node) : option Node :=
  match p with
  | [] => Some n
  | i :: p' => match n with mkNode _ kids => kids !! i ≫= subtree p' end
  end.

(** The first of the elements [kids], in document order, that carries the
    class [c] or has a descendant, found by [query], that does; [i] is the
    position of the first of them among its siblings. *)
Definition firstMatch (c : string) (query : Node → option Path)
    : nat → list Node → option Path :=
  fix first (i : nat) (kids : list Node) : option Path :=
    match kids with
    | [] => None
    | k :: kids' =>
        match (if hasClass c k then Some [] else query k) with
        | Some p => Some (i :: p)
        | None => first (S i) kids'
        end
    end.

(** [n.querySelector('.c')]: the first descendant of [n], in document
    order, that carries the class; [n] itself is not a candidate. *)
Fixpoint querySelector (c : string) (n : Node) : option Path :=
  match n with mkNode _ kids => firstMatch c (querySelector c) 0 kids end.

(** [node.contains(other)]: [other] is [node] or one of its descendants. *)
Definition contains (node other : Path) : bool := bool_decide (node `prefix_of` other).

(** The elements the set-up looks up in the modal. *)
Definition underlayOf (modal : Node) : option Path :=
  querySelector "mobile-modal-underlay" modal.

Definition contentOf (modal : Node) : option Path :=
  querySelector "mobile-modal-content" modal.

Definition wrapperOf (modal : Node) : option Path :=
  querySelector "mobile-showcase-image-wrapper" modal.

(** The image wrapper the content's handler looks up, inside the content. *)
Definition contentWrapperOf (modal : Node) : option Path :=
  c ← contentOf modal;
  n ← subtree c modal;
  w ← querySelector "mobile-showcase-image-wrapper" n;
  Some (c ++ w).

(** The click listeners on the element [q], for a click on [target]: the
    underlay's and the content's call [closeMobileModal], the wrapper's
    calls [stopPropagation]. *)
Definition closesAt (modal : Node) (target q : Path) : bool :=
  bool_decide (underlayOf modal = Some q)
  || (bool_decide (contentOf modal = Some q)
      && match contentWrapperOf modal with
         | Some w => negb (contains w target)
         | None => false
         end).

Definition stopsAt (modal : Node) (q : Path) : bool :=
  bool_decide (wrapperOf modal = Some q).

(** The path of a click: the target, then its ancestors up to the modal. *)
Fixpoint inits (p : Path) : list Path :=
  match p with
  | [] => [[]]
  | i :: p' => [] :: ((λ q, i :: q) <$> inits p')
  end.

Definition propagationPath (target : Path) : list Path := reverse (inits target).

(** The click bubbles along the path: the listeners of each element run,
    and the propagation ends at the element whose listener stopped it.
    The result tells whether [closeMobileModal] was called. *)
Fixpoint bubble (modal : Node) (target : Path) (path : list Path) : bool :=
  match path with
  | [] => false
  | q :: rest =>
      closesAt modal target q
      || (if stopsAt modal q then false else bubble modal target rest)
  end.

Definition clickCloses (modal : Node) (target : Path) : bool :=
  bubble modal target (propagationPath target).

(** A click on the element [target] of the modal. *)
Definition onModalClick (modal : Node) (target : Path) (st : State) : State :=
  if entryListeners st && clickCloses modal target then closeMobileModal st else st.

(** The modal of the page, as a tree. *)
Definition sampleModal : Node :=
  mkNode ["mobile-modal"]
    [mkNode ["mobile-modal-underlay"] [];
     mkNode ["mobile-modal-content"]
       [mkNode ["mobile-modal-close"] [];
        mkNode ["mobile-showcase"]
          [mkNode ["mobile-showcase-image-wrapper"]
             [mkNode ["mobile-showcase-image"] []]]]].

(** ** The first revision of the script *)

(** The resize handler as the first revision of [src/script.js] has it: no
    carousel, no carry-over, the modal is closed on a desktop viewport.
    [isMobile] and [closeMobileModal] are the same in both revisions. *)
Module Revision1.

Definition handleResize (st : State) : State :=
  match mobileModal (dom st) with
  | Some modal =>
      if negb (isMobile st) && classList_contains "active" modal
      then closeMobileModal st
      else st
  | None => st
  end.

End Revision1.

(** ** A sample page *)

Definition element (classes : list string) (attrs : list (string * string)) : Element :=
  mkElement (list_to_map attrs) (list_to_set classes) ∅.

Definition sampleEntry (imageId : string) (selected : bool) : Element :=
  element (if selected then ["entry"; "selectable"; "selected"] else ["entry"; "selectable"])
          [("data-image", imageId)].

(** The engine of the sample pages throws at every selector it is asked
    about: it is asked about none but the selector of [quoteId] below,
    whose string ends at the quote of the id and is followed by the
    identifier y, where only a case flag or the closing bracket may follow;
    that is no selector, and [querySelector] throws a SyntaxError. *)
Definition samplePage (es : list Element) : Dom :=
  mkDom (element [] []) (element [] []) (Some (element [] []))
    es
    (Some (element ["showcase"] [("data-selected", "ai-web")]))
    (Some (element ["showcase-image-wrapper"] []))
    (Some (element ["mobile-showcase"] []))
    (Some (element ["mobile-modal"] []))
    (Some (element ["carousel-progress"] []))
    (Some (element ["carousel-progress-bar"] []))
    (λ _ _, LookupThrows).

Definition fourEntries : list Element :=
  [sampleEntry "A" false; sampleEntry "B" true; sampleEntry "C" false; sampleEntry "D" false].

Definition oneEntry : list Element := [sampleEntry "A" true].

Definition desktopFour : State :=
  load (samplePage fourEntries) 1024 (StorageItems ∅) (Some true) false.

Definition desktopOne : State :=
  load (samplePage oneEntry) 1024 (StorageItems ∅) None false.

Definition mobileFour : State :=
  load (samplePage fourEntries) 500 (StorageItems ∅) None false.

(** An image id with a double quote in it (an x, the quote, a y), and a
    page that has it. *)
Definition quoteId : string := String.append "x" (String (Ascii.ascii_of_nat 34) "y").

Definition quoteEntries : list Element :=
  [sampleEntry quoteId false; sampleEntry "B" true; sampleEntry "C" false].

Definition desktopQuote : State :=
  load (samplePage quoteEntries) 1024 (StorageItems ∅) None false.

(** The same page with the modal open, on that image, in the markup. *)
Definition openQuotePage : Dom :=
  with_mobileModal (element ["mobile-modal"; "active"] [])
    (with_mobileShowcase (element ["mobile-showcase"] [("data-selected", quoteId)])
       (samplePage quoteEntries)).

(* ===================================================================== *)
(** * Properties *)
(* ===================================================================== *)

(** ** Theme controller *)

Lemma getStoredThemePreference_value (st : State) :
  fst (getStoredThemePreference st) = storedPreference st.
Proof.
  unfold getStoredThemePreference, storedPreference, Storage_getItem.
  by destruct (localStorage st).
Qed.

Lemma getStoredThemePreference_media (st : State) :
  matchMedia (snd (getStoredThemePreference st)) = matchMedia st.
Proof.
  unfold getStoredThemePreference, Storage_getItem.
  by destruct (localStorage st).
Qed.

(** A read that throws is caught: the function returns [null] and logs. *)
Lemma getStoredThemePreference_throw (st : State) (e : string) :
  Storage_getItem THEME_STORAGE_KEY (localStorage st) = Throw e →
  getStoredThemePreference st =
    (None, with_console (console st ++ ["Unable to access localStorage:"]) st).
Proof. intros H. unfold getStoredThemePreference. by rewrite H. Qed.

Lemma truthy_nonempty (v : option string) :
  v ≠ Some "" → truthy v = v.
Proof.
  destruct v as [s|]; [|done]. intros H. simpl.
  destruct (String.eqb_spec s ""); [by subst|done].
Qed.

(** C8.  For every store and system preference, the effective theme is the
    stored preference when the store can be read and holds one (a
    non-empty string: the code tests the value for truthiness), otherwise
    the system preference (dark when the media query matches), otherwise
    light; a store whose read throws gives the answer of a store without
    the key.  The function has no throwing outcome: the read is wrapped in
    try/catch. *)
Theorem getCurrentTheme_priority (st : State) (items : gmap string string) :
  fst (getCurrentTheme st)
    = effectiveTheme_spec (truthy (storedPreference st)) (matchMedia st)
  ∧ fst (getCurrentTheme (with_localStorage StorageUnavailable st))
    = fst (getCurrentTheme
             (with_localStorage (StorageItems (delete THEME_STORAGE_KEY items)) st)).
Proof.
  assert (Hmain : ∀ s, fst (getCurrentTheme s)
            = effectiveTheme_spec (truthy (storedPreference s)) (matchMedia s)).
  { intros s. unfold getCurrentTheme.
    pose proof (getStoredThemePreference_value s) as Hv.
    pose proof (getStoredThemePreference_media s) as Hm.
    destruct (getStoredThemePreference s) as [stored s1]. simpl in Hv, Hm. subst stored.
    unfold effectiveTheme_spec, getSystemThemePreference.
    destruct (truthy (storedPreference s)); simpl; [done|].
    rewrite Hm. by destruct (matchMedia s) as [[]|]. }
  split; [apply Hmain|]. rewrite !Hmain.
  unfold storedPreference. simpl. by rewrite lookup_delete_eq.
Qed.

Lemma getCurrentTheme_priority_witness :
  fst (getCurrentTheme (fresh (samplePage fourEntries) 1024
         (StorageItems {[ "theme-preference" := "light" ]}) (Some true) false)) = "light"
  ∧ fst (getCurrentTheme (fresh (samplePage fourEntries) 1024
         StorageUnavailable (Some true) false)) = "dark"
  ∧ fst (getCurrentTheme (fresh (samplePage fourEntries) 1024
         (StorageItems ∅) None false)) = "light".
Proof.
  split_and!.
  - destruct (getCurrentTheme_priority (fresh (samplePage fourEntries) 1024
         (StorageItems {[ "theme-preference" := "light" ]}) (Some true) false) ∅) as [H _].
    rewrite H. vm_compute. reflexivity.
  - destruct (getCurrentTheme_priority (fresh (samplePage fourEntries) 1024
         StorageUnavailable (Some true) false) ∅) as [H _].
    rewrite H. vm_compute. reflexivity.
  - destruct (getCurrentTheme_priority (fresh (samplePage fourEntries) 1024
         (StorageItems ∅) None false) ∅) as [H _].
    rewrite H. vm_compute. reflexivity.
Defined.

(** C9. Applying a theme twice leaves the state that applying it once
    leaves. *)
Theorem applyTheme_idempotent (theme : string) (st : State) :
  applyTheme theme (applyTheme theme st) = applyTheme theme st.
Proof.
  unfold applyTheme. destruct (String.eqb theme THEME_DARK);
    unfold update_dom, with_dom, with_documentElement, setAttribute, removeAttribute; simpl.
  - by rewrite insert_insert_eq.
  - by rewrite delete_delete_eq.
Qed.

(** ** The timer table *)

Lemma carouselIds_app (st : State) (ts : list Timer) :
  timerId <$> List.filter isCarouselTimer (timers st ++ ts)
  = carouselIds st ++ (timerId <$> List.filter isCarouselTimer ts).
Proof. unfold carouselIds, carouselTimers. by rewrite List.filter_app, fmap_app. Qed.

Lemma carouselRunning_ids (st : State) :
  carouselRunning st = true ↔ carouselIds st ≠ [].
Proof.
  unfold carouselRunning, carouselIds. destruct (carouselTimers st); simpl; split; done.
Qed.

Lemma carouselRunning_false (st : State) :
  carouselRunning st = false ↔ carouselIds st = [].
Proof.
  unfold carouselRunning, carouselIds. destruct (carouselTimers st); simpl; split; done.
Qed.

Lemma filter_sublist {A} (p : A → bool) (l : list A) : sublist (List.filter p l) l.
Proof.
  induction l as [|x l IH]; simpl; [constructor|].
  destruct (p x); by constructor.
Qed.

Lemma filter_filter_sublist {A} (p q : A → bool) (l : list A) :
  sublist (List.filter p (List.filter q l)) (List.filter p l).
Proof.
  induction l as [|x l IH]; simpl; [constructor|].
  destruct (q x); simpl; destruct (p x); first [done | by constructor].
Qed.

Lemma clearInterval_timerIds (id : nat) (st : State) :
  sublist (timerIds (clearInterval id st)) (timerIds st).
Proof. unfold timerIds, clearInterval. simpl. apply fmap_sublist, filter_sublist. Qed.

Lemma clearInterval_carouselIds (id : nat) (st : State) :
  sublist (carouselIds (clearInterval id st)) (carouselIds st).
Proof.
  unfold carouselIds, carouselTimers, clearInterval. simpl.
  apply fmap_sublist, filter_filter_sublist.
Qed.

Lemma wfTimers_sublist (st st' : State) :
  sublist (timerIds st') (timerIds st) → nextTimerId st ≤ nextTimerId st' →
  wfTimers st → wfTimers st'.
Proof.
  intros Hs Hn [Hnd Hf]. split.
  - by eapply sublist_NoDup.
  - rewrite Forall_forall in *. intros i Hi.
    pose proof (Hf i (elem_of_sublist _ _ _ Hi Hs)). lia.
Qed.

(** After [clearInterval id] no timer has the id [id]. *)
Lemma clearInterval_gone (id : nat) (st : State) :
  id ∉ timerIds (clearInterval id st).
Proof.
  unfold timerIds, clearInterval. simpl.
  induction (timers st) as [|t ts IH]; simpl; [by apply not_elem_of_nil|].
  destruct (Nat.eqb_spec (timerId t) id); simpl; [done|].
  rewrite not_elem_of_cons. done.
Qed.

Lemma carouselIds_sublist_timerIds (st : State) :
  sublist (carouselIds st) (timerIds st).
Proof. apply fmap_sublist, filter_sublist. Qed.

(** ** Calm and quiet changes *)

Lemma calm_refl (st : State) : calm st st.
Proof. by constructor. Qed.

Lemma calm_trans (s1 s2 s3 : State) : calm s1 s2 → calm s2 s3 → calm s1 s3.
Proof.
  intros [] []. constructor; try congruence; [by etrans|tauto|lia].
Qed.

Lemma quiet_refl (st : State) : quiet st st.
Proof. constructor; [apply calm_refl|done..]. Qed.

Lemma quiet_trans (s1 s2 s3 : State) : quiet s1 s2 → quiet s2 s3 → quiet s1 s3.
Proof.
  intros [] []. constructor; [by eapply calm_trans|congruence..].
Qed.

(** Nothing but the page, the console, the store and the frames changed,
    and the page kept its shape. *)
Lemma calm_frame (st st' : State) :
  innerWidth st' = innerWidth st → wasMobile st' = wasMobile st →
  carouselIntervalId st' = carouselIntervalId st →
  carouselPaused st' = carouselPaused st →
  readyStateLoading st' = readyStateLoading st →
  timers st' = timers st → nextTimerId st' = nextTimerId st →
  shape st' = shape st →
  calm st st'.
Proof.
  intros ????? Ht Hn ?. constructor; try done.
  - unfold carouselIds, carouselTimers. by rewrite Ht.
  - unfold wfTimers, timerIds. by rewrite Ht, Hn.
  - by rewrite Hn.
Qed.

Lemma quiet_frame (st st' : State) :
  innerWidth st' = innerWidth st → wasMobile st' = wasMobile st →
  carouselIntervalId st' = carouselIntervalId st →
  carouselPaused st' = carouselPaused st →
  readyStateLoading st' = readyStateLoading st →
  timers st' = timers st → nextTimerId st' = nextTimerId st →
  shape st' = shape st →
  mobileModal (dom st') = mobileModal (dom st) →
  mobileShowcase (dom st') = mobileShowcase (dom st) →
  quiet st st'.
Proof. intros. constructor; [by apply calm_frame|done..]. Qed.

Ltac use_eqs :=
  repeat match goal with
         | H : ?x = _ |- context [?x] => rewrite H
         end.

Ltac frame :=
  first [apply calm_frame | apply quiet_frame];
  try reflexivity; unfold shape; simpl; use_eqs; try reflexivity.

Lemma quiet_setTimeout (cb : Callback) (delay : Z) (st : State) :
  cb ≠ CarouselTick → quiet st (setTimeout cb delay st).
Proof.
  intros Hcb. constructor; [constructor|..]; try reflexivity; [| |simpl; lia].
  - unfold carouselIds at 1, carouselTimers. simpl. rewrite carouselIds_app. simpl.
    unfold isCarouselTimer at 1. simpl. destruct cb; [|..|done]; simpl; by rewrite app_nil_r.
  - intros [Hnd Hf]. unfold wfTimers, timerIds in *. simpl. rewrite fmap_app. simpl. split.
    + apply NoDup_app. split_and!; [done| |apply NoDup_singleton].
      intros i Hi ->%list_elem_of_singleton. rewrite Forall_forall in Hf.
      specialize (Hf _ Hi). simpl in Hf. lia.
    + apply Forall_app. split; [|by repeat constructor; lia].
      eapply Forall_impl; [done|]. simpl. intros; lia.
Qed.

Lemma quiet_requestAnimationFrame (cb : FrameCallback) (st : State) :
  quiet st (requestAnimationFrame cb st).
Proof. frame. Qed.

Lemma images_deselectAll (es : list Element) :
  getAttribute "data-image" <$> deselectAll es = getAttribute "data-image" <$> es.
Proof. unfold deselectAll. rewrite <- list_fmap_compose. by apply list_fmap_ext. Qed.

Lemma images_alter (f : Element → Element) (k : nat) (es : list Element) :
  (∀ e, getAttribute "data-image" (f e) = getAttribute "data-image" e) →
  getAttribute "data-image" <$> alter f k es = getAttribute "data-image" <$> es.
Proof.
  intros Hf. revert k. induction es as [|e es IH]; intros [|k]; simpl; try done.
  - by rewrite Hf.
  - f_equal. apply IH.
Qed.

Lemma images_fmap (f : Element → Element) (es : list Element) :
  (∀ e, getAttribute "data-image" (f e) = getAttribute "data-image" e) →
  getAttribute "data-image" <$> (f <$> es) = getAttribute "data-image" <$> es.
Proof. intros Hf. rewrite <- list_fmap_compose. apply list_fmap_ext. intros; simpl; apply Hf. Qed.

Lemma quiet_applyTheme (theme : string) (st : State) : quiet st (applyTheme theme st).
Proof. unfold applyTheme. case_match; frame. Qed.

Lemma quiet_setStoredThemePreference (theme : string) (st : State) :
  quiet st (setStoredThemePreference theme st).
Proof. unfold setStoredThemePreference. case_match; frame. Qed.

Lemma quiet_getStoredThemePreference (st : State) :
  quiet st (snd (getStoredThemePreference st)).
Proof. unfold getStoredThemePreference. case_match; frame. Qed.

Lemma quiet_getCurrentTheme (st : State) : quiet st (snd (getCurrentTheme st)).
Proof.
  unfold getCurrentTheme. pose proof (quiet_getStoredThemePreference st) as H.
  destruct (getStoredThemePreference st) as [v s1]. simpl in H. by case_match.
Qed.

Lemma quiet_themeTransitionEnd (st : State) : quiet st (themeTransitionEnd st).
Proof. frame. Qed.

Lemma quiet_updateButtonLabel (st : State) : quiet st (updateButtonLabel st).
Proof. unfold updateButtonLabel. case_match; frame. Qed.

Lemma quiet_toggleTheme (st : State) : quiet st (snd (toggleTheme st)).
Proof.
  unfold toggleTheme. simpl.
  eapply quiet_trans; [|by apply quiet_setTimeout].
  eapply quiet_trans; [|apply quiet_setStoredThemePreference].
  eapply quiet_trans; [|apply quiet_applyTheme].
  frame.
Qed.

Lemma quiet_onToggleActivate (st : State) : quiet st (onToggleActivate st).
Proof.
  unfold onToggleActivate.
  eapply quiet_trans; [apply quiet_toggleTheme|apply quiet_updateButtonLabel].
Qed.

Lemma quiet_onSystemThemeChange (st : State) : quiet st (onSystemThemeChange st).
Proof.
  unfold onSystemThemeChange. pose proof (quiet_getStoredThemePreference st) as H.
  destruct (getStoredThemePreference st) as [v s1]. simpl in H. case_match; [done|].
  eapply quiet_trans; [done|].
  eapply quiet_trans; [apply quiet_applyTheme|apply quiet_updateButtonLabel].
Qed.

Lemma calm_openMobileModal (imageId : option string) (st : State) :
  calm st (openMobileModal imageId st).
Proof. unfold openMobileModal. repeat case_match; try apply calm_refl; frame. Qed.

Lemma calm_closeMobileModal (st : State) : calm st (closeMobileModal st).
Proof. unfold closeMobileModal. repeat case_match; try apply calm_refl; frame. Qed.

Lemma quiet_updateImageVisibility (imageId : option string) (skip : bool) (st : State) :
  quiet st (updateImageVisibility imageId skip st).
Proof.
  unfold updateImageVisibility. repeat case_match; try apply quiet_refl.
  - frame.
  - eapply quiet_trans; [|by apply quiet_setTimeout]. frame.
Qed.

Lemma quiet_fadeSwap (imageId : string) (st : State) : quiet st (fadeSwap imageId st).
Proof. unfold fadeSwap. repeat case_match; try apply quiet_refl; frame. Qed.

Lemma quiet_startProgressBar (st : State) : quiet st (startProgressBar st).
Proof.
  unfold startProgressBar, requestAnimationFrame. repeat case_match; frame.
Qed.

Lemma quiet_progressRun (st : State) : quiet st (progressRun st).
Proof. unfold progressRun. repeat case_match; try apply quiet_refl; frame. Qed.

Lemma quiet_pauseProgressBar (st : State) : quiet st (pauseProgressBar st).
Proof. unfold pauseProgressBar. repeat case_match; try apply quiet_refl; frame. Qed.

Lemma quiet_selectAt (k : nat) (st : State) : quiet st (selectAt k st).
Proof. unfold selectAt. frame. by rewrite images_alter. Qed.

Lemma quiet_deselect (st : State) :
  quiet st (update_dom (λ d, with_entries (deselectAll (entries d)) d) st).
Proof. frame. by rewrite images_deselectAll. Qed.

Lemma quiet_animationFrame (st : State) : quiet st (animationFrame st).
Proof.
  unfold animationFrame.
  assert (H : ∀ cbs s, quiet s (foldl (λ s cb, runFrame cb s) s cbs)).
  { induction cbs as [|cb cbs IH]; intros s; simpl; [apply quiet_refl|].
    eapply quiet_trans; [|apply IH]. destruct cb. apply quiet_progressRun. }
  eapply quiet_trans; [|apply H]. frame.
Qed.

(** ** Starting, stopping and pausing the carousel *)

Lemma steady_refl (st : State) : steady st st.
Proof. by constructor. Qed.

Lemma steady_trans (s1 s2 s3 : State) : steady s1 s2 → steady s2 s3 → steady s1 s3.
Proof. intros [] []. constructor; try congruence; [tauto|lia]. Qed.

Lemma quiet_steady (st st' : State) : quiet st st' → steady st st'.
Proof. intros [[] ? ?]. by constructor. Qed.

Lemma steady_clearInterval (id : nat) (st : State) : steady st (clearInterval id st).
Proof.
  constructor; try reflexivity.
  apply wfTimers_sublist; [apply clearInterval_timerIds|simpl; lia].
Qed.

Lemma steady_stopCarousel (st : State) : steady st (stopCarousel st).
Proof.
  unfold stopCarousel. destruct (carouselIntervalId st) as [id|]; [|apply steady_refl].
  eapply steady_trans; [apply (steady_clearInterval id)|]. by constructor.
Qed.

Lemma stopCarousel_id (st : State) : carouselIntervalId (stopCarousel st) = None.
Proof. unfold stopCarousel. by case_match. Qed.

Lemma stopCarousel_paused (st : State) :
  carouselPaused (stopCarousel st) = carouselPaused st.
Proof. unfold stopCarousel. by case_match. Qed.

Lemma stopCarousel_dom (st : State) : dom (stopCarousel st) = dom st.
Proof. unfold stopCarousel. by case_match. Qed.

Lemma stopCarousel_sublist (st : State) :
  sublist (carouselIds (stopCarousel st)) (carouselIds st).
Proof.
  unfold stopCarousel. case_match; [|done].
  apply (clearInterval_carouselIds _ st).
Qed.

(** With every carousel timer owned, [stopCarousel] leaves none. *)
Lemma stopCarousel_idle (st : State) :
  owned st → carouselIds (stopCarousel st) = [].
Proof.
  unfold owned, stopCarousel. intros Ho.
  destruct (carouselIntervalId st) as [id|] eqn:Hid.
  - destruct (carouselIds (with_carouselIntervalId None (clearInterval id st)))
      as [|i l] eqn:Hl; [done|exfalso].
    assert (Hi : i ∈ carouselIds (clearInterval id st)).
    { change (carouselIds (clearInterval id st))
        with (carouselIds (with_carouselIntervalId None (clearInterval id st))).
      rewrite Hl. apply list_elem_of_here. }
    pose proof (elem_of_sublist _ _ _ Hi (clearInterval_carouselIds id st)) as Hi'.
    rewrite Forall_forall in Ho. specialize (Ho _ Hi'). injection Ho as ->.
    apply (clearInterval_gone i st).
    by eapply elem_of_sublist; [|apply carouselIds_sublist_timerIds].
  - destruct (carouselIds st) as [|i l]; [done|]. by inversion Ho.
Qed.

Lemma coherent_stopCarousel (st : State) :
  coherent st → coherent (stopCarousel st).
Proof.
  intros (Hwf & Ho & Hi). split_and!.
  - by apply steady_stopCarousel.
  - unfold owned. by rewrite stopCarousel_idle.
  - intros i. by rewrite stopCarousel_id.
Qed.

Lemma halted_stopCarousel (st : State) : halted st → halted (stopCarousel st).
Proof.
  intros [Hp Hi]. split; [by rewrite stopCarousel_paused|].
  pose proof (stopCarousel_sublist st) as Hs. rewrite Hi in Hs.
  by apply sublist_nil_r.
Qed.

Lemma startGuard_false (st : State) :
  startGuard st = false ↔
  isMobile st = false ∧ entries (dom st) ≠ [] ∧
  is_Some (showcase (dom st)) ∧ carouselPaused st = false.
Proof.
  unfold startGuard. rewrite !orb_false_iff, negb_false_iff.
  rewrite bool_decide_eq_false, bool_decide_eq_true.
  destruct (entries (dom st)); simpl; intuition (auto; done).
Qed.

Lemma startCarousel_blocked (st : State) :
  startGuard st = true → startCarousel st = st.
Proof. unfold startCarousel. by intros ->. Qed.

Lemma startCarousel_started (st : State) :
  startGuard st = false →
  startCarousel st =
    with_carouselIntervalId (Some (nextTimerId (readied st)))
      (snd (setInterval CarouselTick CAROUSEL_INTERVAL (readied st))).
Proof. unfold startCarousel. by intros ->. Qed.

Lemma steady_setInterval (cb : Callback) (delay : Z) (st : State) :
  steady st (snd (setInterval cb delay st)).
Proof.
  constructor; try reflexivity; [|simpl; lia].
  intros [Hnd Hf]. unfold wfTimers, timerIds in *. simpl. rewrite fmap_app. simpl. split.
  - apply NoDup_app. split_and!; [done| |apply NoDup_singleton].
    intros i Hi ->%list_elem_of_singleton. rewrite Forall_forall in Hf.
    specialize (Hf _ Hi). simpl in Hf. lia.
  - apply Forall_app. split; [|by repeat constructor; lia].
    eapply Forall_impl; [done|]. simpl. intros; lia.
Qed.

Lemma steady_readied (st : State) : steady st (readied st).
Proof.
  eapply steady_trans; [apply steady_stopCarousel|].
  apply quiet_steady, quiet_startProgressBar.
Qed.

Lemma steady_startCarousel (st : State) : steady st (startCarousel st).
Proof.
  destruct (startGuard st) eqn:Hg.
  - rewrite startCarousel_blocked by done. apply steady_refl.
  - rewrite startCarousel_started by done.
    eapply steady_trans; [apply steady_readied|].
    eapply steady_trans; [apply (steady_setInterval CarouselTick CAROUSEL_INTERVAL)|].
    by constructor.
Qed.

Lemma startCarousel_paused (st : State) :
  carouselPaused (startCarousel st) = carouselPaused st.
Proof.
  destruct (startGuard st) eqn:Hg.
  - by rewrite startCarousel_blocked.
  - rewrite startCarousel_started by done. simpl. unfold readied.
    rewrite (calm_paused _ _ (quiet_calm _ _ (quiet_startProgressBar _))).
    apply stopCarousel_paused.
Qed.

Lemma readied_idle (st : State) : owned st → carouselIds (readied st) = [].
Proof.
  intros Ho. unfold readied.
  pose proof (calm_ids _ _ (quiet_calm _ _ (quiet_startProgressBar (stopCarousel st)))) as Hs.
  rewrite stopCarousel_idle in Hs by done. by apply sublist_nil_r.
Qed.

(** A start that passes the guard leaves exactly the new timer live. *)
Lemma startCarousel_ids (st : State) :
  owned st → startGuard st = false →
  carouselIds (startCarousel st) = [nextTimerId (readied st)]
  ∧ carouselIntervalId (startCarousel st) = Some (nextTimerId (readied st)).
Proof.
  intros Ho Hg. rewrite startCarousel_started by done. split; [|done].
  unfold carouselIds at 1, carouselTimers. simpl.
  rewrite carouselIds_app, readied_idle by done. done.
Qed.

Lemma coherent_startCarousel (st : State) :
  coherent st → coherent (startCarousel st).
Proof.
  intros (Hwf & Ho & Hiss). destruct (startGuard st) eqn:Hg.
  - by rewrite startCarousel_blocked.
  - split_and!; [by apply steady_startCarousel|..];
      destruct (startCarousel_ids st Ho Hg) as [Hi Hc].
    + unfold owned. rewrite Hi, Hc. by repeat constructor.
    + intros i. rewrite Hc. intros [= <-].
      rewrite startCarousel_started by done. simpl. lia.
Qed.

Lemma halted_startCarousel (st : State) : halted st → startCarousel st = st.
Proof.
  intros [Hp _]. apply startCarousel_blocked. unfold startGuard.
  rewrite Hp. by rewrite !orb_true_r.
Qed.

Lemma steady_pauseCarousel (st : State) : steady st (pauseCarousel st).
Proof.
  unfold pauseCarousel.
  eapply steady_trans; [|apply quiet_steady, quiet_pauseProgressBar].
  eapply steady_trans; [|apply steady_stopCarousel]. by constructor.
Qed.

Lemma pauseCarousel_paused (st : State) : carouselPaused (pauseCarousel st) = true.
Proof.
  unfold pauseCarousel.
  rewrite (calm_paused _ _ (quiet_calm _ _ (quiet_pauseProgressBar _))).
  by rewrite stopCarousel_paused.
Qed.

Lemma pauseCarousel_id (st : State) : carouselIntervalId (pauseCarousel st) = None.
Proof.
  unfold pauseCarousel.
  rewrite (calm_id _ _ (quiet_calm _ _ (quiet_pauseProgressBar _))).
  by rewrite stopCarousel_id.
Qed.

Lemma pauseCarousel_sublist (st : State) :
  sublist (carouselIds (pauseCarousel st)) (carouselIds st).
Proof.
  unfold pauseCarousel.
  etrans; [apply (calm_ids _ _ (quiet_calm _ _ (quiet_pauseProgressBar _)))|].
  etrans; [apply stopCarousel_sublist|]. done.
Qed.

Lemma pauseCarousel_idle (st : State) : owned st → carouselIds (pauseCarousel st) = [].
Proof.
  intros Ho. unfold pauseCarousel.
  pose proof (calm_ids _ _ (quiet_calm _ _
    (quiet_pauseProgressBar (stopCarousel (with_carouselPaused true st))))) as Hs.
  rewrite stopCarousel_idle in Hs by done. by apply sublist_nil_r.
Qed.

(** ** What calm and tame changes keep *)

Lemma shape_entries_nil (st st' : State) :
  shape st' = shape st → entries (dom st) ≠ [] → entries (dom st') ≠ [].
Proof.
  unfold shape. intros [= He _] Hne Hnil. rewrite Hnil in He. simpl in He.
  symmetry in He. by apply fmap_nil_inv in He.
Qed.

Lemma shape_showcase (st st' : State) :
  shape st' = shape st → is_Some (showcase (dom st)) → is_Some (showcase (dom st')).
Proof.
  unfold shape. intros [= _ Hs] H.
  eapply bool_decide_eq_true_1. rewrite Hs. by apply bool_decide_eq_true_2.
Qed.

Lemma shape_length (st st' : State) :
  shape st' = shape st → length (entries (dom st')) = length (entries (dom st)).
Proof.
  unfold shape. intros [= He _].
  by rewrite <- (length_fmap (getAttribute "data-image")), He, length_fmap.
Qed.

Lemma sublist_nil_eq {A} (l : list A) : sublist l [] → l = [].
Proof. apply sublist_nil_r. Qed.

Lemma quiet_tame (st st' : State) : quiet st st' → tame st st'.
Proof.
  intros Hq. pose proof (quiet_steady _ _ Hq). destruct Hq as [[] ? ?].
  constructor; auto.
Qed.

Lemma tame_refl (st : State) : tame st st.
Proof. apply quiet_tame, quiet_refl. Qed.

Lemma tame_owned (st st' : State) : tame st st' → owned st → owned st'.
Proof.
  intros [_ _ Hs [Hid|[_ Hnil]]] Ho; unfold owned in *.
  - rewrite Hid. rewrite Forall_forall in *. intros i Hi.
    apply Ho. by eapply elem_of_sublist.
  - by rewrite Hnil.
Qed.

Lemma tame_trans (s1 s2 s3 : State) : tame s1 s2 → tame s2 s3 → tame s1 s3.
Proof.
  intros H12 H23. pose proof (tame_owned _ _ H12) as Ho.
  destruct H12 as [Hs1 Hp1 Hi1 Hc1], H23 as [Hs2 Hp2 Hi2 Hc2].
  constructor.
  - by eapply steady_trans.
  - congruence.
  - by etrans.
  - destruct Hc2 as [Hc2|[Hc2 Hn2]].
    + destruct Hc1 as [Hc1|[Hc1 Hn1]]; [left; congruence|right].
      split; [congruence|]. intros H. apply sublist_nil_eq.
      rewrite <- (Hn1 H). done.
    + right. split; [done|]. intros H. by apply Hn2, Ho.
Qed.

Lemma tame_stopCarousel (st : State) : tame st (stopCarousel st).
Proof.
  constructor.
  - apply steady_stopCarousel.
  - apply stopCarousel_paused.
  - apply stopCarousel_sublist.
  - right. split; [apply stopCarousel_id|apply stopCarousel_idle].
Qed.

Lemma tame_clearInterval (id : nat) (st : State) : tame st (clearInterval id st).
Proof.
  constructor; [apply steady_clearInterval|done|apply clearInterval_carouselIds|by left].
Qed.

Lemma reschedule_timerIds (id : nat) (p : Z) (st : State) :
  timerIds (reschedule id p st) = timerIds st.
Proof.
  unfold timerIds, reschedule. simpl. rewrite <- list_fmap_compose.
  apply list_fmap_ext. intros _ u _. simpl. by destruct (hasId id u).
Qed.

Lemma reschedule_carouselIds (id : nat) (p : Z) (st : State) :
  carouselIds (reschedule id p st) = carouselIds st.
Proof.
  unfold carouselIds, carouselTimers, reschedule. simpl.
  induction (timers st) as [|u ts IH]; [done|]. simpl.
  assert (isCarouselTimer
            (if hasId id u then mkTimer (timerId u) (due u + p) (period u) (callback u) else u)
          = isCarouselTimer u) as -> by (by destruct (hasId id u)).
  destruct (isCarouselTimer u); simpl; [|done].
  f_equal; [by destruct (hasId id u)|done].
Qed.

Lemma quiet_reschedule (id : nat) (p : Z) (st : State) : quiet st (reschedule id p st).
Proof.
  constructor; [constructor|..]; try reflexivity.
  - by rewrite reschedule_carouselIds.
  - unfold wfTimers. by rewrite reschedule_timerIds.
Qed.

Lemma coherent_tame (st st' : State) : tame st st' → coherent st → coherent st'.
Proof.
  intros Ht (Hwf & Ho & Hiss). split_and!.
  - by apply (steady_wf _ _ (tame_steady _ _ Ht)).
  - by eapply tame_owned.
  - intros i Hi. pose proof (steady_next _ _ (tame_steady _ _ Ht)) as Hn.
    destruct (tame_id _ _ Ht) as [Heq|[Heq _]]; rewrite Heq in Hi; [|done].
    specialize (Hiss i Hi). lia.
Qed.

Lemma isMobile_width (st st' : State) :
  innerWidth st' = innerWidth st → isMobile st' = isMobile st.
Proof. unfold isMobile. by intros ->. Qed.

Lemma guarded_tame (st st' : State) : tame st st' → guarded st → guarded st'.
Proof.
  intros [Hs Hp Hi _] Hg Hrun. destruct Hs.
  assert (Hrun0 : carouselRunning st = true).
  { apply carouselRunning_ids. apply carouselRunning_ids in Hrun.
    intros Hnil. rewrite Hnil in Hi. by apply sublist_nil_eq in Hi. }
  destruct (Hg Hrun0) as (? & ? & ? & ?). split_and!.
  - congruence.
  - by rewrite (isMobile_width st st').
  - by eapply shape_entries_nil.
  - by eapply shape_showcase.
Qed.

Lemma halted_tame (st st' : State) : tame st st' → halted st → halted st'.
Proof.
  intros [_ Hp Hi _] [Hpa Hnil]. split; [congruence|].
  rewrite Hnil in Hi. by apply sublist_nil_eq.
Qed.

Lemma Inv_tame (st st' : State) : tame st st' → Inv st → Inv st'.
Proof.
  intros Ht (Hc & Hg & Hm). split_and!.
  - by eapply coherent_tame.
  - by eapply guarded_tame.
  - destruct Ht as [[] _ _ _]. rewrite (isMobile_width st st') by done. congruence.
Qed.

(** A calm change is tame up to the modal and the mobile showcase, which
    the invariant does not read. *)
Lemma coherent_calm (st st' : State) : calm st st' → coherent st → coherent st'.
Proof.
  intros [] (Hwf & Ho & Hiss). split_and!; [auto| |].
  - unfold owned in *.
    rewrite calm_id0. rewrite Forall_forall in *. intros i Hi.
    apply Ho. by eapply elem_of_sublist.
  - intros i. rewrite calm_id0. intros Hi. specialize (Hiss i Hi). lia.
Qed.

Lemma guarded_calm (st st' : State) : calm st st' → guarded st → guarded st'.
Proof.
  intros [] Hg Hrun.
  assert (Hrun0 : carouselRunning st = true).
  { apply carouselRunning_ids. apply carouselRunning_ids in Hrun.
    intros Hnil. rewrite Hnil in calm_ids0. by apply sublist_nil_eq in calm_ids0. }
  destruct (Hg Hrun0) as (? & ? & ? & ?). split_and!.
  - congruence.
  - by rewrite (isMobile_width st st').
  - by eapply shape_entries_nil.
  - by eapply shape_showcase.
Qed.

Lemma halted_calm (st st' : State) : calm st st' → halted st → halted st'.
Proof.
  intros [] [Hpa Hnil]. split; [congruence|].
  rewrite Hnil in calm_ids0. by apply sublist_nil_eq.
Qed.

Lemma Inv_calm (st st' : State) : calm st st' → Inv st → Inv st'.
Proof.
  intros Hc (Hco & Hg & Hm). split_and!.
  - by eapply coherent_calm.
  - by eapply guarded_calm.
  - destruct Hc. rewrite (isMobile_width st st') by done. congruence.
Qed.

(** ** The interval body *)

Lemma carouselTick_stopped (st : State) :
  isMobile st || carouselPaused st = true →
  carouselTick st = Returned (stopCarousel st).
Proof. unfold carouselTick. by intros ->. Qed.

Lemma quiet_carouselTick (st : State) :
  isMobile st || carouselPaused st = false →
  quiet st (outcome_state (carouselTick st)).
Proof.
  intros Hc. unfold carouselTick. rewrite Hc.
  pose proof (quiet_deselect st) as Hd. unfold deselectAll in *.
  destruct (nodeAt _ _) as [[k entry]|]; simpl; [|done].
  eapply quiet_trans; [apply Hd|].
  eapply quiet_trans; [apply (quiet_selectAt k)|].
  eapply quiet_trans; [|apply quiet_startProgressBar].
  case_match; [apply quiet_updateImageVisibility|apply quiet_refl].
Qed.

Lemma tame_carouselTick (st : State) : tame st (outcome_state (carouselTick st)).
Proof.
  destruct (isMobile st || carouselPaused st) eqn:Hc.
  - rewrite carouselTick_stopped by done. apply tame_stopCarousel.
  - by apply quiet_tame, quiet_carouselTick.
Qed.

Lemma tame_runCallback (cb : Callback) (st : State) : tame st (runCallback cb st).
Proof.
  destruct cb; simpl.
  - apply quiet_tame, quiet_fadeSwap.
  - apply quiet_tame, quiet_themeTransitionEnd.
  - apply tame_carouselTick.
Qed.

Lemma tame_fireTimer (id : nat) (st : State) : tame st (fireTimer id st).
Proof.
  unfold fireTimer. destruct (List.find _ _) as [t|]; [|apply tame_refl].
  eapply tame_trans; [|apply tame_runCallback].
  destruct (period t); [apply quiet_tame, quiet_reschedule|apply tame_clearInterval].
Qed.

Lemma tame_fireTimers (ids : list nat) (st : State) :
  tame st (foldl (λ s id, fireTimer id s) st ids).
Proof.
  revert st. induction ids as [|id ids IH]; intros st; simpl; [apply tame_refl|].
  eapply tame_trans; [apply tame_fireTimer|apply IH].
Qed.

Lemma tame_millisecond (st : State) : tame st (millisecond st).
Proof.
  unfold millisecond.
  eapply tame_trans; [|apply tame_fireTimers].
  apply quiet_tame. frame.
Qed.

(** ** Selection *)

Lemma selectEntry_absent (k : nat) (user : bool) (st : State) :
  entries (dom st) !! k = None → selectEntry k user st = st.
Proof. unfold selectEntry. by intros ->. Qed.

Lemma calm_selectEntry_mobile (k : nat) (user : bool) (st : State) :
  isMobile st = true → calm st (selectEntry k user st).
Proof.
  intros Hm. unfold selectEntry. rewrite Hm.
  repeat case_match; try apply calm_refl. apply calm_openMobileModal.
Qed.

(** What [selectEntry] does on desktop before it pauses the carousel. *)
Lemma selectEntry_desktop (k : nat) (st : State) :
  isMobile st = false → is_Some (entries (dom st) !! k) →
  ∃ st3, quiet st st3 ∧ selectEntry k true st = pauseCarousel st3
         ∧ selectEntry k false st = st3.
Proof.
  intros Hm [entry He]. unfold selectEntry. rewrite He, Hm.
  eexists. split; [|split; reflexivity].
  eapply quiet_trans; [apply quiet_deselect|].
  eapply quiet_trans; [apply (quiet_selectAt k)|].
  case_match; [apply quiet_updateImageVisibility|apply quiet_refl].
Qed.

Lemma coherent_with_carouselPaused (b : bool) (st : State) :
  coherent st → coherent (with_carouselPaused b st).
Proof. intros H. exact H. Qed.

Lemma guarded_idle (st : State) : carouselIds st = [] → guarded st.
Proof. intros Hnil Hrun. apply carouselRunning_ids in Hrun. done. Qed.

Lemma Inv_pauseCarousel (st : State) :
  coherent st → wasMobile st = isMobile st → Inv (pauseCarousel st).
Proof.
  intros (Hwf & Ho & _) Hm. pose proof (steady_pauseCarousel st) as Hs.
  pose proof (pauseCarousel_idle st Ho) as Hnil. split_and!.
  - split_and!; [by apply Hs| |].
    + unfold owned. by rewrite Hnil.
    + intros i. by rewrite pauseCarousel_id.
  - by apply guarded_idle.
  - destruct Hs. rewrite (isMobile_width st (pauseCarousel st)) by done. congruence.
Qed.

Lemma guarded_startCarousel (st : State) : guarded st → guarded (startCarousel st).
Proof.
  intros Hg. destruct (startGuard st) eqn:Hgd.
  - by rewrite startCarousel_blocked.
  - intros _. apply startGuard_false in Hgd as (Hm & He & Hs & Hp).
    destruct (steady_startCarousel st). split_and!.
    + by rewrite startCarousel_paused.
    + by rewrite (isMobile_width st (startCarousel st)).
    + by eapply shape_entries_nil.
    + by eapply shape_showcase.
Qed.

Lemma Inv_startCarousel (st : State) : Inv st → Inv (startCarousel st).
Proof.
  intros (Hc & Hg & Hm). split_and!.
  - by apply coherent_startCarousel.
  - by apply guarded_startCarousel.
  - destruct (steady_startCarousel st).
    rewrite (isMobile_width st (startCarousel st)) by done. congruence.
Qed.

Lemma Inv_selectEntry (k : nat) (st : State) : Inv st → Inv (selectEntry k true st).
Proof.
  intros HI. destruct (entries (dom st) !! k) as [entry|] eqn:He.
  - destruct (isMobile st) eqn:Hm.
    + eapply Inv_calm; [by apply calm_selectEntry_mobile|done].
    + destruct (selectEntry_desktop k st Hm) as (st3 & Hq & -> & _); [by eexists|].
      destruct (Inv_calm _ _ (quiet_calm _ _ Hq) HI) as (Hc & _ & Hmode).
      by apply Inv_pauseCarousel.
  - by rewrite selectEntry_absent.
Qed.

Lemma quiet_labelEntries (st : State) :
  quiet st (update_dom (λ d, with_entries
    ((λ e, setAttribute "role" "button" (setAttribute "tabindex" "0" e)) <$> entries d) d) st).
Proof.
  frame. rewrite images_fmap; [done|].
  intros e. unfold getAttribute, setAttribute. simpl. by rewrite !lookup_insert_ne.
Qed.

(** What [setupEntrySelection] does before it starts the carousel. *)
Lemma setupEntrySelection_cases (st : State) :
  setupEntrySelection st = st ∨
  ∃ s2, quiet st s2 ∧
        setupEntrySelection st = if negb (isMobile s2) then startCarousel s2 else s2.
Proof.
  unfold setupEntrySelection. destruct (showcase (dom st)) eqn:Hs; [right|by left].
  eexists. split; [|reflexivity].
  eapply quiet_trans; [apply quiet_labelEntries|].
  repeat case_match; try apply quiet_refl. apply quiet_updateImageVisibility.
Qed.

Lemma Inv_setupEntrySelection (st : State) : Inv st → Inv (setupEntrySelection st).
Proof.
  intros HI. destruct (setupEntrySelection_cases st) as [-> | (s2 & Hq & ->)]; [done|].
  pose proof (Inv_calm _ _ (quiet_calm _ _ Hq) HI).
  case_match; [by apply Inv_startCarousel|done].
Qed.

Lemma steady_setupEntrySelection (st : State) : steady st (setupEntrySelection st).
Proof.
  destruct (setupEntrySelection_cases st) as [-> | (s2 & Hq & ->)]; [apply steady_refl|].
  eapply steady_trans; [by apply quiet_steady|].
  case_match; [apply steady_startCarousel|apply steady_refl].
Qed.

(** ** Resize *)

Lemma calm_carryModalSelection (st : State) :
  calm st (outcome_state (carryModalSelection st)).
Proof.
  unfold carryModalSelection.
  destruct (mobileModal (dom st)) as [modal|]; [|apply calm_refl].
  destruct (classList_contains "active" modal); [|apply calm_refl].
  destruct (truthy _) as [img|]; [|apply calm_closeMobileModal].
  cbv zeta.
  set (s2 := update_dom _ (closeMobileModal st)).
  assert (H2 : calm st s2).
  { eapply calm_trans; [apply calm_closeMobileModal|]. apply quiet_calm, quiet_deselect. }
  destruct (querySelectorImage img (dom s2)) as [|found]; simpl; [exact H2|].
  eapply calm_trans; [exact H2|]. apply quiet_calm.
  set (s3 := match found with Some _ => _ | None => _ end).
  assert (H23 : quiet s2 s3).
  { subst s3. destruct found; [apply quiet_selectAt|apply quiet_refl]. }
  eapply quiet_trans; [exact H23|].
  destruct (showcase (dom s3)); [apply quiet_updateImageVisibility|apply quiet_refl].
Qed.

Lemma calm_seedMobileShowcase (st : State) : calm st (seedMobileShowcase st).
Proof.
  unfold seedMobileShowcase. repeat case_match; try apply calm_refl. frame.
Qed.

(** The block has nothing to do while the modal is closed. *)
Lemma carryModalSelection_idle (st : State) :
  modalOpen st = false → carryModalSelection st = Returned st.
Proof.
  unfold modalOpen, pageModalOpen, carryModalSelection.
  destruct (mobileModal (dom st)) as [modal|]; [|done]. by intros ->.
Qed.

(** It returns when the image the modal shows is a plain token. *)
Lemma carryModalSelection_plain (st : State) :
  plainId (mobileImage st) = true → returned (carryModalSelection st) = true.
Proof.
  unfold carryModalSelection, mobileImage.
  destruct (mobileModal (dom st)) as [modal|]; [|done].
  destruct (classList_contains "active" modal); [|done].
  assert (Hv : ∀ v img, plainId v = true → truthy v = Some img → plainToken img = true).
  { intros [x|] img; simpl; [|done]. destruct (String.eqb x ""); [done|]. by intros ? [= <-]. }
  destruct (mobileShowcase (dom st)) as [ms|]; simpl; [|done]. intros Hp.
  destruct (truthy (getAttribute "data-selected" ms)) as [img|] eqn:Ht; [|done].
  cbv zeta. unfold querySelectorImage. by rewrite (Hv _ _ Hp Ht).
Qed.

Lemma handleResize_up (st : State) :
  wasMobile st = true → isMobile st = false →
  handleResize st =
    match carryModalSelection st with
    | Returned s =>
        Returned (with_wasMobile false (startCarousel (with_carouselPaused false s)))
    | Threw s => Threw s
    end.
Proof.
  intros Hw Hm. unfold handleResize. rewrite Hw, Hm. simpl.
  destruct (carryModalSelection st); [|done]. by rewrite andb_false_r.
Qed.

Lemma handleResize_down (st : State) :
  wasMobile st = false → isMobile st = true →
  handleResize st =
    Returned (with_wasMobile true (seedMobileShowcase (pauseProgressBar (stopCarousel st)))).
Proof. intros Hw Hm. unfold handleResize. rewrite Hw, Hm. simpl. by rewrite Hw. Qed.

Lemma handleResize_same (st : State) :
  wasMobile st = isMobile st → handleResize st = Returned (with_wasMobile (isMobile st) st).
Proof.
  intros Hw. unfold handleResize. rewrite Hw. destruct (isMobile st) eqn:Hm; simpl.
  - rewrite Hw. done.
  - rewrite Hw. simpl. done.
Qed.

(** The handler throws only on the way from mobile to desktop. *)
Lemma handleResize_returned (st : State) :
  returned (handleResize st)
  = negb (wasMobile st && negb (isMobile st)) || returned (carryModalSelection st).
Proof.
  destruct (wasMobile st) eqn:Hw, (isMobile st) eqn:Hm; simpl.
  - by rewrite handleResize_same by congruence.
  - rewrite handleResize_up by done. by destruct (carryModalSelection st).
  - by rewrite handleResize_down.
  - by rewrite handleResize_same by congruence.
Qed.

(** A handler that returns restores the invariant from any state whose live
    carousel timer, if any, was started unpaused on a desktop viewport. *)
Lemma Inv_handleResize (s0 s : State) :
  coherent s0 →
  (carouselRunning s0 = true →
   carouselPaused s0 = false ∧ wasMobile s0 = false ∧
   entries (dom s0) ≠ [] ∧ is_Some (showcase (dom s0))) →
  handleResize s0 = Returned s → Inv s.
Proof.
  intros Hc0 Hg0.
  assert (Hidle : wasMobile s0 = true → carouselIds s0 = []).
  { intros Hw. apply carouselRunning_false.
    destruct (carouselRunning s0) eqn:Hr; [|done].
    destruct (Hg0 eq_refl) as (_ & Hmob & _). congruence. }
  destruct (wasMobile s0) eqn:Hw, (isMobile s0) eqn:Hm0.
  - rewrite handleResize_same by congruence. rewrite Hm0. intros [= <-].
    split_and!; [exact Hc0| |exact (eq_sym Hm0)].
    apply guarded_idle. by apply Hidle.
  - rewrite handleResize_up by done.
    pose proof (calm_carryModalSelection s0) as Hcalm.
    destruct (carryModalSelection s0) as [s1|s1]; [|done]. simpl in Hcalm. intros [= <-].
    set (s := with_carouselPaused false s1).
    assert (Hcs : coherent s) by exact (coherent_calm _ _ Hcalm Hc0).
    assert (Hgs : guarded s).
    { apply guarded_idle. apply sublist_nil_eq.
      rewrite <- (Hidle eq_refl). apply (calm_ids _ _ Hcalm). }
    split_and!.
    + exact (coherent_startCarousel s Hcs).
    + exact (guarded_startCarousel s Hgs).
    + simpl. destruct (steady_startCarousel s).
      change (false = isMobile (startCarousel s)).
      rewrite (isMobile_width s (startCarousel s)) by done.
      change (false = isMobile s1).
      by rewrite (isMobile_width s0 _ (calm_width _ _ Hcalm)).
  - rewrite handleResize_down by done. intros [= <-].
    set (s := seedMobileShowcase (pauseProgressBar (stopCarousel s0))).
    assert (Hcalm : calm (stopCarousel s0) s).
    { eapply calm_trans; [apply quiet_calm, quiet_pauseProgressBar|].
      apply calm_seedMobileShowcase. }
    pose proof (coherent_stopCarousel s0 Hc0) as Hc1.
    assert (Hnil : carouselIds s = []).
    { apply sublist_nil_eq.
      rewrite <- (stopCarousel_idle s0 (proj1 (proj2 Hc0))). apply (calm_ids _ _ Hcalm). }
    split_and!.
    + exact (coherent_calm _ _ Hcalm Hc1).
    + by apply guarded_idle.
    + simpl. change (true = isMobile s).
      rewrite (isMobile_width _ _ (calm_width _ _ Hcalm)).
      by rewrite (isMobile_width _ _ (steady_width _ _ (steady_stopCarousel s0))).
  - rewrite handleResize_same by congruence. rewrite Hm0. intros [= <-].
    split_and!; [exact Hc0| |exact (eq_sym Hm0)].
    intros Hrun. destruct (Hg0 Hrun) as (? & ? & ? & ?). by split_and!.
Qed.

Lemma Inv_resize (w : Z) (st s : State) :
  Inv st → handleResize (with_innerWidth w st) = Returned s → Inv s.
Proof.
  intros (Hc & Hg & Hm). apply Inv_handleResize; [exact Hc|].
  intros Hrun. destruct (Hg Hrun) as (? & ? & ? & ?). split_and!; try done.
  simpl. congruence.
Qed.

(** ** The invariant, as long as no resize handler throws *)

Lemma Inv_step (ev : Event) (st : State) :
  (∀ w, ev = Resize w → returned (handleResize (with_innerWidth w st)) = true) →
  Inv st → Inv (step ev st).
Proof.
  intros Hret HI. destruct ev; simpl.
  - destruct (readyStateLoading st); [|done].
    apply Inv_setupEntrySelection.
    eapply Inv_calm; [apply quiet_calm, quiet_updateButtonLabel|]. exact HI.
  - case_match; [by apply Inv_selectEntry|done].
  - case_match; [|done]. eapply Inv_calm; [apply calm_closeMobileModal|done].
  - case_match; [|done]. eapply Inv_calm; [apply quiet_calm, quiet_onToggleActivate|done].
  - case_match; [|done].
    eapply Inv_calm; [apply quiet_calm, quiet_onSystemThemeChange|]. exact HI.
  - specialize (Hret width eq_refl).
    destruct (handleResize (with_innerWidth width st)) as [s|s] eqn:Hs; [|done].
    by apply (Inv_resize width st).
  - eapply Inv_calm; [apply quiet_calm, quiet_animationFrame|done].
  - eapply Inv_tame; [apply tame_millisecond|done].
Qed.

Lemma quiet_init (st : State) : quiet st (init st).
Proof.
  unfold init. pose proof (quiet_getCurrentTheme st) as H.
  destruct (getCurrentTheme st) as [theme s1]. simpl in H.
  eapply quiet_trans; [done|].
  case_match.
  - apply quiet_applyTheme.
  - eapply quiet_trans; [apply quiet_applyTheme|apply quiet_updateButtonLabel].
Qed.

Lemma Inv_load (page : Dom) (width : Z) (storage : Storage) (media : option bool)
    (loading : bool) :
  Inv (load page width storage media loading).
Proof.
  unfold load.
  assert (H0 : coherent (fresh page width storage media loading)
               ∧ guarded (fresh page width storage media loading)).
  { split; [split_and!|].
    - split; by constructor.
    - by constructor.
    - by intros i.
    - by intros ?. }
  destruct H0 as [Hc Hg].
  set (s1 := init (fresh page width storage media loading)).
  assert (Hc1 : coherent s1) by exact (coherent_calm _ _ (quiet_calm _ _ (quiet_init _)) Hc).
  assert (Hg1 : guarded s1) by exact (guarded_calm _ _ (quiet_calm _ _ (quiet_init _)) Hg).
  assert (H2 : coherent (initEntrySelection s1) ∧ guarded (initEntrySelection s1)).
  { unfold initEntrySelection. case_match; [done|].
    destruct (setupEntrySelection_cases s1) as [->|(s2 & Hq & ->)]; [done|].
    pose proof (coherent_calm _ _ (quiet_calm _ _ Hq) Hc1).
    pose proof (guarded_calm _ _ (quiet_calm _ _ Hq) Hg1).
    case_match; [|done].
    split; [by apply coherent_startCarousel|by apply guarded_startCarousel]. }
  destruct H2 as [Hc2 Hg2]. split_and!; [exact Hc2|exact Hg2|done].
Qed.

(** ** The invariant that every reachable state satisfies *)

Lemma Inv_Sound (st : State) : Inv st → Sound st.
Proof.
  intros (Hc & Hg & Hm). split_and!; [exact Hc| |].
  - intros Hrun. destruct (Hg Hrun) as (? & ? & ? & ?). by split_and!.
  - intros Hmob. congruence.
Qed.

Lemma poised_idle (st : State) : carouselIds st = [] → poised st.
Proof. intros Hnil Hrun. apply carouselRunning_ids in Hrun. done. Qed.

Lemma poised_sublist (st st' : State) :
  sublist (carouselIds st') (carouselIds st) →
  carouselPaused st' = carouselPaused st → shape st' = shape st →
  poised st → poised st'.
Proof.
  intros Hi Hp Hsh Hg Hrun.
  assert (Hrun0 : carouselRunning st = true).
  { apply carouselRunning_ids. apply carouselRunning_ids in Hrun.
    intros Hnil. rewrite Hnil in Hi. by apply sublist_nil_eq in Hi. }
  destruct (Hg Hrun0) as (? & ? & ?). split_and!.
  - congruence.
  - by eapply shape_entries_nil.
  - by eapply shape_showcase.
Qed.

Lemma tracked_frame (st st' : State) :
  innerWidth st' = innerWidth st → wasMobile st' = wasMobile st →
  tracked st → tracked st'.
Proof.
  intros Hw Hm Ht. unfold tracked. rewrite (isMobile_width st st') by done. by rewrite Hm.
Qed.

Lemma Sound_calm (st st' : State) : calm st st' → Sound st → Sound st'.
Proof.
  intros Hc (Hco & Hp & Ht). split_and!.
  - by eapply coherent_calm.
  - destruct Hc. by eapply poised_sublist.
  - destruct Hc. by eapply tracked_frame.
Qed.

Lemma Sound_tame (st st' : State) : tame st st' → Sound st → Sound st'.
Proof.
  intros Hc (Hco & Hp & Ht). split_and!.
  - by eapply coherent_tame.
  - destruct Hc as [[] ? ? _]. by eapply poised_sublist.
  - destruct Hc as [[] _ _ _]. by eapply tracked_frame.
Qed.

Lemma poised_startCarousel (st : State) : poised st → poised (startCarousel st).
Proof.
  intros Hg. destruct (startGuard st) eqn:Hgd.
  - by rewrite startCarousel_blocked.
  - intros _. apply startGuard_false in Hgd as (Hm & He & Hs & Hp).
    destruct (steady_startCarousel st). split_and!.
    + by rewrite startCarousel_paused.
    + by eapply shape_entries_nil.
    + by eapply shape_showcase.
Qed.

Lemma Sound_startCarousel (st : State) : Sound st → Sound (startCarousel st).
Proof.
  intros (Hc & Hg & Hm). split_and!.
  - by apply coherent_startCarousel.
  - by apply poised_startCarousel.
  - destruct (steady_startCarousel st). by eapply tracked_frame.
Qed.

Lemma Sound_pauseCarousel (st : State) :
  coherent st → tracked st → Sound (pauseCarousel st).
Proof.
  intros (Hwf & Ho & _) Hm. pose proof (steady_pauseCarousel st) as Hs.
  pose proof (pauseCarousel_idle st Ho) as Hnil. split_and!.
  - split_and!; [by apply Hs| |].
    + unfold owned. by rewrite Hnil.
    + intros i. by rewrite pauseCarousel_id.
  - by apply poised_idle.
  - destruct Hs. by eapply tracked_frame.
Qed.

Lemma Sound_selectEntry (k : nat) (st : State) : Sound st → Sound (selectEntry k true st).
Proof.
  intros HI. destruct (entries (dom st) !! k) as [entry|] eqn:He.
  - destruct (isMobile st) eqn:Hm.
    + eapply Sound_calm; [by apply calm_selectEntry_mobile|done].
    + destruct (selectEntry_desktop k st Hm) as (st3 & Hq & -> & _); [by eexists|].
      destruct (Sound_calm _ _ (quiet_calm _ _ Hq) HI) as (Hc & _ & Hmode).
      by apply Sound_pauseCarousel.
  - by rewrite selectEntry_absent.
Qed.

Lemma Sound_setupEntrySelection (st : State) : Sound st → Sound (setupEntrySelection st).
Proof.
  intros HI. destruct (setupEntrySelection_cases st) as [-> | (s2 & Hq & ->)]; [done|].
  pose proof (Sound_calm _ _ (quiet_calm _ _ Hq) HI).
  case_match; [by apply Sound_startCarousel|done].
Qed.

(** The resize handler keeps it, whether it returns or throws. *)
Lemma Sound_handleResize (s0 : State) :
  coherent s0 → poised s0 → Sound (outcome_state (handleResize s0)).
Proof.
  intros Hc0 Hp0.
  destruct (wasMobile s0) eqn:Hw, (isMobile s0) eqn:Hm0.
  - rewrite handleResize_same by congruence. rewrite Hm0. simpl.
    split_and!; [exact Hc0|exact Hp0|done].
  - rewrite handleResize_up by done.
    pose proof (calm_carryModalSelection s0) as Hcalm.
    destruct (carryModalSelection s0) as [s1|s1]; simpl in *.
    + set (s := with_carouselPaused false s1).
      assert (Hcs : coherent s) by exact (coherent_calm _ _ Hcalm Hc0).
      assert (Hps : poised s).
      { intros Hrun. split; [done|].
        assert (Hp1 : poised s1).
        { destruct Hcalm. by eapply (poised_sublist s0). }
        by destruct (Hp1 Hrun) as (_ & ? & ?). }
      split_and!.
      * exact (coherent_startCarousel s Hcs).
      * exact (poised_startCarousel s Hps).
      * intros Hmob. exfalso.
        destruct (steady_startCarousel s).
        change (isMobile (startCarousel s) = true) in Hmob.
        rewrite (isMobile_width s (startCarousel s)) in Hmob by done.
        change (isMobile s1 = true) in Hmob.
        rewrite (isMobile_width s0 _ (calm_width _ _ Hcalm)) in Hmob. congruence.
    + split_and!.
      * by eapply coherent_calm.
      * destruct Hcalm. by eapply (poised_sublist s0).
      * intros Hmob. rewrite (isMobile_width s0 _ (calm_width _ _ Hcalm)) in Hmob.
        congruence.
  - rewrite handleResize_down by done. simpl.
    set (s := seedMobileShowcase (pauseProgressBar (stopCarousel s0))).
    assert (Hcalm : calm (stopCarousel s0) s).
    { eapply calm_trans; [apply quiet_calm, quiet_pauseProgressBar|].
      apply calm_seedMobileShowcase. }
    pose proof (coherent_stopCarousel s0 Hc0) as Hc1.
    assert (Hnil : carouselIds s = []).
    { apply sublist_nil_eq.
      rewrite <- (stopCarousel_idle s0 (proj1 (proj2 Hc0))). apply (calm_ids _ _ Hcalm). }
    split_and!.
    + exact (coherent_calm _ _ Hcalm Hc1).
    + by apply poised_idle.
    + done.
  - rewrite handleResize_same by congruence. rewrite Hm0. simpl.
    split_and!; [exact Hc0|exact Hp0|].
    intros Hmob. change (isMobile s0 = true) in Hmob. congruence.
Qed.

Lemma Sound_step (ev : Event) (st : State) : Sound st → Sound (step ev st).
Proof.
  intros HI. destruct ev; simpl.
  - destruct (readyStateLoading st); [|done].
    apply Sound_setupEntrySelection.
    eapply Sound_calm; [apply quiet_calm, quiet_updateButtonLabel|]. exact HI.
  - case_match; [by apply Sound_selectEntry|done].
  - case_match; [|done]. eapply Sound_calm; [apply calm_closeMobileModal|done].
  - case_match; [|done]. eapply Sound_calm; [apply quiet_calm, quiet_onToggleActivate|done].
  - case_match; [|done].
    eapply Sound_calm; [apply quiet_calm, quiet_onSystemThemeChange|]. exact HI.
  - destruct HI as (Hc & Hp & _). by apply Sound_handleResize.
  - eapply Sound_calm; [apply quiet_calm, quiet_animationFrame|done].
  - eapply Sound_tame; [apply tame_millisecond|done].
Qed.

Lemma reachable_Sound (st : State) : reachable st → Sound st.
Proof. induction 1; [apply Inv_Sound, Inv_load|by apply Sound_step]. Qed.

Lemma reachable_coherent (st : State) : reachable st → coherent st.
Proof. intros Hr. by destruct (reachable_Sound st Hr). Qed.

(** ** The shape of the page never changes *)

Lemma shape_handleResize (st : State) :
  shape (outcome_state (handleResize st)) = shape st.
Proof.
  destruct (wasMobile st) eqn:Hw, (isMobile st) eqn:Hm.
  - by rewrite handleResize_same by congruence.
  - rewrite handleResize_up by done.
    pose proof (calm_shape _ _ (calm_carryModalSelection st)) as Hs.
    destruct (carryModalSelection st) as [s|s]; simpl in Hs; [|exact Hs].
    change (shape (startCarousel (with_carouselPaused false s)) = shape st).
    by rewrite (steady_shape _ _ (steady_startCarousel _)).
  - rewrite handleResize_down by done.
    change (shape (seedMobileShowcase (pauseProgressBar (stopCarousel st))) = shape st).
    rewrite (calm_shape _ _ (calm_seedMobileShowcase _)).
    rewrite (calm_shape _ _ (quiet_calm _ _ (quiet_pauseProgressBar _))).
    apply (steady_shape _ _ (steady_stopCarousel _)).
  - by rewrite handleResize_same by congruence.
Qed.

Lemma shape_step (ev : Event) (st : State) : shape (step ev st) = shape st.
Proof.
  destruct ev; simpl.
  - case_match; [|done].
    rewrite (steady_shape _ _ (steady_setupEntrySelection _)). unfold setupToggleButton.
    by rewrite (calm_shape _ _ (quiet_calm _ _ (quiet_updateButtonLabel _))).
  - case_match; [|done]. destruct (entries (dom st) !! k) eqn:He.
    + destruct (isMobile st) eqn:Hm.
      * by apply calm_shape, calm_selectEntry_mobile.
      * destruct (selectEntry_desktop k st Hm) as (st3 & Hq & -> & _); [by eexists|].
        rewrite (steady_shape _ _ (steady_pauseCarousel _)).
        apply (calm_shape _ _ (quiet_calm _ _ Hq)).
    + by rewrite selectEntry_absent.
  - case_match; [|done]. apply calm_shape, calm_closeMobileModal.
  - case_match; [|done]. apply (calm_shape _ _ (quiet_calm _ _ (quiet_onToggleActivate _))).
  - case_match; [|done].
    by rewrite (calm_shape _ _ (quiet_calm _ _ (quiet_onSystemThemeChange _))).
  - apply (shape_handleResize (with_innerWidth width st)).
  - apply (calm_shape _ _ (quiet_calm _ _ (quiet_animationFrame _))).
  - apply (steady_shape _ _ (tame_steady _ _ (tame_millisecond _))).
Qed.

Lemma shape_run (evs : list Event) (st : State) : shape (run evs st) = shape st.
Proof.
  revert st. induction evs as [|ev evs IH]; intros st; [done|].
  simpl. rewrite IH. apply shape_step.
Qed.

Lemma reachable_run (evs : list Event) (st : State) :
  reachable st → reachable (run evs st).
Proof.
  revert st. induction evs as [|ev evs IH]; intros st H; [done|].
  simpl. apply IH. by constructor.
Qed.

(** ** Once halted, halted until the viewport crosses to desktop *)

Lemma halted_pauseCarousel (st : State) :
  carouselIds st = [] → halted (pauseCarousel st).
Proof.
  intros Hnil. split; [apply pauseCarousel_paused|].
  apply sublist_nil_eq. rewrite <- Hnil. apply pauseCarousel_sublist.
Qed.

Lemma halted_selectEntry (k : nat) (st : State) :
  halted st → halted (selectEntry k true st).
Proof.
  intros Hh. destruct (entries (dom st) !! k) as [entry|] eqn:He.
  - destruct (isMobile st) eqn:Hm.
    + eapply halted_calm; [by apply calm_selectEntry_mobile|done].
    + destruct (selectEntry_desktop k st Hm) as (st3 & Hq & -> & _); [by eexists|].
      apply halted_pauseCarousel.
      by destruct (halted_calm _ _ (quiet_calm _ _ Hq) Hh).
  - by rewrite selectEntry_absent.
Qed.

Lemma halted_setupEntrySelection (st : State) :
  halted st → halted (setupEntrySelection st).
Proof.
  intros Hh. destruct (setupEntrySelection_cases st) as [-> | (s2 & Hq & ->)]; [done|].
  pose proof (halted_calm _ _ (quiet_calm _ _ Hq) Hh) as H2.
  case_match; [by rewrite halted_startCarousel|done].
Qed.

Lemma halted_handleResize (st : State) :
  halted st → ¬ (wasMobile st = true ∧ isMobile st = false) →
  halted (outcome_state (handleResize st)).
Proof.
  intros Hh Hno. destruct (wasMobile st) eqn:Hw, (isMobile st) eqn:Hm.
  - rewrite handleResize_same by congruence. exact Hh.
  - exfalso. by apply Hno.
  - rewrite handleResize_down by done.
    cut (halted (seedMobileShowcase (pauseProgressBar (stopCarousel st))));
      [intros H; exact H|].
    eapply halted_calm; [apply calm_seedMobileShowcase|].
    eapply halted_calm; [apply quiet_calm, quiet_pauseProgressBar|].
    by apply halted_stopCarousel.
  - rewrite handleResize_same by congruence. exact Hh.
Qed.

Lemma halted_step (ev : Event) (st : State) :
  halted st → ¬ mobileToDesktop ev st → halted (step ev st).
Proof.
  intros Hh Hno. destruct ev; simpl.
  - case_match; [|done]. apply halted_setupEntrySelection.
    eapply halted_calm; [apply quiet_calm, quiet_updateButtonLabel|]. exact Hh.
  - case_match; [by apply halted_selectEntry|done].
  - case_match; [|done]. eapply halted_calm; [apply calm_closeMobileModal|done].
  - case_match; [|done].
    eapply halted_calm; [apply quiet_calm, quiet_onToggleActivate|done].
  - case_match; [|done].
    eapply halted_calm; [apply quiet_calm, quiet_onSystemThemeChange|]. exact Hh.
  - apply halted_handleResize; [exact Hh|].
    simpl in Hno. intros [Hw Hm]. apply Hno. split; [exact Hw|].
    unfold isMobile in Hm. simpl in Hm. lia.
  - eapply halted_calm; [apply quiet_calm, quiet_animationFrame|done].
  - eapply halted_tame; [apply tame_millisecond|done].
Qed.

Lemma halted_run (evs : list Event) (st : State) :
  halted st → noMobileToDesktop evs st → halted (run evs st).
Proof.
  revert st. induction evs as [|ev evs IH]; intros st Hh Hno; [done|].
  destruct Hno as [Hno Hrest]. simpl. apply IH; [by apply halted_step|done].
Qed.

(** The crossing to desktop, when the handler returns, clears the pause
    flag and starts the carousel. *)
Lemma handleResize_up_restarts (st s' : State) :
  coherent st → wasMobile st = true → isMobile st = false →
  entries (dom st) ≠ [] → is_Some (showcase (dom st)) →
  handleResize st = Returned s' →
  carouselPaused s' = false ∧ carouselRunning s' = true.
Proof.
  intros Hc Hw Hm He Hs. rewrite handleResize_up by done.
  pose proof (calm_carryModalSelection st) as Hcalm.
  destruct (carryModalSelection st) as [s1|s1]; [|done]. simpl in Hcalm. intros [= <-].
  set (s := with_carouselPaused false s1).
  assert (Hgd : startGuard s = false).
  { apply startGuard_false. split_and!.
    - change (isMobile s1 = false).
      by rewrite (isMobile_width _ _ (calm_width _ _ Hcalm)).
    - apply (shape_entries_nil st); [|done]. apply (calm_shape _ _ Hcalm).
    - apply (shape_showcase st); [|done]. apply (calm_shape _ _ Hcalm).
    - done. }
  assert (Ho : owned s) by exact (proj1 (proj2 (coherent_calm _ _ Hcalm Hc))).
  destruct (startCarousel_ids s Ho Hgd) as [Hids _]. split.
  - change (carouselPaused (startCarousel s) = false). by rewrite startCarousel_paused.
  - apply carouselRunning_ids.
    change (carouselIds (startCarousel s) ≠ []). by rewrite Hids.
Qed.

Lemma noDup_owned_length (c : option nat) (l : list nat) :
  NoDup l → Forall (λ i, c = Some i) l → length l ≤ 1.
Proof.
  intros Hnd Hall. destruct l as [|i [|j l]]; simpl; [lia..|exfalso].
  inversion Hall as [|? ? Hi Hall']; subst. inversion Hall' as [|? ? Hj _]; subst.
  assert (i = j) as -> by congruence.
  inversion Hnd as [|? ? Hnotin _]; subst. apply Hnotin. apply list_elem_of_here.
Qed.

Lemma coherent_at_most_one (st : State) :
  coherent st → length (carouselTimers st) ≤ 1.
Proof.
  intros ([Hnd _] & Ho & _).
  rewrite <- (length_fmap timerId). change (length (carouselIds st) ≤ 1).
  eapply noDup_owned_length; [|exact Ho].
  eapply sublist_NoDup; [exact Hnd|apply carouselIds_sublist_timerIds].
Qed.

Lemma nextTimerId_readied (st : State) : nextTimerId (readied st) = nextTimerId st.
Proof.
  unfold readied, startProgressBar, requestAnimationFrame, stopCarousel.
  repeat case_match; reflexivity.
Qed.

(** ** Pages whose image ids are plain tokens *)

Lemma truthy_Some (v : option string) (s : string) : truthy v = Some s → v = Some s.
Proof.
  destruct v as [x|]; simpl; [|done]. by destruct (String.eqb x ""); [|intros [= ->]].
Qed.

Lemma queryEntry_Some (p : Element → bool) (es : list Element) (k : nat) (e : Element) :
  queryEntry p es = Some (k, e) → es !! k = Some e ∧ p e = true.
Proof.
  revert k. induction es as [|x es IH]; intros k; simpl; [done|].
  destruct (p x) eqn:Hp.
  - intros [= <- <-]. done.
  - destruct (queryEntry p es) as [[k' e']|]; simpl; [|done].
    intros [= <- <-]. simpl. by apply IH.
Qed.

Lemma plainPage_frame (st st' : State) :
  shape st' = shape st → mobileShowcase (dom st') = mobileShowcase (dom st) →
  plainPage (dom st) = true → plainPage (dom st') = true.
Proof. unfold plainPage, shape. intros [= -> _] ->. done. Qed.

Lemma plainPage_steady (st st' : State) :
  steady st st' → plainPage (dom st) = true → plainPage (dom st') = true.
Proof. intros []. by apply plainPage_frame. Qed.

Lemma forallb_elem_of {A} (f : A → bool) (l : list A) (x : A) :
  forallb f l = true → x ∈ l → f x = true.
Proof.
  induction l as [|y l IH]; simpl; [by intros _ ?%elem_of_nil|].
  intros [Hy Hl]%andb_true_iff [->|Hx]%elem_of_cons; [done|by apply IH].
Qed.

Lemma plainPage_entry (d : Dom) (k : nat) (e : Element) (img : string) :
  plainPage d = true → entries d !! k = Some e →
  truthy (getAttribute "data-image" e) = Some img → plainToken img = true.
Proof.
  unfold plainPage. intros [Hes _]%andb_true_iff Hk Ht.
  apply truthy_Some in Ht.
  apply (forallb_elem_of plainId _ (Some img) Hes).
  apply list_elem_of_fmap. exists e. split; [done|]. by eapply list_elem_of_lookup_2.
Qed.

(** Writing a plain token to the mobile showcase. *)
Lemma plainPage_show (st : State) (ms : Element) (img : string) :
  plainToken img = true → plainPage (dom st) = true →
  plainPage (dom (update_dom
     (with_mobileShowcase (setAttribute "data-selected" img ms)) st)) = true.
Proof.
  unfold plainPage. intros Hi [Hes _]%andb_true_iff. simpl. rewrite Hes. simpl.
  unfold getAttribute, setAttribute. simpl. by rewrite lookup_insert_eq.
Qed.

Lemma plainPage_openMobileModal (st : State) (img : string) :
  plainToken img = true → plainPage (dom st) = true →
  plainPage (dom (openMobileModal (Some img) st)) = true.
Proof.
  intros Hi Hp. unfold openMobileModal.
  destruct (mobileModal (dom st)) as [modal|]; [|done].
  destruct (mobileShowcase (dom st)) as [ms|] eqn:Hms; [|done].
  destruct (truthy (Some img)) as [x|] eqn:Ht; [|done].
  apply truthy_Some in Ht as [= <-]. by apply (plainPage_show st ms).
Qed.

Lemma plainPage_seedMobileShowcase (st : State) :
  plainPage (dom st) = true → plainPage (dom (seedMobileShowcase st)) = true.
Proof.
  intros Hp. unfold seedMobileShowcase.
  destruct (queryEntry isSelected (entries (dom st))) as [[j e]|] eqn:Hq; [|done].
  destruct (mobileShowcase (dom st)) as [ms|]; [|done].
  destruct (truthy (getAttribute "data-image" e)) as [img|] eqn:Ht; [|done].
  apply plainPage_show; [|done].
  apply queryEntry_Some in Hq as [Hq _]. by eapply plainPage_entry.
Qed.

Lemma plainPage_selectEntry (k : nat) (st : State) :
  plainPage (dom st) = true → plainPage (dom (selectEntry k true st)) = true.
Proof.
  intros Hp. destruct (entries (dom st) !! k) as [e|] eqn:Hk.
  - destruct (isMobile st) eqn:Hm.
    + unfold selectEntry. rewrite Hk, Hm.
      destruct (truthy (getAttribute "data-image" e)) as [img|] eqn:Ht; [|done].
      apply plainPage_openMobileModal; [|done]. by eapply plainPage_entry.
    + destruct (selectEntry_desktop k st Hm) as (st3 & Hq & -> & _); [by eexists|].
      eapply plainPage_steady; [|exact Hp].
      eapply steady_trans; [by apply quiet_steady|apply steady_pauseCarousel].
  - by rewrite selectEntry_absent.
Qed.

Lemma mobileShowcase_closeMobileModal (st : State) :
  mobileShowcase (dom (closeMobileModal st)) = mobileShowcase (dom st).
Proof. unfold closeMobileModal. by case_match. Qed.

Lemma mobileShowcase_carryModalSelection (st : State) :
  mobileShowcase (dom (outcome_state (carryModalSelection st))) = mobileShowcase (dom st).
Proof.
  unfold carryModalSelection.
  destruct (mobileModal (dom st)) as [modal|]; [|done].
  destruct (classList_contains "active" modal); [|done].
  pose proof (mobileShowcase_closeMobileModal st) as Hc.
  destruct (truthy _) as [img|]; [|exact Hc]. cbv zeta.
  set (s2 := update_dom _ (closeMobileModal st)).
  destruct (querySelectorImage img (dom s2)) as [|found]; [exact Hc|]. simpl.
  set (s3 := match found with Some _ => _ | None => _ end).
  assert (H3 : mobileShowcase (dom s3) = mobileShowcase (dom st)).
  { subst s3. by destruct found. }
  destruct (showcase (dom s3)); [|done].
  by rewrite (quiet_mobileShowcase _ _ (quiet_updateImageVisibility _ _ s3)).
Qed.

Lemma plainPage_handleResize (st : State) :
  plainPage (dom st) = true → plainPage (dom (outcome_state (handleResize st))) = true.
Proof.
  intros Hp. destruct (wasMobile st) eqn:Hw, (isMobile st) eqn:Hm.
  - by rewrite handleResize_same by congruence.
  - rewrite handleResize_up by done.
    pose proof (calm_shape _ _ (calm_carryModalSelection st)) as Hs.
    pose proof (mobileShowcase_carryModalSelection st) as Hms.
    destruct (carryModalSelection st) as [s|s]; simpl in *.
    + change (plainPage (dom (startCarousel (with_carouselPaused false s))) = true).
      apply (plainPage_steady _ _ (steady_startCarousel _)).
      by apply (plainPage_frame st).
    + by apply (plainPage_frame st).
  - rewrite handleResize_down by done.
    change (plainPage (dom (seedMobileShowcase (pauseProgressBar (stopCarousel st)))) = true).
    apply plainPage_seedMobileShowcase.
    eapply plainPage_steady; [|exact Hp].
    eapply steady_trans; [apply steady_stopCarousel|].
    apply quiet_steady, quiet_pauseProgressBar.
  - by rewrite handleResize_same by congruence.
Qed.

Lemma plainPage_step (ev : Event) (st : State) :
  plainPage (dom st) = true → plainPage (dom (step ev st)) = true.
Proof.
  intros Hp. destruct ev; simpl.
  - destruct (readyStateLoading st); [|done].
    apply (plainPage_steady _ _ (steady_setupEntrySelection _)). unfold setupToggleButton.
    by apply (plainPage_steady _ _ (quiet_steady _ _ (quiet_updateButtonLabel _))).
  - case_match; [by apply plainPage_selectEntry|done].
  - case_match; [|done]. apply (plainPage_frame st); [|apply mobileShowcase_closeMobileModal|done].
    apply calm_shape, calm_closeMobileModal.
  - case_match; [|done].
    by apply (plainPage_steady _ _ (quiet_steady _ _ (quiet_onToggleActivate _))).
  - case_match; [|done].
    eapply plainPage_steady; [apply quiet_steady, quiet_onSystemThemeChange|]. exact Hp.
  - by apply (plainPage_handleResize (with_innerWidth width st)).
  - by apply (plainPage_steady _ _ (quiet_steady _ _ (quiet_animationFrame _))).
  - by apply (plainPage_steady _ _ (tame_steady _ _ (tame_millisecond _))).
Qed.

Lemma plainPage_load (page : Dom) (width : Z) (storage : Storage) (media : option bool)
    (loading : bool) :
  plainPage page = true → plainPage (dom (load page width storage media loading)) = true.
Proof.
  intros Hp. unfold load.
  set (s1 := init (fresh page width storage media loading)).
  assert (H1 : plainPage (dom s1) = true).
  { by apply (plainPage_steady _ _ (quiet_steady _ _ (quiet_init _))). }
  change (plainPage (dom (initEntrySelection s1)) = true).
  unfold initEntrySelection. case_match; [done|].
  by apply (plainPage_steady _ _ (steady_setupEntrySelection _)).
Qed.

Lemma reachableFrom_plainPage (page : Dom) (st : State) :
  plainPage page = true → reachableFrom page st → plainPage (dom st) = true.
Proof.
  intros Hp. induction 1; [by apply plainPage_load|by apply plainPage_step].
Qed.

(** On such a page no resize handler throws. *)
Lemma plainPage_returned (w : Z) (st : State) :
  plainPage (dom st) = true → returned (handleResize (with_innerWidth w st)) = true.
Proof.
  intros Hp. rewrite handleResize_returned.
  rewrite (carryModalSelection_plain (with_innerWidth w st)); [apply orb_true_r|].
  unfold plainPage in Hp. by apply andb_true_iff in Hp as [_ Hp].
Qed.

Lemma reachableFrom_Inv (page : Dom) (st : State) :
  plainPage page = true → reachableFrom page st → Inv st.
Proof.
  intros Hp. induction 1 as [width storage media loading|ev st Hr IH]; [apply Inv_load|].
  apply Inv_step; [|exact IH].
  intros w _. apply plainPage_returned. by apply (reachableFrom_plainPage page).
Qed.

(** ** One carousel timer *)

(** C7.  At most one carousel interval timer is live: in every reachable
    state; after every call of [startCarousel], whose timer is then a new
    one, any previous one having been cleared; and a tick that finds the
    viewport mobile or the pause flag set advances nothing and clears its
    own timer. *)
Theorem single_carousel_timer (st : State) :
  (reachable st → length (carouselTimers st) ≤ 1)
  ∧ (coherent st →
       length (carouselTimers (startCarousel st)) ≤ 1
       ∧ (startGuard st = false →
            carouselIds (startCarousel st) = [nextTimerId st]
            ∧ nextTimerId st ∉ timerIds st))
  ∧ (coherent st → isMobile st || carouselPaused st = true →
       carouselTick st = Returned (stopCarousel st)
       ∧ dom (stopCarousel st) = dom st
       ∧ carouselTimers (stopCarousel st) = []).
Proof.
  split_and!.
  - intros Hr. apply coherent_at_most_one. by apply reachable_coherent.
  - intros Hc. split; [by apply coherent_at_most_one, coherent_startCarousel|].
    intros Hg. destruct Hc as ([_ Hf] & Ho & _). split.
    + destruct (startCarousel_ids st Ho Hg) as [-> _]. by rewrite nextTimerId_readied.
    + intros Hin. rewrite Forall_forall in Hf. specialize (Hf _ Hin). simpl in Hf. lia.
  - intros (_ & Ho & _) Hc. split_and!.
    + by apply carouselTick_stopped.
    + apply stopCarousel_dom.
    + apply (fmap_nil_inv timerId). by apply stopCarousel_idle.
Qed.

Lemma single_carousel_timer_witness :
  length (carouselTimers desktopFour) ≤ 1
  ∧ carouselIds (startCarousel desktopFour) = [2]
  ∧ carouselTimers (stopCarousel (with_carouselPaused true desktopFour)) = [].
Proof.
  pose proof (reachable_load (samplePage fourEntries) 1024 (StorageItems ∅) (Some true) false)
    as Hr.
  pose proof (reachable_coherent _ Hr) as Hc.
  split_and!.
  - exact (proj1 (single_carousel_timer desktopFour) Hr).
  - destruct (proj1 (proj2 (single_carousel_timer desktopFour)) Hc) as [_ H].
    destruct H as [H _]; [vm_compute; reflexivity|].
    etrans; [exact H|]. vm_compute. reflexivity.
  - apply (proj2 (proj2 (single_carousel_timer (with_carouselPaused true desktopFour)))).
    + exact (coherent_with_carouselPaused true _ Hc).
    + vm_compute. reflexivity.
Defined.

(** ** User selection pauses the carousel for the session *)

(** X29.  After a user-initiated [selectEntry] in Desktop mode no carousel
    timer is live, and along every following sequence of events (timer
    ticks, frames, selections, theme changes, set-up, resizes) none of which
    is a resize to a desktop width that finds [wasMobile] set, none becomes
    live, the pause flag stays set and [startCarousel] does nothing; such a
    resize, when its handler runs to its end, clears the flag and starts the
    carousel.  The handler runs to its end whenever the modal is closed or
    shows an image whose id is a plain token. *)
Theorem user_selection_pauses_for_session (st : State) (k : nat) (evs : list Event) :
  reachable st → entryListeners st = true → isMobile st = false →
  is_Some (entries (dom st) !! k) →
  let st1 := step (EntryActivate k) st in
  let st2 := run evs st1 in
  carouselRunning st1 = false
  ∧ (noMobileToDesktop evs st1 →
       carouselRunning st2 = false ∧ carouselPaused st2 = true
       ∧ startCarousel st2 = st2)
  ∧ (∀ w, wasMobile st2 = true → (768 < w)%Z →
       returned (handleResize (with_innerWidth w st2)) = true →
       carouselPaused (step (Resize w) st2) = false
       ∧ carouselRunning (step (Resize w) st2) = true)
  ∧ (modalOpen st2 = false ∨ plainId (mobileImage st2) = true →
     ∀ w, returned (handleResize (with_innerWidth w st2)) = true).
Proof.
  intros Hr Hl Hm Hk st1 st2.
  assert (Hr1 : reachable st1) by (by constructor).
  assert (Hh1 : halted st1).
  { subst st1. simpl. rewrite Hl.
    destruct (selectEntry_desktop k st Hm Hk) as (st3 & Hq & -> & _).
    destruct (reachable_coherent st Hr) as (_ & Ho & _).
    split; [apply pauseCarousel_paused|].
    apply pauseCarousel_idle. unfold owned in *.
    rewrite (calm_id _ _ (quiet_calm _ _ Hq)).
    rewrite Forall_forall in *. intros i Hi. apply Ho.
    eapply elem_of_sublist; [done|]. apply (calm_ids _ _ (quiet_calm _ _ Hq)). }
  split_and!.
  - apply carouselRunning_false. by destruct Hh1.
  - intros Hno. pose proof (halted_run evs st1 Hh1 Hno) as Hh2. fold st2 in Hh2.
    split_and!; [apply carouselRunning_false|..|by apply halted_startCarousel];
      by destruct Hh2.
  - intros w Hw Hlt Hret.
    assert (Hr2 : reachable st2) by (by apply reachable_run).
    pose proof (reachable_coherent st2 Hr2) as Hc2.
    assert (Hsh : shape st2 = shape st).
    { subst st2. rewrite shape_run. apply shape_step. }
    destruct Hk as [entry Hk]. unfold step.
    destruct (handleResize (with_innerWidth w st2)) as [s'|s'] eqn:Hs'; [|done].
    apply (handleResize_up_restarts (with_innerWidth w st2) s'); [| | | | |exact Hs'].
    + exact Hc2.
    + exact Hw.
    + unfold isMobile. simpl. lia.
    + apply (shape_entries_nil st); [exact Hsh|]. intros Hnil. by rewrite Hnil in Hk.
    + apply (shape_showcase st); [exact Hsh|].
      unfold entryListeners in Hl. apply andb_true_iff in Hl as [_ Hl].
      by apply bool_decide_eq_true_1 in Hl.
  - intros Hfree w. rewrite handleResize_returned. destruct Hfree as [Hclosed|Hplain].
    + rewrite (carryModalSelection_idle (with_innerWidth w st2)) by exact Hclosed.
      apply orb_true_r.
    + rewrite (carryModalSelection_plain (with_innerWidth w st2)) by exact Hplain.
      apply orb_true_r.
Qed.

Lemma user_selection_pauses_for_session_witness :
  let st2 := run [Millisecond; EntryActivate 1; Resize 500]
                 (step (EntryActivate 2) desktopFour) in
  carouselRunning st2 = false ∧ carouselPaused st2 = true
  ∧ carouselRunning (step (Resize 1024) st2) = true.
Proof.
  intros st2.
  destruct (user_selection_pauses_for_session desktopFour 2
              [Millisecond; EntryActivate 1; Resize 500]) as (_ & Hkeep & Hup & _).
  - apply reachable_load.
  - vm_compute. reflexivity.
  - vm_compute. reflexivity.
  - eexists. vm_compute. reflexivity.
  - destruct Hkeep as (H1 & H2 & _).
    + simpl. split_and!; try tauto. intros [_ Hlt]. lia.
    + split_and!; [exact H1|exact H2|].
      apply (Hup 1024%Z); [vm_compute; reflexivity|lia|vm_compute; reflexivity].
Defined.

(** C3.  The claim fails on an image id that is not a plain token.  The
    user selects an entry on desktop, which pauses the carousel, goes to
    mobile and opens the modal on the entry whose [data-image] holds a double
    quote.  The resize back across the breakpoint to desktop throws once the
    modal is closed: the pause flag stays set and no carousel timer is
    started.  [wasMobile] is left set, so that it is the next resize, from a
    desktop width to a desktop width, that clears the flag and starts the
    carousel. *)
Theorem user_pause_quote_id :
  let st1 := step (EntryActivate 1) desktopQuote in
  let st2 := run [Resize 500; EntryActivate 0] st1 in
  let st3 := step (Resize 1024) st2 in
  let st4 := step (Resize 1100) st3 in
  (isMobile desktopQuote = false ∧ carouselRunning desktopQuote = true
   ∧ carouselPaused st1 = true ∧ carouselRunning st1 = false)
  ∧ (isMobile st2 = true ∧ modalOpen st2 = true ∧ mobileImage st2 = Some quoteId)
  ∧ (isMobile st3 = false
     ∧ returned (handleResize (with_innerWidth 1024 st2)) = false
     ∧ carouselPaused st3 = true ∧ carouselRunning st3 = false)
  ∧ (isMobile st4 = false ∧ carouselPaused st4 = false ∧ carouselRunning st4 = true).
Proof.
  intros st1 st2 st3 st4. split_and!; vm_compute; reflexivity.
Qed.

(** ** The tick advances the selection cyclically *)

Lemma contains_add (c : string) (e : Element) :
  classList_contains c (classList_add c e) = true.
Proof.
  unfold classList_contains, classList_add. simpl. apply bool_decide_eq_true_2.
  apply elem_of_union. left. by apply elem_of_singleton.
Qed.

Lemma contains_remove (c : string) (e : Element) :
  classList_contains c (classList_remove c e) = false.
Proof.
  unfold classList_contains, classList_remove. simpl. apply bool_decide_eq_false_2.
  rewrite elem_of_difference. intros [_ H]. apply H. by apply elem_of_singleton.
Qed.

Lemma scanSelected_deselectAll (es : list Element) (index current : Z) :
  scanSelected (deselectAll es) index current = current.
Proof.
  revert index current. induction es as [|e es IH]; intros index current; simpl; [done|].
  by rewrite contains_remove, IH.
Qed.

Lemma scanSelected_none (es : list Element) (index current : Z) :
  Forall (λ e, isSelected e = false) es → scanSelected es index current = current.
Proof.
  intros H. revert index current. induction H as [|e es He _ IH]; intros index current; simpl.
  - done.
  - unfold isSelected in He. by rewrite He, IH.
Qed.

(** After the tick's two loops exactly the entry at [k] is selected, so the
    scan finds [k]. *)
Lemma scanSelected_alter (es : list Element) (k : nat) (index current : Z) :
  k < length es →
  scanSelected (alter (classList_add "selected") k (deselectAll es)) index current
  = (index + Z.of_nat k)%Z.
Proof.
  revert k index current. induction es as [|e es IH]; intros k index current Hk; simpl in *.
  - lia.
  - destruct k as [|k]; simpl.
    + rewrite contains_add, scanSelected_deselectAll. lia.
    + rewrite contains_remove.
      specialize (IH k (index + 1)%Z current ltac:(lia)). unfold alter in IH.
      rewrite IH. lia.
Qed.

Lemma scanSelected_bounds (es : list Element) (index current : Z) :
  (current < index)%Z →
  (current ≤ scanSelected es index current < index + Z.of_nat (length es))%Z.
Proof.
  revert index current. induction es as [|e es IH]; intros index current H; simpl.
  - lia.
  - destruct (classList_contains "selected" e).
    + specialize (IH (index + 1)%Z index). lia.
    + specialize (IH (index + 1)%Z current). lia.
Qed.

Lemma selected_alter (es : list Element) (k j : nat) :
  k < length es →
  match alter (classList_add "selected") k (deselectAll es) !! j with
  | Some e => isSelected e
  | None => false
  end = bool_decide (j = k).
Proof.
  intros Hk. destruct (decide (j = k)) as [->|Hne].
  - rewrite bool_decide_eq_true_2 by done.
    rewrite list_lookup_alter_eq. unfold deselectAll. rewrite list_lookup_fmap.
    destruct (lookup_lt_is_Some_2 es k Hk) as [e ->]. simpl. apply contains_add.
  - rewrite bool_decide_eq_false_2 by done.
    rewrite list_lookup_alter_ne by done. unfold deselectAll. rewrite list_lookup_fmap.
    destruct (es !! j); simpl; [apply contains_remove|done].
Qed.

Lemma entries_updateImageVisibility (imageId : option string) (skip : bool) (st : State) :
  entries (dom (updateImageVisibility imageId skip st)) = entries (dom st).
Proof. unfold updateImageVisibility. by repeat case_match. Qed.

Lemma entries_startProgressBar (st : State) :
  entries (dom (startProgressBar st)) = entries (dom st).
Proof. unfold startProgressBar. by repeat case_match. Qed.

(** The position the tick selects. *)
Lemma carouselTick_advances (st : State) :
  isMobile st = false → carouselPaused st = false → entries (dom st) ≠ [] →
  ∃ st',
    carouselTick st = Returned st'
    ∧ entries (dom st') =
        alter (classList_add "selected")
          (Z.to_nat ((activeIndex st + 1) mod Z.of_nat (length (entries (dom st)))))
          (deselectAll (entries (dom st)))
    ∧ (Z.to_nat ((activeIndex st + 1) mod Z.of_nat (length (entries (dom st))))
       < length (entries (dom st))).
Proof.
  intros Hm Hp He. unfold carouselTick, activeIndex. rewrite Hm, Hp. simpl.
  set (es := entries (dom st)) in *.
  pose proof (scanSelected_bounds es 0 (-1) ltac:(lia)) as Hb.
  set (cur := scanSelected es 0 (-1)) in *.
  assert (HN : (0 < Z.of_nat (length es))%Z) by (destruct es; [done|simpl; lia]).
  unfold js_rem. destruct (Z.eqb_spec (Z.of_nat (length es)) 0) as [?|_]; [lia|].
  rewrite Z.rem_mod_nonneg by lia.
  pose proof (Z.mod_pos_bound (cur + 1) (Z.of_nat (length es)) HN) as Hmod.
  set (z := ((cur + 1) mod Z.of_nat (length es))%Z) in *.
  assert (Hlt : Z.to_nat z < length es) by lia.
  unfold nodeAt. destruct (Z.leb_spec 0 z) as [_|?]; [|lia].
  destruct (lookup_lt_is_Some_2 es _ Hlt) as [entry ->]. simpl.
  eexists. split; [reflexivity|]. split; [|done].
  rewrite entries_startProgressBar.
  destruct (truthy _); [rewrite entries_updateImageVisibility|]; reflexivity.
Qed.

Lemma length_alter_deselect (es : list Element) (k : nat) :
  length (alter (classList_add "selected") k (deselectAll es)) = length es.
Proof. unfold deselectAll. by rewrite length_alter, length_fmap. Qed.

(** One tick from active index [i]. *)
Lemma carouselTick_next (st : State) (i : nat) :
  isMobile st = false → carouselPaused st = false →
  0 < length (entries (dom st)) → activeIndex st = Z.of_nat i →
  let N := length (entries (dom st)) in
  let st' := outcome_state (carouselTick st) in
  (∃ s, carouselTick st = Returned s)
  ∧ isMobile st' = false ∧ carouselPaused st' = false
  ∧ length (entries (dom st')) = N
  ∧ activeIndex st' = Z.of_nat ((i + 1) mod N)
  ∧ (∀ j, selectedAt j st' = bool_decide (j = (i + 1) mod N)).
Proof.
  intros Hm Hp HN Hi N st'.
  assert (He : entries (dom st) ≠ []) by (intros Hnil; rewrite Hnil in HN; simpl in HN; lia).
  destruct (carouselTick_advances st Hm Hp He) as (s & Hs & Hes & Hlt).
  assert (Hq : quiet st st') by (apply quiet_carouselTick; by rewrite Hm, Hp).
  subst st'. rewrite Hs in *. simpl in *.
  rewrite Hi in Hes, Hlt.
  assert (Hk : Z.to_nat ((Z.of_nat i + 1) mod Z.of_nat (length (entries (dom st))))
               = (i + 1) mod N).
  { subst N. rewrite <- (Nat2Z.id ((i + 1) mod _)). f_equal.
    rewrite Nat2Z.inj_mod. f_equal. lia. }
  rewrite Hk in Hes, Hlt. split_and!.
  - by eexists.
  - by rewrite (isMobile_width _ _ (calm_width _ _ (quiet_calm _ _ Hq))).
  - by rewrite (calm_paused _ _ (quiet_calm _ _ Hq)).
  - by rewrite Hes, length_alter_deselect.
  - unfold activeIndex. rewrite Hes, scanSelected_alter by done. lia.
  - intros j. unfold selectedAt. rewrite Hes. by apply selected_alter.
Qed.

Lemma ticks_activeIndex (st : State) (i n : nat) :
  isMobile st = false → carouselPaused st = false →
  0 < length (entries (dom st)) → activeIndex st = Z.of_nat i →
  let N := length (entries (dom st)) in
  isMobile (ticks n st) = false ∧ carouselPaused (ticks n st) = false
  ∧ length (entries (dom (ticks n st))) = N
  ∧ activeIndex (ticks n st) = Z.of_nat ((i + n) mod N).
Proof.
  intros Hm Hp HN Hi N.
  assert (HiN : i < N).
  { pose proof (scanSelected_bounds (entries (dom st)) 0 (-1) ltac:(lia)) as Hb.
    unfold activeIndex in Hi. subst N. lia. }
  induction n as [|n (IHm & IHp & IHl & IHa)].
  - simpl. rewrite Nat.add_0_r, Nat.mod_small by done. by split_and!.
  - change (ticks (S n) st) with (outcome_state (carouselTick (ticks n st))).
    destruct (carouselTick_next (ticks n st) ((i + n) mod N) IHm IHp)
      as (_ & Hm' & Hp' & Hl' & Ha' & _); [lia|done|].
    rewrite IHl in *. split_and!; try done.
    rewrite Ha'. f_equal.
    rewrite Nat.Div0.add_mod_idemp_l. f_equal. lia.
Qed.

(** C2.  With more than one entry, a tick in Desktop unpaused mode moves
    the active entry from index [i] to index [(i + 1) mod N], leaving
    exactly that entry selected, and [N] ticks in a row bring the active
    entry back to [i]. *)
Theorem carousel_tick_cycles (st : State) (i : nat) :
  isMobile st = false → carouselPaused st = false →
  1 < length (entries (dom st)) → i < length (entries (dom st)) →
  activeIndex st = Z.of_nat i →
  let N := length (entries (dom st)) in
  (∃ st', carouselTick st = Returned st')
  ∧ activeIndex (ticks 1 st) = Z.of_nat ((i + 1) mod N)
  ∧ (∀ j, selectedAt j (ticks 1 st) = bool_decide (j = (i + 1) mod N))
  ∧ activeIndex (ticks N st) = Z.of_nat i.
Proof.
  intros Hm Hp HN HiN Hi N.
  destruct (carouselTick_next st i Hm Hp ltac:(lia) Hi) as (Hret & _ & _ & _ & Ha & Hsel).
  split_and!; [done..|].
  destruct (ticks_activeIndex st i N Hm Hp ltac:(lia) Hi) as (_ & _ & _ & HaN).
  rewrite HaN. f_equal. fold N.
  rewrite <- Nat.Div0.add_mod_idemp_r, Nat.Div0.mod_same, Nat.add_0_r.
  by apply Nat.mod_small.
Qed.

Lemma carousel_tick_cycles_witness :
  activeIndex (ticks 1 desktopFour) = 2%Z
  ∧ activeIndex (ticks 3 desktopFour) = 0%Z
  ∧ activeIndex (ticks 4 desktopFour) = 1%Z.
Proof.
  destruct (carousel_tick_cycles desktopFour 1) as (_ & H1 & _ & H4).
  - vm_compute. reflexivity.
  - vm_compute. reflexivity.
  - vm_compute. lia.
  - vm_compute. lia.
  - vm_compute. reflexivity.
  - split_and!.
    + etrans; [exact H1|]. vm_compute. reflexivity.
    + vm_compute. reflexivity.
    + etrans; [exact H4|]. reflexivity.
Defined.

(** C10.  With at least one entry and none selected, a tick in Desktop
    unpaused mode scans to the index [-1], computes the next index [0],
    returns without throwing and leaves exactly the first entry selected. *)
Theorem carousel_tick_without_selection (st : State) :
  isMobile st = false → carouselPaused st = false → entries (dom st) ≠ [] →
  Forall (λ e, isSelected e = false) (entries (dom st)) →
  activeIndex st = (-1)%Z
  ∧ js_rem (activeIndex st + 1) (Z.of_nat (length (entries (dom st)))) = Some 0%Z
  ∧ ∃ st', carouselTick st = Returned st'
           ∧ (∀ j, selectedAt j st' = bool_decide (j = 0))
           ∧ activeIndex st' = 0%Z.
Proof.
  intros Hm Hp He Hnone.
  assert (Ha : activeIndex st = (-1)%Z) by (by apply scanSelected_none).
  assert (HN : 0 < length (entries (dom st))) by (destruct (entries (dom st)); [done|simpl; lia]).
  split_and!; [done| |].
  - rewrite Ha. unfold js_rem.
    destruct (Z.eqb_spec (Z.of_nat (length (entries (dom st)))) 0) as [?|_]; [lia|].
    by rewrite Z.rem_0_l by lia.
  - destruct (carouselTick_advances st Hm Hp He) as (st' & Hs & Hes & Hlt).
    rewrite Ha in Hes, Hlt. simpl in Hes, Hlt.
    rewrite Z.mod_0_l in Hes, Hlt by lia. simpl in Hes, Hlt.
    exists st'. split_and!; [done| |].
    + intros j. unfold selectedAt. rewrite Hes. by apply selected_alter.
    + unfold activeIndex. rewrite Hes, scanSelected_alter by done. lia.
Qed.

Lemma carousel_tick_without_selection_witness :
  let st := load (samplePage [sampleEntry "A" false; sampleEntry "B" false])
                 1024 (StorageItems ∅) None false in
  ∃ st', carouselTick st = Returned st' ∧ selectedAt 0 st' = true ∧ selectedAt 1 st' = false.
Proof.
  intros st.
  destruct (carousel_tick_without_selection st) as (_ & _ & st' & Hret & Hsel & _).
  - vm_compute. reflexivity.
  - vm_compute. reflexivity.
  - vm_compute. discriminate.
  - repeat constructor.
  - exists st'. split_and!; [exact Hret|by rewrite Hsel..].
Defined.

(** ** What the carousel's functions leave on the page *)

Lemma pageKept_refl (st : State) : pageKept st st.
Proof. by constructor. Qed.

Lemma pageKept_trans (s1 s2 s3 : State) : pageKept s1 s2 → pageKept s2 s3 → pageKept s1 s3.
Proof. intros [] []. constructor; congruence. Qed.

Lemma pageKept_stopCarousel (st : State) : pageKept st (stopCarousel st).
Proof. constructor; by rewrite stopCarousel_dom. Qed.

Lemma pageKept_startProgressBar (st : State) : pageKept st (startProgressBar st).
Proof. unfold startProgressBar. repeat case_match; by constructor. Qed.

Lemma pageKept_pauseProgressBar (st : State) : pageKept st (pauseProgressBar st).
Proof. unfold pauseProgressBar. repeat case_match; by constructor. Qed.

Lemma pageKept_startCarousel (st : State) : pageKept st (startCarousel st).
Proof.
  destruct (startGuard st) eqn:Hg.
  - rewrite startCarousel_blocked by done. apply pageKept_refl.
  - rewrite startCarousel_started by done.
    eapply pageKept_trans; [apply pageKept_stopCarousel|].
    eapply pageKept_trans; [apply pageKept_startProgressBar|]. by constructor.
Qed.

Lemma timers_startCarousel (st : State) (t : Timer) :
  t ∈ timers (startCarousel st) → t ∈ timers st ∨ callback t = CarouselTick.
Proof.
  destruct (startGuard st) eqn:Hg.
  - rewrite startCarousel_blocked by done. by left.
  - rewrite startCarousel_started by done. simpl.
    rewrite elem_of_app, list_elem_of_singleton. intros [Hin | ->]; [left|by right].
    assert (Hsub : timers (readied st) ⊆ timers st).
    { unfold readied, startProgressBar, requestAnimationFrame, stopCarousel, clearInterval.
      repeat case_match; simpl; try done;
        intros x Hx; apply list_elem_of_In, List.filter_In in Hx as [Hx _];
        by apply list_elem_of_In. }
    by apply Hsub.
Qed.

(** ** Resize from desktop to mobile *)





Lemma contains_add_ne (c c' : string) (e : Element) :
  c ≠ c' → classList_contains c (classList_add c' e) = classList_contains c e.
Proof.
  intros Hne. unfold classList_contains, classList_add. simpl.
  apply bool_decide_ext. rewrite elem_of_union, elem_of_singleton. tauto.
Qed.




(** ** Resize from mobile to desktop with the modal open *)

Lemma queryEntry_fmap (p : Element → bool) (f : Element → Element) (es : list Element) :
  (∀ e, p (f e) = p e) →
  queryEntry p (f <$> es) = (λ r, (fst r, f (snd r))) <$> queryEntry p es.
Proof.
  intros Hpf. induction es as [|x es IH]; simpl; [done|].
  rewrite Hpf. destruct (p x); [done|].
  change (list_fmap Element Element f es) with (f <$> es).
  rewrite IH. by destruct (queryEntry p es) as [[k e]|].
Qed.

Lemma hasImage_remove (img c : string) (e : Element) :
  hasImage img (classList_remove c e) = hasImage img e.
Proof. done. Qed.

Lemma closeMobileModal_open (st : State) :
  modalOpen st = true →
  modalOpen (closeMobileModal st) = false
  ∧ entries (dom (closeMobileModal st)) = entries (dom st)
  ∧ showcase (dom (closeMobileModal st)) = showcase (dom st)
  ∧ showcaseWrapper (dom (closeMobileModal st)) = showcaseWrapper (dom st)
  ∧ timers (closeMobileModal st) = timers st.
Proof.
  unfold modalOpen, pageModalOpen, closeMobileModal.
  destruct (mobileModal (dom st)) as [modal|]; [|done]. intros _. simpl.
  split_and!; try done. apply contains_remove.
Qed.

Lemma modalOpen_closeMobileModal (st : State) : modalOpen (closeMobileModal st) = false.
Proof.
  unfold modalOpen, pageModalOpen, closeMobileModal.
  destruct (mobileModal (dom st)) as [modal|] eqn:Hm; simpl; [apply contains_remove|].
  by rewrite Hm.
Qed.

Lemma truthy_idem (v : option string) (s : string) :
  truthy v = Some s → truthy (Some s) = Some s.
Proof.
  destruct v as [x|]; simpl; [|done].
  destruct (String.eqb x "") eqn:E; [done|]. intros [= ->]. simpl. by rewrite E.
Qed.

(** What the carry-over block leaves when the modal is open on [img], a
    plain token, and the first entry with that image is the one at [k]. *)
Lemma carryModalSelection_open (st : State) (img : string) (k : nat) (e : Element) :
  modalOpen st = true → truthy (mobileImage st) = Some img → plainToken img = true →
  queryEntry (hasImage img) (entries (dom st)) = Some (k, e) →
  is_Some (showcase (dom st)) →
  ∃ s, carryModalSelection st = Returned s
  ∧ modalOpen s = false
  ∧ entries (dom s) = alter (classList_add "selected") k (deselectAll (entries (dom st)))
  ∧ (is_Some (showcaseWrapper (dom st)) → shownImage s = Some img)
  ∧ showcaseWrapper (dom s) = showcaseWrapper (dom st)
  ∧ timers s = timers st.
Proof.
  intros Hopen Himg Hplain Hq [sc Hsc].
  destruct (closeMobileModal_open st Hopen) as (Hc1 & Hc2 & Hc3 & Hc4 & Hc5).
  set (s1 := closeMobileModal st) in *.
  set (s2 := update_dom (λ d, with_entries (deselectAll (entries d)) d) s1).
  assert (Hq2 : queryEntry (hasImage img) (entries (dom s2))
                = Some (k, classList_remove "selected" e)).
  { subst s2. simpl. rewrite Hc2. unfold deselectAll.
    rewrite queryEntry_fmap by (intros; apply hasImage_remove). by rewrite Hq. }
  set (s3 := selectAt k s2).
  assert (Hs3 : showcase (dom s3) = Some sc) by (subst s3 s2; simpl; congruence).
  exists (updateImageVisibility (Some img) true s3). split.
  { unfold carryModalSelection. unfold modalOpen, pageModalOpen in Hopen.
    destruct (mobileModal (dom st)) as [modal|]; [|done]. rewrite Hopen.
    unfold mobileImage in Himg.
    assert (Himg' : truthy match mobileShowcase (dom st) with
                           | Some ms => getAttribute "data-selected" ms
                           | None => None
                           end = Some img) by (by destruct (mobileShowcase (dom st))).
    rewrite Himg'. cbv zeta. fold s1. fold s2.
    unfold querySelectorImage. rewrite Hplain, Hq2.
    change (fst <$> Some (k, classList_remove "selected" e)) with (Some k).
    cbv beta iota. fold s3. by rewrite Hs3. }
  assert (He3 : entries (dom s3)
                = alter (classList_add "selected") k (deselectAll (entries (dom st)))).
  { subst s3 s2. simpl. by rewrite Hc2. }
  assert (Hw3 : showcaseWrapper (dom s3) = showcaseWrapper (dom st)).
  { subst s3 s2. simpl. congruence. }
  assert (Hm3 : modalOpen s3 = false) by exact Hc1.
  assert (Ht3 : timers s3 = timers st) by exact Hc5.
  assert (Hne : truthy (Some img) = Some img) by exact (truthy_idem _ _ Himg).
  unfold updateImageVisibility. rewrite Hs3, Hne.
  destruct (showcaseWrapper (dom s3)) as [wr|] eqn:Hwr.
  - split_and!; try done.
    intros _. unfold shownImage. simpl. unfold getAttribute, setAttribute. simpl.
    by rewrite lookup_insert_eq.
  - split_and!; try done. intros [x Hx]. congruence.
Qed.

Lemma handleResize_carries_modal (st : State) (img : string) (k : nat) (e : Element) :
  coherent st → wasMobile st = true → isMobile st = false →
  modalOpen st = true → truthy (mobileImage st) = Some img → plainToken img = true →
  queryEntry (hasImage img) (entries (dom st)) = Some (k, e) →
  is_Some (showcase (dom st)) →
  let st' := outcome_state (handleResize st) in
  returned (handleResize st) = true
  ∧ modalOpen st' = false
  ∧ (∀ j, selectedAt j st' = bool_decide (j = k))
  ∧ (is_Some (showcaseWrapper (dom st)) → shownImage st' = Some img)
  ∧ fading st' = fading st
  ∧ (∀ t, t ∈ timers st' → t ∈ timers st ∨ callback t = CarouselTick)
  ∧ carouselPaused st' = false
  ∧ carouselRunning st' = true.
Proof.
  intros Hc Hw Hm Hopen Himg Hplain Hq Hsc st'.
  destruct (queryEntry_Some _ _ _ _ Hq) as [Hk _].
  assert (He : entries (dom st) ≠ []) by (intros Hnil; by rewrite Hnil in Hk).
  destruct (carryModalSelection_open st img k e Hopen Himg Hplain Hq Hsc)
    as (s1 & Hcarry & Hmo & Hes & Hshown & Hwr & Hts).
  set (s := with_carouselPaused false s1).
  assert (Hst' : handleResize st = Returned (with_wasMobile false (startCarousel s))).
  { rewrite handleResize_up by done. by rewrite Hcarry. }
  destruct (handleResize_up_restarts st _ Hc Hw Hm He Hsc Hst') as [Hp Hrun].
  subst st'. rewrite Hst'. cbn [outcome_state returned].
  destruct (pageKept_startCarousel s) as [Ke Ks Kw Km _].
  split_and!; [done| | | | | |exact Hp|exact Hrun].
  - unfold modalOpen, pageModalOpen in *.
    change (mobileModal (dom (with_wasMobile false (startCarousel s))))
      with (mobileModal (dom (startCarousel s))). by rewrite Km.
  - intros j. unfold selectedAt.
    change (entries (dom (with_wasMobile false (startCarousel s))))
      with (entries (dom (startCarousel s))).
    rewrite Ke. change (entries (dom s)) with (entries (dom s1)).
    rewrite Hes. apply selected_alter. by apply lookup_lt_Some in Hk.
  - intros Hwrap. unfold shownImage in *.
    change (showcase (dom (with_wasMobile false (startCarousel s))))
      with (showcase (dom (startCarousel s))). rewrite Ks. by apply Hshown.
  - unfold fading.
    change (showcaseWrapper (dom (with_wasMobile false (startCarousel s))))
      with (showcaseWrapper (dom (startCarousel s))). rewrite Kw.
    change (showcaseWrapper (dom s)) with (showcaseWrapper (dom s1)).
    by rewrite Hwr.
  - intros t Ht. apply timers_startCarousel in Ht as [Ht|Ht]; [left|by right].
    change (timers s) with (timers s1) in Ht. by rewrite Hts in Ht.
Qed.

(** What it leaves when the look-up throws: the modal closed, no entry
    selected, and nothing else touched. *)
Lemma carryModalSelection_throws (st : State) (img : string) :
  modalOpen st = true → truthy (mobileImage st) = Some img →
  querySelectorImage img (with_entries (deselectAll (entries (dom st))) (dom st))
    = LookupThrows →
  carryModalSelection st
  = Threw (update_dom (λ d, with_entries (deselectAll (entries d)) d) (closeMobileModal st)).
Proof.
  intros Hopen Himg Hthrow. unfold carryModalSelection.
  unfold modalOpen, pageModalOpen in Hopen.
  destruct (mobileModal (dom st)) as [modal|] eqn:Hmod; [|done]. rewrite Hopen.
  unfold mobileImage in Himg.
  assert (Himg' : truthy match mobileShowcase (dom st) with
                         | Some ms => getAttribute "data-selected" ms
                         | None => None
                         end = Some img) by (by destruct (mobileShowcase (dom st))).
  rewrite Himg'. cbv zeta.
  assert (Hl : querySelectorImage img
                 (dom (update_dom (λ d, with_entries (deselectAll (entries d)) d)
                         (closeMobileModal st))) = LookupThrows).
  { rewrite <- Hthrow. unfold querySelectorImage, closeMobileModal. by rewrite Hmod. }
  by rewrite Hl.
Qed.

(** ** The open modal always shows the image of an entry *)

Lemma queryEntry_images (img : string) (es : list Element) :
  is_Some (queryEntry (hasImage img) es) ↔ Some img ∈ (getAttribute "data-image" <$> es).
Proof.
  induction es as [|e es IH]; simpl.
  - split; [by intros [? ?]|by intros ?%elem_of_nil].
  - rewrite elem_of_cons, <- IH. unfold hasImage at 1.
    destruct (bool_decide_reflect (getAttribute "data-image" e = Some img)) as [Heq|Hne].
    + split; [by left|by eexists].
    + destruct (queryEntry (hasImage img) es) as [[k x]|]; simpl.
      * split; [right|]; by eexists.
      * split; [by intros [? ?]|]. intros [Heq|[? ?]]; [by symmetry in Heq|done].
Qed.

Lemma modalBacked_steady (st st' : State) :
  steady st st' → modalBacked st → modalBacked st'.
Proof.
  intros [_ _ Hl Hsh Hmo Hms _] Hb Hopen.
  unfold modalBacked, modalOpen, pageModalOpen, entryListeners, mobileImage in *.
  rewrite Hmo, Hl, Hms in *. unfold shape in Hsh. injection Hsh as Himgs Hshow.
  rewrite Hshow. destruct (Hb Hopen) as (Hlis & img & Hi & Hq).
  split; [done|]. exists img. split; [done|].
  apply queryEntry_images. rewrite Himgs. by apply queryEntry_images.
Qed.

Lemma modalBacked_closed (st : State) : modalOpen st = false → modalBacked st.
Proof. intros H Hopen. congruence. Qed.

Lemma modalOpen_steady (st st' : State) : steady st st' → modalOpen st' = modalOpen st.
Proof. intros []. unfold modalOpen, pageModalOpen. by rewrite steady_modal0. Qed.

Lemma modalOpen_carryModalSelection (st : State) :
  modalOpen (outcome_state (carryModalSelection st)) = false.
Proof.
  unfold carryModalSelection.
  destruct (mobileModal (dom st)) as [modal|] eqn:Hm;
    [|by unfold modalOpen, pageModalOpen; simpl; rewrite Hm].
  destruct (classList_contains "active" modal) eqn:Ha;
    [|by unfold modalOpen, pageModalOpen; simpl; rewrite Hm].
  pose proof (modalOpen_closeMobileModal st) as Hc.
  destruct (truthy _) as [img|]; [|done]. cbv zeta.
  set (s2 := update_dom _ (closeMobileModal st)).
  destruct (querySelectorImage img (dom s2)) as [|found]; [done|]. simpl.
  set (s3 := match found with Some _ => _ | None => _ end).
  assert (H3 : modalOpen s3 = false).
  { subst s3. by destruct found. }
  destruct (showcase (dom s3)); [|done].
  by rewrite (modalOpen_steady _ _ (quiet_steady _ _ (quiet_updateImageVisibility _ _ s3))).
Qed.

Lemma modalBacked_seedMobileShowcase (st : State) :
  modalBacked st → modalBacked (seedMobileShowcase st).
Proof.
  intros Hb. unfold seedMobileShowcase.
  destruct (queryEntry isSelected (entries (dom st))) as [[j e]|] eqn:Hq; [|done].
  destruct (mobileShowcase (dom st)) as [ms|] eqn:Hms; [|done].
  destruct (truthy (getAttribute "data-image" e)) as [img|] eqn:Ht; [|done].
  intros Hopen. destruct (Hb Hopen) as (Hl & _). split; [exact Hl|].
  exists img. split.
  - unfold mobileImage. simpl. unfold getAttribute at 1, setAttribute. simpl.
    rewrite lookup_insert_eq. by eapply truthy_idem.
  - apply queryEntry_images. simpl. apply list_elem_of_fmap.
    exists e. split; [symmetry; by apply truthy_Some|].
    apply queryEntry_Some in Hq as [Hq _]. by eapply list_elem_of_lookup_2.
Qed.

Lemma modalBacked_openMobileModal (st : State) (k : nat) (e : Element) (img : string) :
  entryListeners st = true → entries (dom st) !! k = Some e →
  truthy (getAttribute "data-image" e) = Some img →
  modalBacked st → modalBacked (openMobileModal (Some img) st).
Proof.
  intros Hl Hk Ht Hb. unfold openMobileModal.
  destruct (mobileModal (dom st)) as [modal|] eqn:Hm; [|done].
  destruct (mobileShowcase (dom st)) as [ms|] eqn:Hms; [|done].
  rewrite (truthy_idem _ _ Ht). intros _. split; [exact Hl|].
  exists img. split.
  - unfold mobileImage. simpl. unfold getAttribute at 1, setAttribute. simpl.
    rewrite lookup_insert_eq. by eapply truthy_idem.
  - apply queryEntry_images. simpl. apply list_elem_of_fmap.
    exists e. split; [symmetry; by apply truthy_Some|].
    by eapply list_elem_of_lookup_2.
Qed.

Lemma modalBacked_selectEntry (k : nat) (st : State) :
  entryListeners st = true → modalBacked st → modalBacked (selectEntry k true st).
Proof.
  intros Hl Hb. destruct (entries (dom st) !! k) as [e|] eqn:Hk.
  - destruct (isMobile st) eqn:Hm.
    + unfold selectEntry. rewrite Hk, Hm.
      destruct (truthy (getAttribute "data-image" e)) as [img|] eqn:Ht; [|done].
      by eapply modalBacked_openMobileModal.
    + destruct (selectEntry_desktop k st Hm) as (st3 & Hq & -> & _); [by eexists|].
      eapply modalBacked_steady; [|exact Hb].
      eapply steady_trans; [by apply quiet_steady|apply steady_pauseCarousel].
  - by rewrite selectEntry_absent.
Qed.

Lemma modalBacked_handleResize (st : State) :
  modalBacked st → modalBacked (outcome_state (handleResize st)).
Proof.
  intros Hb. destruct (wasMobile st) eqn:Hw, (isMobile st) eqn:Hm.
  - rewrite handleResize_same by congruence. exact Hb.
  - rewrite handleResize_up by done. apply modalBacked_closed.
    pose proof (modalOpen_carryModalSelection st) as Hclosed.
    destruct (carryModalSelection st) as [s|s]; simpl in Hclosed; [|exact Hclosed].
    change (modalOpen (startCarousel (with_carouselPaused false s)) = false).
    by rewrite (modalOpen_steady _ _ (steady_startCarousel _)).
  - rewrite handleResize_down by done.
    cut (modalBacked (seedMobileShowcase (pauseProgressBar (stopCarousel st))));
      [intros H; exact H|].
    apply modalBacked_seedMobileShowcase.
    eapply modalBacked_steady; [|exact Hb].
    eapply steady_trans; [apply steady_stopCarousel|].
    apply quiet_steady, quiet_pauseProgressBar.
  - rewrite handleResize_same by congruence. exact Hb.
Qed.

Lemma modalBacked_step (ev : Event) (st : State) :
  modalBacked st → modalBacked (step ev st).
Proof.
  intros Hb. destruct ev; simpl.
  - destruct (readyStateLoading st) eqn:Hl; [|done].
    apply modalBacked_closed.
    rewrite (modalOpen_steady _ _ (steady_setupEntrySelection _)). unfold setupToggleButton.
    rewrite (modalOpen_steady _ _ (quiet_steady _ _ (quiet_updateButtonLabel _))).
    change (modalOpen st = false). destruct (modalOpen st) eqn:Ho; [|done].
    destruct (Hb Ho) as [Hlis _]. unfold entryListeners in Hlis. by rewrite Hl in Hlis.
  - destruct (entryListeners st) eqn:Hl; [by apply modalBacked_selectEntry|done].
  - case_match; [|done]. apply modalBacked_closed, modalOpen_closeMobileModal.
  - case_match; [|done].
    eapply modalBacked_steady; [apply quiet_steady, quiet_onToggleActivate|done].
  - case_match; [|done].
    eapply modalBacked_steady; [apply quiet_steady, quiet_onSystemThemeChange|]. exact Hb.
  - apply (modalBacked_handleResize (with_innerWidth width st)). exact Hb.
  - eapply modalBacked_steady; [apply quiet_steady, quiet_animationFrame|done].
  - eapply modalBacked_steady; [apply (tame_steady _ _ (tame_millisecond _))|done].
Qed.

Lemma modalOpen_load (page : Dom) (width : Z) (storage : Storage) (media : option bool)
    (loading : bool) :
  modalOpen (load page width storage media loading) = pageModalOpen page.
Proof.
  unfold load.
  set (s1 := init (fresh page width storage media loading)).
  change (modalOpen (initEntrySelection s1) = modalOpen (fresh page width storage media loading)).
  assert (H1 : modalOpen s1 = modalOpen (fresh page width storage media loading))
    by apply modalOpen_steady, quiet_steady, quiet_init.
  rewrite <- H1. unfold initEntrySelection. case_match; [done|].
  apply modalOpen_steady, steady_setupEntrySelection.
Qed.

Lemma reachableFrom_reachable (page : Dom) (st : State) :
  reachableFrom page st → reachable st.
Proof. induction 1; by constructor. Qed.

Lemma reachableFrom_modalBacked (page : Dom) (st : State) :
  pageModalOpen page = false → reachableFrom page st → modalBacked st.
Proof.
  intros Hclosed. induction 1 as [width storage media loading|ev st _ IH].
  - apply modalBacked_closed. by rewrite modalOpen_load.
  - by apply modalBacked_step.
Qed.

(** ** The invariant of a page whose markup has the modal closed *)

Lemma stale_frame (st st' : State) :
  innerWidth st' = innerWidth st → wasMobile st' = wasMobile st →
  readyStateLoading st' = readyStateLoading st →
  sublist (carouselIds st') (carouselIds st) →
  stale st → stale st'.
Proof.
  intros Hw Hm Hl Hi (H1 & H2 & H3 & H4). split_and!.
  - congruence.
  - by rewrite (isMobile_width st st').
  - rewrite H3 in Hi. by apply sublist_nil_eq.
  - congruence.
Qed.

Lemma settled_calm (st st' : State) : calm st st' → settled st → settled st'.
Proof.
  intros Hc [HI|[Hco Hs]]; [left; by eapply Inv_calm|right].
  split; [by eapply coherent_calm|]. destruct Hc. by eapply stale_frame.
Qed.

Lemma settled_tame (st st' : State) : tame st st' → settled st → settled st'.
Proof.
  intros Hc [HI|[Hco Hs]]; [left; by eapply Inv_tame|right].
  split; [by eapply coherent_tame|]. destruct Hc as [[] _ ? _]. by eapply stale_frame.
Qed.

Lemma settled_selectEntry (k : nat) (st : State) :
  settled st → settled (selectEntry k true st).
Proof.
  intros [HI|[Hco Hs]]; [left; by apply Inv_selectEntry|right].
  destruct (entries (dom st) !! k) as [entry|] eqn:He; [|by rewrite selectEntry_absent].
  pose proof Hs as (_ & Hm & _).
  destruct (selectEntry_desktop k st Hm) as (st3 & Hq & -> & _); [by eexists|].
  pose proof (coherent_calm _ _ (quiet_calm _ _ Hq) Hco) as Hc3.
  assert (Hs3 : stale st3).
  { destruct (quiet_calm _ _ Hq). by eapply stale_frame. }
  split.
  - apply Sound_pauseCarousel; [exact Hc3|]. intros _. by destruct Hs3.
  - destruct (steady_pauseCarousel st3). eapply stale_frame; [done..| |exact Hs3].
    rewrite (pauseCarousel_idle st3 (proj1 (proj2 Hc3))). apply sublist_nil_l.
Qed.

(** The resize handler: it returns and restores the invariant of the
    handlers that return, or it throws, with the modal open, on the way from
    mobile to desktop. *)
Lemma settled_handleResize (s0 : State) :
  (modalOpen s0 = true → readyStateLoading s0 = false) →
  coherent s0 →
  (carouselRunning s0 = true →
   carouselPaused s0 = false ∧ wasMobile s0 = false ∧
   entries (dom s0) ≠ [] ∧ is_Some (showcase (dom s0))) →
  settled (outcome_state (handleResize s0)).
Proof.
  intros Hload Hc0 Hg0.
  destruct (handleResize s0) as [s|s] eqn:E; simpl.
  { left. by apply (Inv_handleResize s0 s). }
  right.
  assert (Hup : wasMobile s0 = true ∧ isMobile s0 = false).
  { destruct (wasMobile s0) eqn:Hw, (isMobile s0) eqn:Hm; [| done | |].
    - by rewrite handleResize_same in E by congruence.
    - by rewrite handleResize_down in E.
    - by rewrite handleResize_same in E by congruence. }
  destruct Hup as [Hw Hm]. rewrite handleResize_up in E by done.
  pose proof (calm_carryModalSelection s0) as Hcalm.
  destruct (carryModalSelection s0) as [s1|s1] eqn:Ec; [done|].
  injection E as ->. simpl in Hcalm.
  assert (Hopen : modalOpen s0 = true).
  { destruct (modalOpen s0) eqn:Ho; [done|].
    by rewrite carryModalSelection_idle in Ec. }
  assert (Hnil : carouselIds s0 = []).
  { apply carouselRunning_false. destruct (carouselRunning s0) eqn:Hr; [|done].
    destruct (Hg0 eq_refl) as (_ & Hmob & _). congruence. }
  split; [by eapply coherent_calm|].
  destruct Hcalm. eapply (stale_frame s0); [done..|]. by split_and!; [| | |apply Hload].
Qed.

Lemma settled_step (ev : Event) (st : State) :
  modalBacked st → settled st → settled (step ev st).
Proof.
  intros Hb Hs. destruct ev.
  6: { unfold step. apply settled_handleResize.
       - intros Ho. destruct (Hb Ho) as [Hl _]. unfold entryListeners in Hl.
         apply andb_true_iff in Hl as [Hl _]. by apply negb_true_iff in Hl.
       - destruct Hs as [(Hc & _)|[Hc _]]; exact Hc.
       - intros Hrun. destruct Hs as [(_ & Hg & Hm)|(_ & _ & _ & Hnil & _)].
         + destruct (Hg Hrun) as (? & ? & ? & ?). split_and!; try done.
           simpl. congruence.
         + by apply carouselRunning_ids in Hrun. }
  all: destruct Hs as [HI|[Hco Hs]]; [left; by apply Inv_step|]; simpl.
  - destruct Hs as (? & ? & ? & Hl). rewrite Hl. right. by split_and!.
  - case_match; [apply settled_selectEntry|]; by right.
  - case_match; [|by right].
    eapply settled_calm; [apply calm_closeMobileModal|by right].
  - case_match; [|by right].
    eapply settled_calm; [apply quiet_calm, quiet_onToggleActivate|by right].
  - case_match; [|by right].
    eapply settled_calm; [apply quiet_calm, quiet_onSystemThemeChange|]. by right.
  - eapply settled_calm; [apply quiet_calm, quiet_animationFrame|by right].
  - eapply settled_tame; [apply tame_millisecond|by right].
Qed.

Lemma reachableFrom_settled (page : Dom) (st : State) :
  pageModalOpen page = false → reachableFrom page st → settled st.
Proof.
  intros Hp. induction 1 as [width storage media loading|ev st Hr IH].
  - left. apply Inv_load.
  - apply settled_step; [|exact IH]. by apply (reachableFrom_modalBacked page).
Qed.

(** ** When the carousel runs *)

(** C1, as amended.  In every state reached from a page whose markup has
    the modal closed, or whose image ids are plain tokens, a live carousel
    timer implies Desktop mode, a clear pause flag and at least one
    selectable entry; a call of [startCarousel] in Mobile mode, with the
    pause flag set, or with no entry at all starts no timer and changes
    nothing. *)
Theorem carousel_runs_only_when_allowed (page : Dom) (st : State) :
  (pageModalOpen page = false ∨ plainPage page = true →
   reachableFrom page st → carouselRunning st = true →
     isMobile st = false ∧ carouselPaused st = false ∧ 0 < length (entries (dom st)))
  ∧ (isMobile st = true ∨ carouselPaused st = true ∨ length (entries (dom st)) = 0 →
     startCarousel st = st).
Proof.
  split.
  - intros Hp Hr Hrun.
    assert (Hg : guarded st).
    { destruct Hp as [Hp|Hp]; [|by destruct (reachableFrom_Inv page st Hp Hr) as (_ & ? & _)].
      destruct (reachableFrom_settled page st Hp Hr) as [(_ & Hg & _)|(_ & _ & _ & Hnil & _)];
        [done|].
      by apply carouselRunning_ids in Hrun. }
    destruct (Hg Hrun) as (Hpa & Hm & He & _). split_and!; [done..|].
    destruct (entries (dom st)); [done|simpl; lia].
  - intros H. apply startCarousel_blocked. unfold startGuard.
    destruct H as [-> | [-> | ->]]; simpl; by rewrite ?orb_true_r.
Qed.

Lemma carousel_runs_only_when_allowed_witness :
  (isMobile desktopFour = false ∧ carouselPaused desktopFour = false
   ∧ 0 < length (entries (dom desktopFour)))
  ∧ startCarousel mobileFour = mobileFour.
Proof.
  split.
  - apply (proj1 (carousel_runs_only_when_allowed (samplePage fourEntries) desktopFour)).
    + left. vm_compute. reflexivity.
    + apply reachableFrom_load.
    + vm_compute. reflexivity.
  - apply (proj2 (carousel_runs_only_when_allowed (samplePage fourEntries) mobileFour)).
    left. vm_compute. reflexivity.
Defined.

(** C1 as stated fails: with exactly one selectable entry, on desktop and
    unpaused, [startCarousel] starts a timer, and the page loaded with one
    entry is a reachable state whose carousel is running. *)
Lemma carousel_single_entry_counterexample :
  length (entries (dom desktopOne)) = 1
  ∧ reachable desktopOne
  ∧ carouselRunning desktopOne = true
  ∧ carouselRunning (fresh (samplePage oneEntry) 1024 (StorageItems ∅) None false) = false
  ∧ carouselRunning
      (startCarousel (fresh (samplePage oneEntry) 1024 (StorageItems ∅) None false)) = true.
Proof.
  split_and!; [by vm_compute|apply reachable_load|by vm_compute..].
Qed.

(** X30.  On a page whose markup has the modal open on an image whose id
    holds a double quote, a carousel timer can be live on a mobile viewport.
    The page is loaded at a mobile width while the document is loading; the
    resize to desktop throws once the modal is closed and leaves [wasMobile]
    set; the set-up at [DOMContentLoaded] starts the carousel on the desktop
    viewport; the resize back to mobile finds [wasMobile] set and stops
    nothing.  The first tick then finds the viewport mobile and clears the
    timer. *)
Theorem carousel_on_mobile_after_throw :
  let st0 := load openQuotePage 500 (StorageItems ∅) None true in
  let st1 := step (Resize 1024) st0 in
  let st2 := step DOMContentLoaded st1 in
  let st3 := step (Resize 500) st2 in
  (pageModalOpen openQuotePage = true ∧ plainPage openQuotePage = false)
  ∧ (returned (handleResize (with_innerWidth 1024 st0)) = false
     ∧ wasMobile st1 = true ∧ isMobile st1 = false ∧ carouselRunning st1 = false)
  ∧ carouselRunning st2 = true
  ∧ (isMobile st3 = true ∧ carouselRunning st3 = true ∧ carouselPaused st3 = false)
  ∧ carouselRunning (elapse CAROUSEL_TICKS st3) = false.
Proof.
  intros st0 st1 st2 st3. split_and!; vm_compute; reflexivity.
Qed.

(** ** The resize to desktop with the modal open *)

(** X28.  On a page whose markup has the modal closed: a resize that
    crosses from Mobile to Desktop while the modal is open finds the modal
    showing the image of some entry.  When the id of that image is a plain
    token the handler runs to its end: it closes the modal, leaves exactly
    the first entry mapped to that image selected, writes the image to the
    showcase at once (no fade: the wrapper's fading state is untouched and
    no swap timer is set), clears the pause flag and starts the carousel. *)
Theorem resize_to_desktop_carries_modal (page : Dom) (st : State) (w : Z) :
  pageModalOpen page = false → reachableFrom page st →
  wasMobile st = true → (768 < w)%Z → modalOpen st = true →
  ∃ img k e,
    truthy (mobileImage st) = Some img
    ∧ queryEntry (hasImage img) (entries (dom st)) = Some (k, e)
    ∧ (plainToken img = true →
       let st' := step (Resize w) st in
       returned (handleResize (with_innerWidth w st)) = true
       ∧ modalOpen st' = false
       ∧ (∀ j, selectedAt j st' = bool_decide (j = k))
       ∧ (is_Some (showcaseWrapper (dom st)) → shownImage st' = Some img)
       ∧ fading st' = fading st
       ∧ (∀ t, t ∈ timers st' → t ∈ timers st ∨ callback t = CarouselTick)
       ∧ carouselPaused st' = false
       ∧ carouselRunning st' = true).
Proof.
  intros Hclosed Hr Hw Hlt Hopen.
  destruct (reachableFrom_modalBacked page st Hclosed Hr Hopen) as (Hl & img & Himg & Hq).
  destruct Hq as [[k e] Hq]. exists img, k, e. split_and!; [done..|]. intros Hplain.
  pose proof (reachable_coherent st (reachableFrom_reachable _ _ Hr)) as Hc.
  apply (handleResize_carries_modal (with_innerWidth w st) img k e); try done.
  - unfold isMobile. simpl. lia.
  - unfold entryListeners in Hl. apply andb_true_iff in Hl as [_ Hl].
    by apply bool_decide_eq_true_1 in Hl.
Qed.

Lemma resize_to_desktop_carries_modal_witness :
  let st := step (EntryActivate 3) mobileFour in
  let st' := step (Resize 1024) st in
  modalOpen st = true ∧ modalOpen st' = false
  ∧ selectedAt 3 st' = true ∧ selectedAt 1 st' = false
  ∧ shownImage st' = Some "D" ∧ carouselRunning st' = true.
Proof.
  intros st st'.
  destruct (resize_to_desktop_carries_modal (samplePage fourEntries) st 1024)
    as (img & k & e & Himg & Hq & H).
  - vm_compute. reflexivity.
  - apply reachableFrom_step, reachableFrom_load.
  - vm_compute. reflexivity.
  - lia.
  - vm_compute. reflexivity.
  - assert (Hi : img = "D") by (vm_compute in Himg; congruence). subst img.
    assert (Hk : k = 3) by (vm_compute in Hq; congruence). subst k.
    destruct H as (_ & Hmo & Hsel & Hshown & _ & _ & _ & Hrun); [vm_compute; reflexivity|].
    split_and!.
    + vm_compute. reflexivity.
    + exact Hmo.
    + by rewrite Hsel.
    + by rewrite Hsel.
    + apply Hshown. eexists. vm_compute. reflexivity.
    + exact Hrun.
Defined.

(** C4.  The claim fails on an image id that is not a plain token.  The
    page has an entry whose [data-image] holds a double quote; the user
    pauses the carousel on desktop, goes to mobile and opens the modal on
    that entry.  On the way back to desktop the handler closes the modal and
    deselects every entry, and the look-up of the entry by the concatenated
    selector throws: no entry is selected, the showcase keeps its image, the
    pause flag stays set, no carousel timer is started, and [wasMobile] is
    left as it was. *)
Theorem resize_to_desktop_quote_id :
  let st := run [EntryActivate 1; Resize 500; EntryActivate 0] desktopQuote in
  let st' := step (Resize 1024) st in
  (modalOpen st = true ∧ mobileImage st = Some quoteId
   ∧ wasMobile st = true ∧ carouselPaused st = true)
  ∧ plainToken quoteId = false
  ∧ returned (handleResize (with_innerWidth 1024 st)) = false
  ∧ modalOpen st' = false
  ∧ selectedFlags st' = [false; false; false]
  ∧ shownImage st' = shownImage st
  ∧ carouselPaused st' = true
  ∧ carouselRunning st' = false
  ∧ wasMobile st' = true.
Proof.
  intros st st'. split_and!; vm_compute; reflexivity.
Qed.

(** ** The fade switch, in time *)

Section FadeWindow.

Variable ours : Timer.
Variable old : option string.
Variable c : Z.
Hypothesis ours_fade : isFadeTimer ours = true.
Hypothesis ours_late : (due ours < c + FADE_SWAP_DELAY)%Z.

Lemma fireable_not_fade (i : nat) (s : State) (u : Timer) :
  fireable ours i s → u ∈ timers s → isFadeTimer u = true → hasId i u = false.
Proof.
  intros (_ & _ & Hnf) Hu Hf. unfold hasId.
  destruct (Nat.eqb_spec (timerId u) i) as [Heq|]; [|done].
  rewrite (Hnf u Hu Heq) in Hf. done.
Qed.

(** Clearing a timer other than [ours]. *)
Lemma pending_clearInterval (i : nat) (s : State) :
  i ≠ timerId ours → pending ours old c s → pending ours old c (clearInterval i s).
Proof.
  intros Hi [Hc Hwf Hid Hf Hs Hsc (pre & post & Hts & Hpre & Hpost)].
  constructor; try done.
  - by apply (steady_wf _ _ (steady_clearInterval i s)).
  - exists (List.filter (λ t, negb (hasId i t)) pre), (List.filter (λ t, negb (hasId i t)) post).
    split_and!.
    + unfold clearInterval. simpl. rewrite Hts, List.filter_app. simpl.
      unfold hasId at 2. destruct (Nat.eqb_spec (timerId ours) i); [congruence|done].
    + rewrite Forall_forall in *. intros u Hu.
      apply list_elem_of_In, List.filter_In in Hu as [Hu _]. by apply Hpre, list_elem_of_In.
    + rewrite Forall_forall in *. intros u Hu.
      apply list_elem_of_In, List.filter_In in Hu as [Hu _]. by apply Hpost, list_elem_of_In.
Qed.

Lemma fireable_clearInterval (i j : nat) (s : State) :
  fireable ours j s → fireable ours j (clearInterval i s).
Proof.
  intros (H1 & H2 & H3). split_and!; [done..|].
  intros u Hu. apply H3. unfold clearInterval in Hu. simpl in Hu.
  apply list_elem_of_In, List.filter_In in Hu as [Hu _]. by apply list_elem_of_In.
Qed.

(** Rescheduling an interval that is no swap. *)
Lemma pending_reschedule (i : nat) (p : Z) (s : State) :
  fireable ours i s → pending ours old c s → pending ours old c (reschedule i p s).
Proof.
  intros Hfi [Hc Hwf Hid Hf Hs Hsc (pre & post & Hts & Hpre & Hpost)].
  constructor; try done.
  - by apply (calm_wf _ _ (quiet_calm _ _ (quiet_reschedule i p s))).
  - set (f := λ u : Timer, if hasId i u
                 then mkTimer (timerId u) (due u + p) (period u) (callback u) else u).
    exists (f <$> pre), post. split_and!.
    + unfold reschedule. simpl. fold f. rewrite Hts, fmap_app, fmap_cons. f_equal.
      assert (Hsame : ∀ u, u ∈ timers s → isFadeTimer u = true → f u = u).
      { intros u Hu Hfu. unfold f. by rewrite (fireable_not_fade i s u Hfi Hu Hfu). }
      f_equal.
      * apply Hsame; [|done]. rewrite Hts. set_solver.
      * rewrite <- (list_fmap_id post) at 2. apply list_fmap_ext.
        intros k u Hk. simpl. apply Hsame.
        -- rewrite Hts. apply list_elem_of_lookup_2 in Hk. set_solver.
        -- rewrite Forall_forall in Hpost. apply Hpost. by eapply list_elem_of_lookup_2.
    + rewrite Forall_forall in *. intros u' Hu'.
      apply list_elem_of_fmap in Hu' as (u & -> & Hu). specialize (Hpre u Hu).
      unfold f. by destruct (hasId i u).
    + done.
Qed.

Lemma fireable_reschedule (i j : nat) (p : Z) (s : State) :
  fireable ours j s → fireable ours j (reschedule i p s).
Proof.
  intros (H1 & H2 & H3). split_and!; [done..|].
  intros u' Hu' Hid'. unfold reschedule in Hu'. simpl in Hu'.
  apply list_elem_of_fmap in Hu' as (u & -> & Hu).
  destruct (hasId i u); [|by apply H3].
  simpl in *. specialize (H3 u Hu Hid'). done.
Qed.

(** A change of the page that leaves the showcase and its wrapper. *)
Lemma pending_page (s s' : State) :
  clock s' = clock s → timers s' = timers s → nextTimerId s' = nextTimerId s →
  carouselIntervalId s' = carouselIntervalId s ∨ carouselIntervalId s' = None →
  showcase (dom s') = showcase (dom s) →
  showcaseWrapper (dom s') = showcaseWrapper (dom s) →
  pending ours old c s → pending ours old c s'.
Proof.
  intros Hc Ht Hn Hi Hsc Hw [? ? ? ? ? ? ?]. constructor.
  - congruence.
  - unfold wfTimers, timerIds in *. by rewrite Ht, Hn.
  - destruct Hi as [-> | ->]; done.
  - unfold fading in *. by rewrite Hw.
  - unfold shownImage in *. by rewrite Hsc.
  - by rewrite Hsc.
  - by rewrite Ht.
Qed.

Lemma fireable_page (j : nat) (s s' : State) :
  timers s' = timers s → nextTimerId s' = nextTimerId s →
  fireable ours j s → fireable ours j s'.
Proof. intros Ht Hn (H1 & H2 & H3). unfold fireable. rewrite Ht, Hn. done. Qed.

Lemma pending_stopCarousel (s : State) :
  pending ours old c s → pending ours old c (stopCarousel s).
Proof.
  intros Hp. unfold stopCarousel.
  destruct (carouselIntervalId s) as [i|] eqn:Hi; [|done].
  apply (pending_page (clearInterval i s)); try done; [by right|].
  apply pending_clearInterval; [|done].
  intros ->. by destruct Hp.
Qed.

Lemma fireable_stopCarousel (j : nat) (s : State) :
  fireable ours j s → fireable ours j (stopCarousel s).
Proof.
  intros Hj. unfold stopCarousel.
  destruct (carouselIntervalId s) as [i|] eqn:Hi; [|done].
  apply (fireable_page j (clearInterval i s)); try done.
  by apply fireable_clearInterval.
Qed.

(** A swap set while [ours] is pending is due later than [ours]. *)
Lemma pending_updateImageVisibility (v : option string) (s : State) :
  pending ours old c s → pending ours old c (updateImageVisibility v false s).
Proof.
  intros Hp. unfold updateImageVisibility.
  destruct (showcase (dom s)) as [sc|] eqn:Hsc; [|done].
  destruct (truthy v) as [x|]; [|done].
  destruct (showcaseWrapper (dom s)) as [wr|] eqn:Hwr; [|done].
  set (s1 := update_dom (with_showcaseWrapper (classList_add "fading" wr)) s).
  assert (Hp1 : pending ours old c s1).
  { destruct Hp as [? ? ? Hf ? ? ?]. constructor; try done.
    unfold fading. simpl. apply contains_add. }
  destruct Hp1 as [Hc Hwf Hid Hf Hs Hsc1 (pre & post & Hts & Hpre & Hpost)].
  constructor; try done.
  - by apply (calm_wf _ _ (quiet_calm _ _ (quiet_setTimeout (FadeSwap x) FADE_SWAP_DELAY s1
                                              ltac:(done)))).
  - exists pre, (post ++ [mkTimer (nextTimerId s1) (clock s1 + FADE_SWAP_DELAY) None (FadeSwap x)]).
    split_and!; [|done|].
    + unfold setTimeout. simpl. change (timers s) with (timers s1).
      rewrite Hts. by rewrite <- app_assoc.
    + apply Forall_app. split; [done|]. constructor; [|constructor].
      split; [done|]. simpl. simpl in Hc. unfold FADE_SWAP_DELAY in *. lia.
Qed.

Lemma fireable_updateImageVisibility (j : nat) (v : option string) (skip : bool) (s : State) :
  fireable ours j s → fireable ours j (updateImageVisibility v skip s).
Proof.
  intros (Hj1 & Hj2 & Hj3). unfold updateImageVisibility.
  repeat case_match; try done.
  split_and!; [done|simpl; lia|].
  simpl. intros u Hu Hid. apply elem_of_app in Hu as [Hu|Hu]; [by apply Hj3|].
  apply list_elem_of_singleton in Hu as ->. simpl in Hid. lia.
Qed.

Lemma pending_startProgressBar (s : State) :
  pending ours old c s → pending ours old c (startProgressBar s).
Proof.
  intros Hp. destruct (pageKept_startProgressBar s) as [_ Hsc Hw _ _].
  apply (pending_page s); try done; try by left.
  - unfold startProgressBar, requestAnimationFrame. by repeat case_match.
  - unfold startProgressBar, requestAnimationFrame. by repeat case_match.
  - unfold startProgressBar, requestAnimationFrame. by repeat case_match.
  - left. unfold startProgressBar, requestAnimationFrame. by repeat case_match.
Qed.

Lemma fireable_startProgressBar (j : nat) (s : State) :
  fireable ours j s → fireable ours j (startProgressBar s).
Proof.
  apply fireable_page; unfold startProgressBar, requestAnimationFrame; by repeat case_match.
Qed.

Lemma pending_carouselTick (s : State) :
  pending ours old c s → pending ours old c (outcome_state (carouselTick s)).
Proof.
  intros Hp. unfold carouselTick.
  destruct (isMobile s || carouselPaused s); [by apply pending_stopCarousel|].
  set (s1 := update_dom (with_entries (deselectAll (entries (dom s)))) s).
  assert (Hp1 : pending ours old c s1) by (apply (pending_page s); try done; by left).
  destruct (nodeAt _ _) as [[k entry]|]; simpl; [|done].
  set (s2 := update_dom _ s1).
  assert (Hp2 : pending ours old c s2) by (apply (pending_page s1); try done; by left).
  apply pending_startProgressBar.
  destruct (truthy _); [by apply pending_updateImageVisibility|done].
Qed.

Lemma fireable_carouselTick (j : nat) (s : State) :
  fireable ours j s → fireable ours j (outcome_state (carouselTick s)).
Proof.
  intros Hj. unfold carouselTick.
  destruct (isMobile s || carouselPaused s); [by apply fireable_stopCarousel|].
  set (s1 := update_dom (with_entries (deselectAll (entries (dom s)))) s).
  assert (Hj1 : fireable ours j s1) by (by apply (fireable_page j s)).
  destruct (nodeAt _ _) as [[k entry]|]; simpl; [|done].
  set (s2 := update_dom _ s1).
  assert (Hj2 : fireable ours j s2) by (by apply (fireable_page j s1)).
  apply fireable_startProgressBar.
  destruct (truthy _); [by apply fireable_updateImageVisibility|done].
Qed.

(** Firing a timer that is no swap keeps [ours] pending. *)
Lemma pending_fireTimer (i : nat) (s : State) :
  fireable ours i s → pending ours old c s →
  pending ours old c (fireTimer i s)
  ∧ ∀ j, fireable ours j s → fireable ours j (fireTimer i s).
Proof.
  intros Hi Hp. unfold fireTimer.
  destruct (List.find (hasId i) (timers s)) as [t|] eqn:Hfind; [|done].
  apply List.find_some in Hfind as [Ht Hid]. apply list_elem_of_In in Ht.
  unfold hasId in Hid. apply Nat.eqb_eq in Hid.
  assert (Hnf : isFadeTimer t = false) by (destruct Hi as (_ & _ & H3); by apply H3).
  set (s1 := match period t with Some p => reschedule i p s | None => clearInterval i s end).
  assert (Hp1 : pending ours old c s1).
  { subst s1. destruct (period t); [by apply pending_reschedule|].
    apply pending_clearInterval; [|done]. by destruct Hi. }
  assert (Hj1 : ∀ j, fireable ours j s → fireable ours j s1).
  { intros j Hj. subst s1.
    destruct (period t); [by apply fireable_reschedule|by apply fireable_clearInterval]. }
  unfold isFadeTimer in Hnf. destruct (callback t); [done|..]; simpl.
  - split; [apply (pending_page s1); try done; by left|].
    intros j Hj. apply (fireable_page j s1); try done. by apply Hj1.
  - split; [by apply pending_carouselTick|].
    intros j Hj. by apply fireable_carouselTick, Hj1.
Qed.

Lemma pending_fireTimers (ids : list nat) (s : State) :
  Forall (λ i, fireable ours i s) ids → pending ours old c s →
  pending ours old c (foldl (λ s id, fireTimer id s) s ids).
Proof.
  revert s. induction ids as [|i ids IH]; intros s Hall Hp; simpl; [done|].
  inversion Hall as [|? ? Hi Hrest]; subst.
  destruct (pending_fireTimer i s Hi Hp) as [Hp' Hj'].
  apply IH; [|done]. eapply Forall_impl; [exact Hrest|]. intros j Hj. by apply Hj'.
Qed.

Lemma pending_tick_of_clock (s : State) :
  pending ours old (c - 1) s → pending ours old c (with_clock (clock s + 1) s).
Proof.
  intros [Hc ? ? ? ? ? ?]. constructor; try done. simpl. lia.
Qed.

Lemma timer_unique (s : State) (u v : Timer) :
  wfTimers s → u ∈ timers s → v ∈ timers s → timerId u = timerId v → u = v.
Proof.
  intros [Hnd _] Hu Hv Heq. unfold timerIds in Hnd.
  apply list_elem_of_lookup in Hu as [i Hi]. apply list_elem_of_lookup in Hv as [j Hj].
  assert (i = j) as ->; [|congruence].
  apply (NoDup_lookup _ i j (timerId u) Hnd).
  - by rewrite list_lookup_fmap, Hi.
  - rewrite list_lookup_fmap, Hj. simpl. by rewrite Heq.
Qed.

(** Every timer that is due no later than [ours] and is not [ours] can be
    fired without touching the swap. *)
Lemma due_fireable (s : State) (u : Timer) :
  pending ours old c s → u ∈ timers s → u ≠ ours → (due u ≤ due ours)%Z →
  fireable ours (timerId u) s.
Proof.
  intros [_ Hwf _ _ _ _ (pre & post & Hts & Hpre & Hpost)] Hu Hne Hdue.
  assert (Hours : ours ∈ timers s) by (rewrite Hts; set_solver).
  assert (Hnf : isFadeTimer u = false).
  { rewrite Hts in Hu. apply elem_of_app in Hu as [Hu|Hu].
    - rewrite Forall_forall in Hpre. by apply Hpre.
    - apply elem_of_cons in Hu as [->|Hu]; [done|].
      rewrite Forall_forall in Hpost. destruct (Hpost u Hu) as [_ Hlt]. lia. }
  split_and!.
  - intros Heq. apply Hne. by apply (timer_unique s).
  - destruct Hwf as [_ Hfr]. rewrite Forall_forall in Hfr. apply Hfr.
    unfold timerIds. apply list_elem_of_fmap. by exists u.
  - intros v Hv Heq. by rewrite (timer_unique s v u Hwf Hv Hu Heq).
Qed.

(** A millisecond that ends before [ours] is due. *)
Lemma pending_millisecond (s : State) :
  pending ours old (c - 1) s → (c < due ours)%Z → pending ours old c (millisecond s).
Proof.
  intros Hp Hlt. unfold millisecond.
  pose proof (pending_tick_of_clock s Hp) as Hp1.
  set (s1 := with_clock (clock s + 1) s) in *.
  apply pending_fireTimers; [|done].
  rewrite Forall_forall. intros i Hi.
  apply list_elem_of_fmap in Hi as (u & -> & Hu).
  apply list_elem_of_In, List.filter_In in Hu as [Hu Hdue].
  apply list_elem_of_In in Hu. apply Z.leb_le in Hdue.
  destruct Hp1 as [Hc1 ? ? ? ? ? ?] eqn:E. clear E.
  apply due_fireable; [by constructor|done| |lia].
  intros ->. lia.
Qed.

Hypothesis ours_once : period ours = None.
Variable img : string.
Hypothesis ours_swap : callback ours = FadeSwap img.

Lemma find_ours (s : State) :
  pending ours old c s → List.find (hasId (timerId ours)) (timers s) = Some ours.
Proof.
  intros Hp. destruct (List.find _ _) as [u|] eqn:Hfind.
  - apply List.find_some in Hfind as [Hu Hid]. apply list_elem_of_In in Hu.
    unfold hasId in Hid. apply Nat.eqb_eq in Hid. f_equal.
    destruct Hp as [_ Hwf _ _ _ _ (pre & post & Hts & _)].
    apply (timer_unique s); [done..| |done]. rewrite Hts. set_solver.
  - destruct Hp as [_ _ _ _ _ _ (pre & post & Hts & _)].
    assert (Hin : List.In ours (timers s)).
    { rewrite Hts. apply List.in_or_app. right. by left. }
    pose proof (List.find_none _ _ Hfind _ Hin) as Hno.
    unfold hasId in Hno. by rewrite Nat.eqb_refl in Hno.
Qed.

(** The swap itself: the image is written and the fading ends. *)
Lemma fireTimer_ours (s : State) :
  pending ours old c s →
  shownImage (fireTimer (timerId ours) s) = Some img
  ∧ fading (fireTimer (timerId ours) s) = false.
Proof.
  intros Hp. unfold fireTimer. rewrite (find_ours s Hp), ours_once, ours_swap. simpl.
  destruct Hp as [_ _ _ Hf _ [sc Hsc] _].
  unfold fading in Hf. destruct (showcaseWrapper (dom s)) as [wr|] eqn:Hwr; [|done].
  unfold fadeSwap, shownImage, fading. simpl. rewrite Hsc, Hwr. simpl. split.
  - unfold getAttribute, setAttribute. simpl. by rewrite lookup_insert_eq.
  - apply contains_remove.
Qed.

(** The millisecond at which [ours] is due. *)
Lemma millisecond_swaps (s : State) :
  pending ours old (c - 1) s → due ours = c →
  shownImage (millisecond s) = Some img ∧ fading (millisecond s) = false.
Proof.
  intros Hp Hdue. unfold millisecond.
  pose proof (pending_tick_of_clock s Hp) as Hp1.
  set (s1 := with_clock (clock s + 1) s) in *.
  pose proof Hp1 as [Hc1 Hwf _ _ _ _ (pre & post & Hts & Hpre & Hpost)].
  assert (Hids : timerId <$> List.filter (λ t, (due t <=? clock s1)%Z) (timers s1)
                 = (timerId <$> List.filter (λ t, (due t <=? clock s1)%Z) pre)
                   ++ [timerId ours]).
  { rewrite Hc1, Hts, List.filter_app, fmap_app. f_equal.
    cbn [List.filter]. destruct (Z.leb_spec (due ours) c) as [_|?]; [|lia].
    rewrite fmap_cons. f_equal.
    assert (List.filter (λ t, (due t <=? c)%Z) post = []) as ->; [|done].
    clear Hts. induction post as [|u post IH]; [done|]. cbn [List.filter].
    inversion Hpost as [|? ? [_ Hu] Hrest]; subst.
    destruct (Z.leb_spec (due u) (due ours)) as [?|_]; [lia|]. by apply IH. }
  rewrite Hids, foldl_app. simpl.
  apply fireTimer_ours. apply pending_fireTimers; [|done].
  rewrite Forall_forall. intros i Hi.
  apply list_elem_of_fmap in Hi as (u & -> & Hu).
  apply list_elem_of_In, List.filter_In in Hu as [Hu Hd].
  apply list_elem_of_In in Hu. apply Z.leb_le in Hd.
  apply due_fireable; [done| | |simpl in Hc1; lia].
  - rewrite Hts. set_solver.
  - intros ->. rewrite Forall_forall in Hpre. specialize (Hpre _ Hu). congruence.
Qed.

End FadeWindow.

Lemma elapse_S (n : nat) (s : State) : elapse (S n) s = millisecond (elapse n s).
Proof. reflexivity. Qed.

Lemma pending_start (st : State) (img : string) :
  timersSound st → is_Some (showcase (dom st)) → is_Some (showcaseWrapper (dom st)) →
  img ≠ "" → Forall (λ u, isFadeTimer u = false) (timers st) →
  pending (fadeTimer st img) (shownImage st) (clock st)
          (updateImageVisibility (Some img) false st).
Proof.
  intros [Hwf Hid] [sc Hsc] [wr Hwr] Himg Hnf.
  unfold updateImageVisibility. rewrite Hsc, Hwr. simpl.
  destruct (String.eqb_spec img "") as [?|_]; [done|].
  set (s1 := update_dom (with_showcaseWrapper (classList_add "fading" wr)) st).
  constructor.
  - done.
  - by apply (calm_wf _ _ (quiet_calm _ _ (quiet_setTimeout (FadeSwap img) FADE_SWAP_DELAY s1
                                              ltac:(done)))).
  - simpl. intros Heq. specialize (Hid _ Heq). lia.
  - unfold fading. simpl. apply contains_add.
  - unfold shownImage. simpl. done.
  - simpl. by rewrite Hsc.
  - exists (timers st), []. split_and!; [done|done|constructor].
Qed.

(** From the moment the swap is pending to the moment it is done. *)
Lemma pending_elapse (ours : Timer) (old : option string) (img : string) (s : State) :
  period ours = None → callback ours = FadeSwap img →
  due ours = (clock s + FADE_SWAP_DELAY)%Z →
  pending ours old (clock s) s →
  (∀ n, n < 250 → fading (elapse n s) = true ∧ shownImage (elapse n s) = old)
  ∧ shownImage (elapse 250 s) = Some img
  ∧ fading (elapse 250 s) = false.
Proof.
  intros Honce Hswap Hdue H0.
  assert (Hfade : isFadeTimer ours = true) by (unfold isFadeTimer; by rewrite Hswap).
  assert (Hpend : ∀ n, n < 250 → pending ours old (clock s + Z.of_nat n) (elapse n s)).
  { induction n as [|n IH]; intros Hn.
    - simpl. by rewrite Z.add_0_r.
    - rewrite elapse_S. apply pending_millisecond.
      + done.
      + rewrite Hdue. unfold FADE_SWAP_DELAY. lia.
      + replace (clock s + Z.of_nat (S n) - 1)%Z with (clock s + Z.of_nat n)%Z by lia.
        apply IH. lia.
      + rewrite Hdue. unfold FADE_SWAP_DELAY. lia. }
  assert (Hlast : pending ours old (clock s + 250 - 1) (elapse 249 s)).
  { replace (clock s + 250 - 1)%Z with (clock s + Z.of_nat 249)%Z by lia. apply Hpend. lia. }
  assert (Hlate : (due ours < clock s + 250 + FADE_SWAP_DELAY)%Z)
    by (rewrite Hdue; unfold FADE_SWAP_DELAY; lia).
  split; [|rewrite (elapse_S 249);
           exact (millisecond_swaps ours old (clock s + 250) Hfade Hlate Honce img Hswap
                    (elapse 249 s) Hlast Hdue)].
  intros n Hn. by destruct (Hpend n Hn).
Qed.



(** X22.  The same timing at the level of the event: a user selection on
    desktop sets the swap and then pauses the carousel, which leaves the
    swap pending. *)
Lemma user_selection_fades (st : State) (k : nat) (e : Element) (img : string) :
  reachable st → entryListeners st = true → isMobile st = false →
  entries (dom st) !! k = Some e → truthy (getAttribute "data-image" e) = Some img →
  is_Some (showcaseWrapper (dom st)) →
  Forall (λ u, isFadeTimer u = false) (timers st) →
  let st1 := step (EntryActivate k) st in
  (∀ n, n < 250 →
     fading (elapse n st1) = true ∧ shownImage (elapse n st1) = shownImage st)
  ∧ shownImage (elapse 250 st1) = Some img
  ∧ fading (elapse 250 st1) = false.
Proof.
  intros Hr Hl Hm Hk Himg Hwr Hnf st1.
  destruct (reachable_coherent st Hr) as (Hwf & _ & Hiss).
  assert (Hsc : is_Some (showcase (dom st))).
  { unfold entryListeners in Hl. apply andb_true_iff in Hl as [_ Hl].
    by apply bool_decide_eq_true_1 in Hl. }
  set (s2 := selectAt k (update_dom (λ d, with_entries (deselectAll (entries d)) d) st)).
  set (s3 := updateImageVisibility (Some img) false s2).
  assert (Hst1 : st1 = pauseCarousel s3).
  { subst st1 s3 s2. simpl. rewrite Hl. unfold selectEntry. by rewrite Hk, Hm, Himg. }
  assert (Hne : img ≠ "").
  { intros ->. apply truthy_idem in Himg. done. }
  assert (H3 : pending (fadeTimer st img) (shownImage st) (clock st) s3).
  { apply (pending_start s2 img); try done; by split. }
  assert (H4 : pending (fadeTimer st img) (shownImage st) (clock st) (pauseCarousel s3)).
  { unfold pauseCarousel.
    set (s4 := stopCarousel (with_carouselPaused true s3)).
    assert (Hp4 : pending (fadeTimer st img) (shownImage st) (clock st) s4).
    { apply pending_stopCarousel.
      apply (pending_page _ _ _ s3); try done; by left. }
    destruct (pageKept_pauseProgressBar s4) as [_ Ksc Kwr _ _].
    apply (pending_page _ _ _ s4); try done; try left;
      unfold pauseProgressBar; by repeat case_match. }
  rewrite Hst1.
  assert (Hclock : clock (pauseCarousel s3) = clock st).
  { by destruct H4. }
  rewrite <- Hclock in H4.
  apply (pending_elapse (fadeTimer st img) (shownImage st) img); try done.
  simpl. by rewrite Hclock.
Qed.

Lemma reachable_timersSound (st : State) : reachable st → timersSound st.
Proof. intros Hr. destruct (reachable_coherent st Hr) as (Hwf & _ & Hiss). by split. Qed.

(* ===================================================================== *)
(** * Further properties of the script *)
(* ===================================================================== *)

(** ** The theme toggle *)

Lemma isDark_applyTheme (theme : string) (st : State) :
  isDark (applyTheme theme st) = String.eqb theme THEME_DARK.
Proof.
  unfold isDark, applyTheme. destruct (String.eqb theme THEME_DARK); simpl.
  - unfold getAttribute, setAttribute. simpl. rewrite lookup_insert_eq. by apply bool_decide_eq_true_2.
  - unfold getAttribute, removeAttribute. simpl. rewrite lookup_delete_eq.
    by apply bool_decide_eq_false_2.
Qed.

Lemma dom_setStoredThemePreference (theme : string) (st : State) :
  dom (setStoredThemePreference theme st) = dom st.
Proof. unfold setStoredThemePreference. by case_match. Qed.

Lemma dom_toggleTheme (st : State) :
  dom (snd (toggleTheme st))
  = dom (applyTheme (fst (toggleTheme st))
           (update_dom (λ d, with_documentElement
              (setAttribute "data-theme-transitioning" "" (documentElement d)) d) st)).
Proof. unfold toggleTheme. simpl. by rewrite dom_setStoredThemePreference. Qed.

Lemma toggleTheme_result (st : State) :
  fst (toggleTheme st) = if isDark st then THEME_LIGHT else THEME_DARK.
Proof. reflexivity. Qed.

Lemma isDark_toggleTheme (st : State) :
  isDark (snd (toggleTheme st)) = negb (isDark st).
Proof.
  unfold isDark at 1. rewrite dom_toggleTheme. fold (isDark (applyTheme (fst (toggleTheme st))
    (update_dom (λ d, with_documentElement
       (setAttribute "data-theme-transitioning" "" (documentElement d)) d) st))).
  rewrite isDark_applyTheme, toggleTheme_result. by destruct (isDark st).
Qed.

(** X1.  [toggleTheme] returns the theme opposite to the one the document
    shows and puts the document in it, with the transition marker set; the
    attribute it leaves is ["dark"] or none, so toggling twice gives the
    theme back. *)
Theorem toggleTheme_flips (st : State) :
  let st' := snd (toggleTheme st) in
  fst (toggleTheme st) = (if isDark st then THEME_LIGHT else THEME_DARK)
  ∧ isDark st' = negb (isDark st)
  ∧ getAttribute "data-theme" (documentElement (dom st'))
    = (if isDark st then None else Some THEME_DARK)
  ∧ transitioning st' = true
  ∧ isDark (snd (toggleTheme st')) = isDark st.
Proof.
  intros st'. split_and!.
  - apply toggleTheme_result.
  - apply isDark_toggleTheme.
  - subst st'. rewrite dom_toggleTheme, toggleTheme_result.
    unfold applyTheme. destruct (isDark st); simpl.
    + unfold getAttribute, removeAttribute. simpl. by rewrite lookup_delete_eq.
    + unfold getAttribute, setAttribute. simpl. by rewrite lookup_insert_eq.
  - subst st'. unfold transitioning. rewrite dom_toggleTheme.
    apply bool_decide_eq_true_2. unfold applyTheme.
    destruct (String.eqb _ _); simpl; unfold getAttribute, setAttribute, removeAttribute; simpl.
    + rewrite lookup_insert_ne by done. rewrite lookup_insert_eq. by eexists.
    + rewrite lookup_delete_ne by done. rewrite lookup_insert_eq. by eexists.
  - subst st'. rewrite !isDark_toggleTheme. apply negb_involutive.
Qed.

Lemma toggleTheme_storage (st : State) :
  localStorage (snd (toggleTheme st))
  = match localStorage st with
    | StorageItems items => StorageItems (<[THEME_STORAGE_KEY := fst (toggleTheme st)]> items)
    | StorageUnavailable => StorageUnavailable
    end.
Proof.
  unfold toggleTheme. simpl. unfold setStoredThemePreference.
  assert (Hs : ∀ t s, localStorage (applyTheme t s) = localStorage s).
  { intros t s. unfold applyTheme. by case_match. }
  rewrite Hs. simpl. destruct (localStorage st) eqn:E; simpl; [|done].
  by rewrite Hs.
Qed.

Lemma toggleTheme_media (st : State) : matchMedia (snd (toggleTheme st)) = matchMedia st.
Proof.
  unfold toggleTheme. simpl. unfold setStoredThemePreference, applyTheme.
  by repeat case_match.
Qed.

Lemma getCurrentTheme_value (st : State) :
  fst (getCurrentTheme st) = effectiveTheme_spec (truthy (storedPreference st)) (matchMedia st).
Proof.
  unfold getCurrentTheme.
  pose proof (getStoredThemePreference_value st) as Hv.
  pose proof (getStoredThemePreference_media st) as Hm.
  destruct (getStoredThemePreference st) as [stored s1]. simpl in Hv, Hm. subst stored.
  unfold effectiveTheme_spec, getSystemThemePreference.
  destruct (truthy (storedPreference st)); simpl; [done|].
  rewrite Hm. by destruct (matchMedia st) as [[]|].
Qed.

(** X2.  With a store that can be written, the theme [toggleTheme] returns
    is the one stored under the preference key and the one
    [getCurrentTheme] gives afterwards, whatever the system preference; no
    other key of the store changes and nothing is logged. *)
Theorem toggleTheme_persists (st : State) (items : gmap string string) :
  localStorage st = StorageItems items →
  let theme := fst (toggleTheme st) in
  let st' := snd (toggleTheme st) in
  storedPreference st' = Some theme
  ∧ fst (getCurrentTheme st') = theme
  ∧ localStorage st' = StorageItems (<[THEME_STORAGE_KEY := theme]> items)
  ∧ (∀ k, k ≠ THEME_STORAGE_KEY →
       (<[THEME_STORAGE_KEY := theme]> items) !! k = items !! k)
  ∧ console st' = console st.
Proof.
  intros Hst theme st'.
  assert (Hl : localStorage st' = StorageItems (<[THEME_STORAGE_KEY := theme]> items)).
  { subst st'. by rewrite toggleTheme_storage, Hst. }
  assert (Hp : storedPreference st' = Some theme).
  { unfold storedPreference. rewrite Hl. by rewrite lookup_insert_eq. }
  split_and!; [done| |done| |].
  - rewrite getCurrentTheme_value, Hp. subst theme. rewrite toggleTheme_result.
    by destruct (isDark st).
  - intros k Hk. by rewrite lookup_insert_ne.
  - subst st'. unfold toggleTheme. simpl. unfold setStoredThemePreference.
    assert (Hs : ∀ t s, localStorage (applyTheme t s) = localStorage s
                        ∧ console (applyTheme t s) = console s).
    { intros t s. unfold applyTheme. by case_match. }
    destruct (Hs (if bool_decide (getAttribute "data-theme" (documentElement (dom st))
                                  = Some THEME_DARK) then THEME_LIGHT else THEME_DARK)
                 (update_dom (λ d, with_documentElement
                    (setAttribute "data-theme-transitioning" "" (documentElement d)) d) st))
      as [Hs1 Hs2].
    rewrite Hs1. simpl. rewrite Hst. simpl. by rewrite Hs2.
Qed.

(** X3.  With a store whose access throws, [toggleTheme] still flips the
    document and returns; the failure is one console warning, the store is
    as it was, and [getCurrentTheme] afterwards gives the system
    preference: the choice does not outlive the page. *)
Theorem toggleTheme_without_store (st : State) :
  localStorage st = StorageUnavailable →
  let st' := snd (toggleTheme st) in
  isDark st' = negb (isDark st)
  ∧ localStorage st' = StorageUnavailable
  ∧ console st' = console st ++ ["Unable to save to localStorage:"]
  ∧ fst (getCurrentTheme st') = getSystemThemePreference st.
Proof.
  intros Hst st'.
  assert (Hl : localStorage st' = StorageUnavailable).
  { subst st'. by rewrite toggleTheme_storage, Hst. }
  split_and!; [apply isDark_toggleTheme|done| |].
  - subst st'. unfold toggleTheme. simpl. unfold setStoredThemePreference.
    assert (Hs : ∀ t s, localStorage (applyTheme t s) = localStorage s
                        ∧ console (applyTheme t s) = console s).
    { intros t s. unfold applyTheme. by case_match. }
    destruct (Hs (if bool_decide (getAttribute "data-theme" (documentElement (dom st))
                                  = Some THEME_DARK) then THEME_LIGHT else THEME_DARK)
                 (update_dom (λ d, with_documentElement
                    (setAttribute "data-theme-transitioning" "" (documentElement d)) d) st))
      as [Hs1 Hs2].
    rewrite Hs1. simpl. rewrite Hst. simpl. by rewrite Hs2.
  - rewrite getCurrentTheme_value.
    assert (Hnone : storedPreference st' = None) by (unfold storedPreference; by rewrite Hl).
    rewrite Hnone. subst st'. rewrite toggleTheme_media.
    unfold getSystemThemePreference. simpl. by destruct (matchMedia st) as [[]|].
Qed.

Lemma toggleTheme_persists_witness :
  let st := fresh (samplePage fourEntries) 1024 (StorageItems ∅) (Some true) false in
  storedPreference (snd (toggleTheme st)) = Some "dark"
  ∧ fst (getCurrentTheme (snd (toggleTheme st))) = "dark".
Proof.
  intros st.
  destruct (toggleTheme_persists st ∅) as (H1 & H2 & _); [vm_compute; reflexivity|].
  split; [exact H1 | exact H2].
Defined.

Lemma toggleTheme_without_store_witness :
  let st := fresh (samplePage fourEntries) 1024 StorageUnavailable (Some true) false in
  isDark (snd (toggleTheme st)) = negb (isDark st)
  ∧ localStorage (snd (toggleTheme st)) = StorageUnavailable.
Proof.
  intros st.
  destruct (toggleTheme_without_store st) as (H1 & H2 & _); [vm_compute; reflexivity|].
  split; [exact H1 | exact H2].
Defined.
(** ** What the functions leave untouched *)

Lemma kept_refl (a : Aspect) (st : State) : kept a st st.
Proof. by destruct a. Qed.

(** A state with the same page, store, system preference, ready state,
    width and clock shows the same on every side. *)
Lemma kept_frame (a : Aspect) (s st st' : State) :
  dom st' = dom st → localStorage st' = localStorage st →
  matchMedia st' = matchMedia st → readyStateLoading st' = readyStateLoading st →
  innerWidth st' = innerWidth st → clock st' = clock st →
  kept a s st → kept a s st'.
Proof.
  intros Hd Hl Hm Hr Hw Hc. destruct a; unfold kept, themeView, modalView, selectedFlags;
    rewrite ?Hd, ?Hl, ?Hm, ?Hr, ?Hw, ?Hc; done.
Qed.

Ltac kept_frame := intros; eapply kept_frame; [..|eassumption]; reflexivity.

Lemma kept_with_innerWidth a s w st :
  a ≠ Viewport → kept a s st → kept a s (with_innerWidth w st).
Proof. intros Ha H. by destruct a. Qed.
Lemma kept_with_console a s c st : kept a s st → kept a s (with_console c st).
Proof. kept_frame. Qed.
Lemma kept_with_clock a s c st : a ≠ Clock → kept a s st → kept a s (with_clock c st).
Proof. intros Ha H. by destruct a. Qed.
Lemma kept_with_timers a s c st : kept a s st → kept a s (with_timers c st).
Proof. kept_frame. Qed.
Lemma kept_with_nextTimerId a s c st : kept a s st → kept a s (with_nextTimerId c st).
Proof. kept_frame. Qed.
Lemma kept_with_frames a s c st : kept a s st → kept a s (with_frames c st).
Proof. kept_frame. Qed.
Lemma kept_with_wasMobile a s c st : kept a s st → kept a s (with_wasMobile c st).
Proof. kept_frame. Qed.
Lemma kept_with_carouselIntervalId a s c st :
  kept a s st → kept a s (with_carouselIntervalId c st).
Proof. kept_frame. Qed.
Lemma kept_with_carouselPaused a s c st : kept a s st → kept a s (with_carouselPaused c st).
Proof. kept_frame. Qed.
Lemma kept_with_progressBar a s c st : kept a s st → kept a s (with_progressBar c st).
Proof. kept_frame. Qed.

Create HintDb kept.
#[export] Hint Resolve kept_refl kept_with_innerWidth kept_with_console kept_with_clock
  kept_with_timers kept_with_nextTimerId kept_with_frames kept_with_wasMobile
  kept_with_carouselIntervalId kept_with_carouselPaused kept_with_progressBar : kept.
#[export] Hint Extern 1 (_ ≠ _) => discriminate : kept.

Lemma kept_setTimeout a s cb d st : kept a s st → kept a s (setTimeout cb d st).
Proof. unfold setTimeout. auto with kept. Qed.
Lemma kept_setInterval a s cb d st : kept a s st → kept a s (snd (setInterval cb d st)).
Proof. unfold setInterval. simpl. auto with kept. Qed.
Lemma kept_clearInterval a s id st : kept a s st → kept a s (clearInterval id st).
Proof. unfold clearInterval. auto with kept. Qed.
Lemma kept_requestAnimationFrame a s cb st :
  kept a s st → kept a s (requestAnimationFrame cb st).
Proof. unfold requestAnimationFrame. auto with kept. Qed.
Lemma kept_reschedule a s id p st : kept a s st → kept a s (reschedule id p st).
Proof. unfold reschedule. auto with kept. Qed.
#[export] Hint Resolve kept_setTimeout kept_setInterval kept_clearInterval
  kept_requestAnimationFrame kept_reschedule : kept.

Lemma kept_stopCarousel a s st : kept a s st → kept a s (stopCarousel st).
Proof. unfold stopCarousel. case_match; auto with kept. Qed.
#[export] Hint Resolve kept_stopCarousel : kept.

Lemma kept_startProgressBar a s st : kept a s st → kept a s (startProgressBar st).
Proof.
  intros H. unfold startProgressBar. repeat case_match; auto with kept.
Qed.
Lemma kept_progressRun a s st : kept a s st → kept a s (progressRun st).
Proof. intros H. unfold progressRun. repeat case_match; auto with kept. Qed.
Lemma kept_pauseProgressBar a s st : kept a s st → kept a s (pauseProgressBar st).
Proof.
  intros H. unfold pauseProgressBar. repeat case_match; auto with kept.
Qed.
#[export] Hint Resolve kept_startProgressBar kept_progressRun kept_pauseProgressBar : kept.

Lemma kept_startCarousel a s st : kept a s st → kept a s (startCarousel st).
Proof.
  intros H. unfold startCarousel. case_match; [done|].
  unfold setInterval. auto 10 with kept.
Qed.
Lemma kept_pauseCarousel a s st : kept a s st → kept a s (pauseCarousel st).
Proof. unfold pauseCarousel. auto with kept. Qed.
#[export] Hint Resolve kept_startCarousel kept_pauseCarousel : kept.

Lemma kept_updateImageVisibility a s img skip st :
  kept a s st → kept a s (updateImageVisibility img skip st).
Proof.
  intros H. unfold updateImageVisibility. repeat case_match; auto with kept.
Qed.
Lemma kept_fadeSwap a s img st : kept a s st → kept a s (fadeSwap img st).
Proof.
  intros H. unfold fadeSwap. repeat case_match; auto with kept.
Qed.
#[export] Hint Resolve kept_updateImageVisibility kept_fadeSwap : kept.

Lemma kept_seedMobileShowcase a s st : kept a s st → kept a s (seedMobileShowcase st).
Proof. intros H. unfold seedMobileShowcase. repeat case_match; auto with kept. Qed.
#[export] Hint Resolve kept_seedMobileShowcase : kept.

Lemma kept_animationFrame a s st : kept a s st → kept a s (animationFrame st).
Proof.
  intros H. unfold animationFrame.
  assert (H0 : kept a s (with_frames [] st)) by auto with kept.
  generalize dependent (with_frames [] st). 
  induction (frames st) as [|cb cbs IH]; intros s0 H0; simpl; [done|].
  apply IH. destruct cb. simpl. auto with kept.
Qed.
#[export] Hint Resolve kept_animationFrame : kept.

Lemma getAttribute_removeAttribute_ne (k k' : string) (e : Element) :
  k ≠ k' → getAttribute k (removeAttribute k' e) = getAttribute k e.
Proof. intros H. unfold getAttribute, removeAttribute. simpl. by rewrite lookup_delete_ne. Qed.

Lemma getAttribute_setAttribute_ne (k k' v : string) (e : Element) :
  k ≠ k' → getAttribute k (setAttribute k' v e) = getAttribute k e.
Proof. intros H. unfold getAttribute, setAttribute. simpl. by rewrite lookup_insert_ne. Qed.

Lemma kept_themeTransitionEnd a s st : kept a s st → kept a s (themeTransitionEnd st).
Proof.
  intros H. destruct a; try done.
  unfold kept, themeView, themeTransitionEnd in *. simpl.
  by rewrite getAttribute_removeAttribute_ne.
Qed.
#[export] Hint Resolve kept_themeTransitionEnd : kept.

(** The theme functions leave the modal and the selection. *)
Lemma kept_applyTheme a s theme st : a ≠ Theme → kept a s st → kept a s (applyTheme theme st).
Proof. intros Ha H. unfold applyTheme. destruct a; try done; by case_match. Qed.

Lemma kept_setStoredThemePreference a s theme st :
  a ≠ Theme → kept a s st → kept a s (setStoredThemePreference theme st).
Proof. intros Ha H. unfold setStoredThemePreference. destruct a; try done; by case_match. Qed.

Lemma kept_getStoredThemePreference a s st :
  kept a s st → kept a s (snd (getStoredThemePreference st)).
Proof. intros H. unfold getStoredThemePreference. case_match; simpl; auto with kept. Qed.

Lemma kept_getCurrentTheme a s st : kept a s st → kept a s (snd (getCurrentTheme st)).
Proof.
  intros H. unfold getCurrentTheme.
  pose proof (kept_getStoredThemePreference a s st H) as H1.
  destruct (getStoredThemePreference st) as [v s1]. simpl in H1. by case_match.
Qed.

Lemma kept_updateButtonLabel a s st : a ≠ Theme → kept a s st → kept a s (updateButtonLabel st).
Proof. intros Ha H. unfold updateButtonLabel. destruct a; try done; by case_match. Qed.
#[export] Hint Resolve kept_applyTheme kept_setStoredThemePreference
  kept_getStoredThemePreference kept_getCurrentTheme kept_updateButtonLabel : kept.

Lemma kept_toggleTheme a s st : a ≠ Theme → kept a s st → kept a s (snd (toggleTheme st)).
Proof.
  intros Ha H. unfold toggleTheme. simpl.
  apply kept_setTimeout, kept_setStoredThemePreference, kept_applyTheme; try done.
  by destruct a.
Qed.
#[export] Hint Resolve kept_toggleTheme : kept.

Lemma kept_onToggleActivate a s st : a ≠ Theme → kept a s st → kept a s (onToggleActivate st).
Proof. unfold onToggleActivate. auto with kept. Qed.

Lemma kept_onSystemThemeChange a s st :
  a ≠ Theme → kept a s st → kept a s (onSystemThemeChange st).
Proof.
  intros Ha H. unfold onSystemThemeChange.
  pose proof (kept_getStoredThemePreference a s st H) as H1.
  destruct (getStoredThemePreference st) as [v s1]. simpl in H1.
  case_match; auto with kept.
Qed.

Lemma kept_init a s st : a ≠ Theme → kept a s st → kept a s (init st).
Proof.
  intros Ha H. unfold init.
  pose proof (kept_getCurrentTheme a s st H) as H1.
  destruct (getCurrentTheme st) as [v s1]. simpl in H1.
  unfold setupToggleButton. case_match; auto with kept.
Qed.
#[export] Hint Resolve kept_onToggleActivate kept_onSystemThemeChange kept_init : kept.

(** The modal functions leave the theme and the selection. *)
Lemma kept_openMobileModal a s img st :
  a ≠ Modal → kept a s st → kept a s (openMobileModal img st).
Proof.
  intros Ha H. unfold openMobileModal. destruct a; try done; by repeat case_match.
Qed.

Lemma kept_closeMobileModal a s st : a ≠ Modal → kept a s st → kept a s (closeMobileModal st).
Proof. intros Ha H. unfold closeMobileModal. destruct a; try done; by repeat case_match. Qed.
#[export] Hint Resolve kept_openMobileModal kept_closeMobileModal : kept.

(** The selection functions leave the theme and the modal. *)
Lemma kept_deselect a s st :
  a ≠ Selection → kept a s st →
  kept a s (update_dom (λ d, with_entries (deselectAll (entries d)) d) st).
Proof. intros Ha H. by destruct a. Qed.

Lemma kept_selectAt a s k st : a ≠ Selection → kept a s st → kept a s (selectAt k st).
Proof. intros Ha H. by destruct a. Qed.
#[export] Hint Resolve kept_deselect kept_selectAt : kept.

Lemma kept_carouselTick a s st :
  a ≠ Selection → kept a s st → kept a s (outcome_state (carouselTick st)).
Proof.
  intros Ha H. unfold carouselTick.
  assert (H1 : kept a s (update_dom (with_entries (deselectAll (entries (dom st)))) st))
    by (by destruct a).
  repeat case_match; simpl; auto with kept.
  all: apply kept_startProgressBar; try apply kept_updateImageVisibility; by destruct a.
Qed.

Lemma kept_runCallback a s cb st : a ≠ Selection → kept a s st → kept a s (runCallback cb st).
Proof. intros Ha H. destruct cb; simpl; auto using kept_carouselTick with kept. Qed.

Lemma kept_fireTimer a s id st : a ≠ Selection → kept a s st → kept a s (fireTimer id st).
Proof.
  intros Ha H. unfold fireTimer. repeat case_match; auto using kept_runCallback with kept.
Qed.

Lemma kept_millisecond a s st :
  a ≠ Selection → a ≠ Clock → kept a s st → kept a s (millisecond st).
Proof.
  intros Ha Hc H. unfold millisecond.
  assert (H0 : kept a s (with_clock (clock st + 1) st)) by auto with kept.
  generalize (timerId <$> List.filter (λ t, (due t <=? clock (with_clock (clock st + 1) st))%Z)
                (timers (with_clock (clock st + 1) st))).
  generalize dependent (with_clock (clock st + 1) st).
  intros s0 H0 ids. revert s0 H0.
  induction ids as [|i ids IH]; intros s0 H0; simpl; [done|].
  apply IH. by apply kept_fireTimer.
Qed.
#[export] Hint Resolve kept_carouselTick kept_runCallback kept_fireTimer kept_millisecond : kept.

Lemma kept_elapse a s n st :
  a ≠ Selection → a ≠ Clock → kept a s st → kept a s (elapse n st).
Proof.
  intros Ha Hc H. induction n as [|n IH]; [done|].
  change (elapse (S n) st) with (millisecond (elapse n st)). auto with kept.
Qed.

(** The set-up labels every entry as a button; their classes stay. *)
Lemma selected_labelEntries (es : list Element) :
  isSelected <$> ((λ e, setAttribute "role" "button" (setAttribute "tabindex" "0" e)) <$> es)
  = isSelected <$> es.
Proof. rewrite <- list_fmap_compose. by apply list_fmap_ext. Qed.

Lemma kept_labelEntries a s st :
  kept a s st →
  kept a s (update_dom (λ d, with_entries
             ((λ e, setAttribute "role" "button" (setAttribute "tabindex" "0" e))
                <$> entries d) d) st).
Proof.
  intros H. destruct a; try done.
  unfold kept, selectedFlags in *. simpl. by rewrite selected_labelEntries.
Qed.

Lemma kept_setupEntrySelection a s st : kept a s st → kept a s (setupEntrySelection st).
Proof.
  intros H. unfold setupEntrySelection. case_match; [|done].
  pose proof (kept_labelEntries a s st H) as H1.
  set (st1 := update_dom _ st) in *. clearbody st1.
  repeat case_match; auto with kept.
Qed.

Lemma kept_initEntrySelection a s st : kept a s st → kept a s (initEntrySelection st).
Proof. unfold initEntrySelection. case_match; auto using kept_setupEntrySelection. Qed.

Lemma kept_initResizeTracking a s st : kept a s st → kept a s (initResizeTracking st).
Proof. unfold initResizeTracking. auto with kept. Qed.
#[export] Hint Resolve kept_setupEntrySelection kept_initEntrySelection
  kept_initResizeTracking : kept.

(** Selecting an entry and resizing leave the theme. *)
Lemma kept_selectEntry_desktop a s k user st :
  a ≠ Selection → isMobile st = false → kept a s st → kept a s (selectEntry k user st).
Proof.
  intros Ha Hm H. unfold selectEntry. rewrite Hm.
  assert (H1 : kept a s (selectAt k (update_dom
                 (λ d, with_entries (deselectAll (entries d)) d) st))) by auto with kept.
  repeat case_match; auto with kept.
Qed.

Lemma kept_selectEntry_mobile a s k user st :
  a ≠ Modal → isMobile st = true → kept a s st → kept a s (selectEntry k user st).
Proof.
  intros Ha Hm H. unfold selectEntry. rewrite Hm. repeat case_match; auto with kept.
Qed.

Lemma kept_selectEntry s k user st : kept Theme s st → kept Theme s (selectEntry k user st).
Proof.
  intros H. destruct (isMobile st) eqn:Hm.
  - by apply kept_selectEntry_mobile.
  - by apply kept_selectEntry_desktop.
Qed.

Lemma kept_carryModalSelection s st :
  kept Theme s st → kept Theme s (outcome_state (carryModalSelection st)).
Proof.
  intros H. unfold carryModalSelection.
  repeat case_match; cbn [outcome_state]; auto with kept.
  all: try (apply kept_updateImageVisibility); try apply kept_selectAt; try done;
    try apply kept_deselect; try done; auto with kept.
Qed.

Lemma kept_handleResize s st :
  kept Theme s st → kept Theme s (outcome_state (handleResize st)).
Proof.
  intros H. destruct (wasMobile st) eqn:Hw, (isMobile st) eqn:Hm.
  - rewrite handleResize_same by congruence. cbn [outcome_state]. auto with kept.
  - rewrite handleResize_up by done. pose proof (kept_carryModalSelection s st H) as H1.
    destruct (carryModalSelection st); cbn [outcome_state] in *; auto with kept.
  - rewrite handleResize_down by done. cbn [outcome_state]. auto 6 with kept.
  - rewrite handleResize_same by congruence. cbn [outcome_state]. auto with kept.
Qed.

(** ** The label of the theme button *)

Lemma isDark_updateButtonLabel (st : State) : isDark (updateButtonLabel st) = isDark st.
Proof. unfold updateButtonLabel. by case_match. Qed.

Lemma buttonLabel_updateButtonLabel (st : State) :
  is_Some (themeToggle (dom st)) →
  buttonLabel (updateButtonLabel st) = Some (labelFor (isDark st)).
Proof.
  intros [button Hb]. unfold updateButtonLabel, buttonLabel. rewrite Hb. simpl.
  unfold getAttribute, setAttribute. simpl. by rewrite lookup_insert_eq.
Qed.

Lemma labelled_updateButtonLabel (st : State) : labelled (updateButtonLabel st).
Proof.
  intros Hl. rewrite isDark_updateButtonLabel. apply buttonLabel_updateButtonLabel.
  unfold toggleListeners in Hl. apply andb_true_iff in Hl as [_ Hl].
  apply bool_decide_eq_true_1 in Hl. unfold updateButtonLabel in Hl.
  destruct (themeToggle (dom st)) eqn:E; [by eexists|]. by rewrite E in Hl.
Qed.

Lemma labelled_kept (s st : State) : kept Theme s st → labelled s → labelled st.
Proof.
  unfold kept, themeView, labelled, toggleListeners, buttonLabel, isDark.
  intros H Hs. injection H as H1 H2 H3 H4 H5. by rewrite H1, H2, H5.
Qed.

Lemma labelled_setupEntrySelection (st : State) :
  labelled st → labelled (setupEntrySelection st).
Proof. apply labelled_kept. auto using kept_refl with kept. Qed.

Lemma labelled_load page width storage media loading :
  labelled (load page width storage media loading).
Proof.
  unfold load. eapply labelled_kept.
  { apply kept_initResizeTracking, kept_initEntrySelection, kept_refl. }
  unfold init. destruct (getCurrentTheme _) as [theme s1].
  case_match eqn:E; [|apply labelled_updateButtonLabel].
  intros Hl. unfold toggleListeners in Hl. by rewrite E in Hl.
Qed.

Lemma labelled_step (ev : Event) (st : State) : labelled st → labelled (step ev st).
Proof.
  intros H. destruct ev; simpl.
  - case_match; [|done]. apply labelled_setupEntrySelection, labelled_updateButtonLabel.
  - case_match; [|done]. eapply labelled_kept; [|done]. apply kept_selectEntry, kept_refl.
  - case_match; [|done]. eapply labelled_kept; [|done].
    by apply kept_closeMobileModal, kept_refl.
  - case_match; [|done]. apply labelled_updateButtonLabel.
  - case_match; [|done]. unfold onSystemThemeChange.
    pose proof (kept_getStoredThemePreference Theme _ (with_matchMedia (Some dark) st)
      (kept_refl _ _)) as H1.
    destruct (getStoredThemePreference _) as [v s1]. simpl in H1.
    case_match; [|apply labelled_updateButtonLabel].
    eapply labelled_kept; [exact H1|]. exact H.
  - eapply labelled_kept; [|exact H].
    apply kept_handleResize. by apply kept_with_innerWidth, kept_refl.
  - eapply labelled_kept; [|exact H]. apply kept_animationFrame, kept_refl.
  - eapply labelled_kept; [|exact H]. by apply kept_millisecond, kept_refl.
Qed.

(** X4.  In every state the script reaches, once the theme button has been
    set up its label names the theme a press would switch to: ["Switch to
    light mode"] exactly when the document is dark. *)
Theorem button_label_follows_theme (st : State) :
  reachable st → toggleListeners st = true →
  buttonLabel st = Some (labelFor (isDark st)).
Proof.
  intros Hr. induction Hr as [page width storage media loading|ev st Hr IH].
  - apply labelled_load.
  - by apply labelled_step.
Qed.

Lemma button_label_follows_theme_witness :
  buttonLabel (step ToggleActivate desktopFour) = Some "Switch to dark mode".
Proof.
  assert (H := button_label_follows_theme (step ToggleActivate desktopFour)
                 (reachable_step _ _ (reachable_load _ _ _ _ _))).
  rewrite H; vm_compute; reflexivity.
Defined.

(** ** What writes the store, and what a change of the system preference does *)

Lemma localStorage_updateButtonLabel (st : State) :
  localStorage (updateButtonLabel st) = localStorage st.
Proof. unfold updateButtonLabel. by case_match. Qed.

Lemma localStorage_applyTheme (theme : string) (st : State) :
  localStorage (applyTheme theme st) = localStorage st.
Proof. unfold applyTheme. by case_match. Qed.

Lemma localStorage_kept (s st : State) : kept Theme s st → localStorage st = localStorage s.
Proof. unfold kept, themeView. by intros [= _ _ -> _ _]. Qed.

Lemma onSystemThemeChange_cases (st : State) :
  onSystemThemeChange st
  = let st1 := snd (getStoredThemePreference st) in
    match truthy (storedPreference st) with
    | Some _ => st1
    | None => updateButtonLabel
                (applyTheme (if bool_decide (matchMedia st = Some true)
                             then THEME_DARK else THEME_LIGHT) st1)
    end.
Proof.
  unfold onSystemThemeChange.
  pose proof (getStoredThemePreference_value st) as Hv.
  pose proof (getStoredThemePreference_media st) as Hm.
  destruct (getStoredThemePreference st) as [v s1]. simpl in *. subst v.
  case_match; [done|]. rewrite Hm. by destruct (matchMedia st) as [[]|].
Qed.

(** X5.  The store is written by the theme toggle and by nothing else: any
    other event, a change of the system preference included, leaves it as
    it was. *)
Theorem store_written_only_by_toggle (ev : Event) (st : State) :
  ev ≠ ToggleActivate → localStorage (step ev st) = localStorage st.
Proof.
  intros Hev. destruct ev; unfold step; try done.
  - case_match; [|done].
    rewrite (localStorage_kept (updateButtonLabel (with_readyStateLoading false st)))
      by (unfold setupToggleButton; apply kept_setupEntrySelection, kept_refl).
    by rewrite localStorage_updateButtonLabel.
  - case_match; [|done]. apply localStorage_kept, kept_selectEntry, kept_refl.
  - case_match; [|done]. by apply localStorage_kept, kept_closeMobileModal, kept_refl.
  - case_match; [|done]. rewrite onSystemThemeChange_cases. cbv zeta.
    assert (H1 : localStorage (snd (getStoredThemePreference (with_matchMedia (Some dark) st)))
                 = localStorage st).
    { unfold getStoredThemePreference. by case_match. }
    case_match; [done|].
    by rewrite localStorage_updateButtonLabel, localStorage_applyTheme.
  - by apply (localStorage_kept st), kept_handleResize, kept_with_innerWidth, kept_refl.
  - apply localStorage_kept, kept_animationFrame, kept_refl.
  - by apply localStorage_kept, kept_millisecond, kept_refl.
Qed.

Lemma store_written_only_by_toggle_witness :
  localStorage (step (SystemThemeChange false) desktopFour) = localStorage desktopFour.
Proof. apply store_written_only_by_toggle. discriminate. Defined.

Lemma dom_getStoredThemePreference (st : State) :
  dom (snd (getStoredThemePreference st)) = dom st.
Proof. unfold getStoredThemePreference. by case_match. Qed.

(** X6.  A change of the system preference, on a browser that has
    [matchMedia]: when a non-empty preference is stored the page is left as
    it is; otherwise the document takes the new system theme and the
    button, if there is one, its label.  A store that cannot be read counts
    as no preference. *)
Theorem system_theme_followed_unless_chosen (dark b : bool) (st : State) :
  matchMedia st = Some b →
  let st' := step (SystemThemeChange dark) st in
  (is_Some (truthy (storedPreference st)) → dom st' = dom st)
  ∧ (truthy (storedPreference st) = None →
     isDark st' = dark
     ∧ (is_Some (themeToggle (dom st)) → buttonLabel st' = Some (labelFor dark))).
Proof.
  intros Hm st'. subst st'. simpl. rewrite Hm. rewrite onSystemThemeChange_cases.
  change (storedPreference (with_matchMedia (Some dark) st)) with (storedPreference st).
  cbv zeta. split.
  - intros [v Hv]. rewrite Hv. by rewrite dom_getStoredThemePreference.
  - intros Hv. rewrite Hv.
    set (s1 := snd (getStoredThemePreference (with_matchMedia (Some dark) st))).
    assert (Hd : isDark (applyTheme (if bool_decide (matchMedia (with_matchMedia (Some dark) st)
                   = Some true) then THEME_DARK else THEME_LIGHT) s1) = dark).
    { rewrite isDark_applyTheme. simpl. by destruct dark. }
    split.
    + by rewrite isDark_updateButtonLabel.
    + intros Hb. rewrite buttonLabel_updateButtonLabel, Hd; [done|].
      unfold applyTheme. subst s1. case_match; simpl; by rewrite dom_getStoredThemePreference.
Qed.

Lemma system_theme_followed_unless_chosen_witness :
  isDark (step (SystemThemeChange false) desktopFour) = false.
Proof.
  destruct (system_theme_followed_unless_chosen false true desktopFour) as [_ H];
    [vm_compute; reflexivity|].
  destruct H as [H _]; [vm_compute; reflexivity|]. exact H.
Defined.

(** ** The modal and the scroll lock *)

Lemma modalOpen_kept (s st : State) : kept Modal s st → modalOpen st = modalOpen s.
Proof. unfold kept, modalView, modalOpen, pageModalOpen. by intros [= -> _]. Qed.

Lemma scrollLocked_kept (s st : State) : kept Modal s st → scrollLocked st = scrollLocked s.
Proof. unfold kept, modalView, scrollLocked, pageScrollLocked. by intros [= _ ->]. Qed.

Lemma isMobile_kept (s st : State) : kept Viewport s st → isMobile st = isMobile s.
Proof. apply isMobile_width. Qed.

Lemma modalSound_kept (s st : State) :
  kept Modal s st → kept Viewport s st → modalSound s → modalSound st.
Proof.
  intros Hm Hv [H1 H2]. unfold modalSound.
  by rewrite (modalOpen_kept s), (scrollLocked_kept s), (isMobile_kept s).
Qed.

Lemma modalSound_closed (st : State) :
  modalOpen st = false → scrollLocked st = false → modalSound st.
Proof. intros H1 H2. split; congruence. Qed.

(** What [openMobileModal] does when the modal and the mobile showcase are
    on the page. *)
Lemma openMobileModal_opens (img : string) (st : State) :
  is_Some (mobileModal (dom st)) → is_Some (mobileShowcase (dom st)) → img ≠ "" →
  modalOpen (openMobileModal (Some img) st) = true
  ∧ scrollLocked (openMobileModal (Some img) st) = true
  ∧ mobileImage (openMobileModal (Some img) st) = Some img.
Proof.
  intros [modal Hmo] [ms Hms] Hi. unfold openMobileModal. rewrite Hmo, Hms.
  assert (Ht : truthy (Some img) = Some img).
  { simpl. destruct (String.eqb_spec img ""); [done|done]. }
  rewrite Ht. unfold modalOpen, pageModalOpen, scrollLocked, pageScrollLocked, mobileImage.
  simpl. split_and!.
  - apply contains_add.
  - apply bool_decide_eq_true_2. by rewrite lookup_insert_eq.
  - unfold getAttribute, setAttribute. simpl. by rewrite lookup_insert_eq.
Qed.

Lemma modalSound_openMobileModal (img : option string) (st : State) :
  isMobile st = true → modalSound st → modalSound (openMobileModal img st).
Proof.
  intros Hm Hs. unfold openMobileModal.
  destruct (mobileModal (dom st)) as [modal|] eqn:Hmo; [|done].
  destruct (mobileShowcase (dom st)) as [ms|] eqn:Hms; [|done].
  split; [|intros _; by destruct (truthy img)].
  unfold modalOpen, pageModalOpen, scrollLocked, pageScrollLocked. simpl.
  rewrite contains_add. apply bool_decide_eq_true_2. by rewrite lookup_insert_eq.
Qed.

Lemma closeMobileModal_closes (st : State) :
  is_Some (mobileModal (dom st)) →
  modalOpen (closeMobileModal st) = false ∧ scrollLocked (closeMobileModal st) = false.
Proof.
  intros [modal Hmo]. split; [apply modalOpen_closeMobileModal|].
  unfold closeMobileModal. rewrite Hmo. unfold scrollLocked, pageScrollLocked. simpl.
  apply bool_decide_eq_false_2. by rewrite lookup_insert_eq.
Qed.

Lemma modalSound_closeMobileModal (st : State) :
  modalSound st → modalSound (closeMobileModal st).
Proof.
  intros Hs. destruct (mobileModal (dom st)) as [modal|] eqn:Hmo.
  - destruct (closeMobileModal_closes st) as [H1 H2]; [by eexists|].
    by apply modalSound_closed.
  - unfold closeMobileModal. by rewrite Hmo.
Qed.

Lemma kept_carryTail (a : Aspect) (s st : State) (img : string) (found : option nat) :
  a ≠ Selection → kept a s st →
  kept a s
    (let s2 := update_dom (λ d, with_entries (deselectAll (entries d)) d) st in
     let s3 := match found with
               | Some k => selectAt k s2
               | None => s2
               end in
     match showcase (dom s3) with
     | Some _ => updateImageVisibility (Some img) true s3
     | None => s3
     end).
Proof.
  intros Ha H. cbv zeta.
  assert (H2 : kept a s (update_dom (λ d, with_entries (deselectAll (entries d)) d) st))
    by auto with kept.
  set (s2 := update_dom _ st) in *. clearbody s2.
  assert (H3 : kept a s (match found with
                         | Some k => selectAt k s2
                         | None => s2
                         end)) by (repeat case_match; auto with kept).
  set (s3 := match found with Some _ => _ | None => _ end) in *. clearbody s3.
  case_match; auto with kept.
Qed.

(** Whether the look-up returns or throws, what the block does besides
    closing the modal touches the selection only. *)
Lemma kept_carryModalSelection_open (a : Aspect) (st : State) :
  a ≠ Selection → modalOpen st = true →
  kept a (closeMobileModal st) (outcome_state (carryModalSelection st)).
Proof.
  intros Ha Hopen. unfold carryModalSelection. unfold modalOpen, pageModalOpen in Hopen.
  destruct (mobileModal (dom st)) as [modal|]; [|done]. rewrite Hopen.
  destruct (truthy _) as [img|]; [|apply kept_refl]. cbv zeta.
  destruct (querySelectorImage img _) as [|found]; cbn [outcome_state].
  - apply kept_deselect; [done|apply kept_refl].
  - apply (kept_carryTail a (closeMobileModal st) (closeMobileModal st) img found Ha).
    apply kept_refl.
Qed.

Lemma carryModalSelection_closed (st : State) :
  scrollLocked st = modalOpen st →
  modalOpen (outcome_state (carryModalSelection st)) = false
  ∧ scrollLocked (outcome_state (carryModalSelection st)) = false.
Proof.
  intros Hs. split; [apply modalOpen_carryModalSelection|].
  destruct (modalOpen st) eqn:Ho.
  - rewrite (scrollLocked_kept _ _ (kept_carryModalSelection_open Modal st ltac:(done) Ho)).
    apply closeMobileModal_closes. unfold modalOpen, pageModalOpen in Ho.
    destruct (mobileModal (dom st)); [by eexists|done].
  - by rewrite carryModalSelection_idle.
Qed.

Lemma modalSound_selectEntry (k : nat) (user : bool) (st : State) :
  modalSound st → modalSound (selectEntry k user st).
Proof.
  intros Hs. destruct (isMobile st) eqn:Hm.
  - unfold selectEntry. rewrite Hm. repeat case_match; try done.
    by apply modalSound_openMobileModal.
  - eapply modalSound_kept; [| |exact Hs]; by apply kept_selectEntry_desktop, kept_refl.
Qed.

Lemma modalSound_handleResize (width : Z) (st : State) :
  tracked st → modalSound st →
  modalSound (outcome_state (handleResize (with_innerWidth width st))).
Proof.
  intros Hw [H1 H2]. set (s0 := with_innerWidth width st).
  assert (Hl0 : scrollLocked s0 = modalOpen s0) by exact H1.
  destruct (wasMobile s0) eqn:Hw0, (isMobile s0) eqn:Hm0.
  - rewrite handleResize_same by congruence. split; [exact H1|]. by rewrite Hm0.
  - rewrite handleResize_up by done.
    destruct (carryModalSelection_closed s0 Hl0) as [Hc1 Hc2].
    destruct (carryModalSelection s0) as [s|s]; cbn [outcome_state] in *.
    + apply modalSound_closed.
      * rewrite <- Hc1. apply modalOpen_kept. auto 6 using kept_refl with kept.
      * rewrite <- Hc2. apply scrollLocked_kept. auto 6 using kept_refl with kept.
    + by apply modalSound_closed.
  - rewrite handleResize_down by done. cbn [outcome_state]. split.
    + transitivity (scrollLocked s0); [apply scrollLocked_kept|];
        [auto 6 using kept_refl with kept|].
      rewrite Hl0. symmetry. apply modalOpen_kept. auto 6 using kept_refl with kept.
    + intros _. rewrite <- Hm0. apply isMobile_kept. auto 6 using kept_refl with kept.
  - rewrite handleResize_same by congruence. cbn [outcome_state].
    destruct (modalOpen st) eqn:Ho.
    + specialize (H2 eq_refl). specialize (Hw H2).
      change (wasMobile st = false) in Hw0. congruence.
    + by apply modalSound_closed.
Qed.

Lemma modalSound_step (ev : Event) (st : State) :
  tracked st → modalSound st → modalSound (step ev st).
Proof.
  intros Hw Hs. destruct ev; unfold step.
  - case_match; [|done]. unfold setupToggleButton.
    eapply modalSound_kept; [| |exact Hs];
      apply kept_setupEntrySelection, kept_updateButtonLabel; done.
  - case_match; [|done]. by apply modalSound_selectEntry.
  - case_match; [|done]. by apply modalSound_closeMobileModal.
  - case_match; [|done].
    eapply modalSound_kept; [| |exact Hs]; by apply kept_onToggleActivate, kept_refl.
  - case_match; [|done].
    eapply modalSound_kept; [| |exact Hs]; by apply kept_onSystemThemeChange.
  - by apply modalSound_handleResize.
  - eapply modalSound_kept; [| |exact Hs]; apply kept_animationFrame, kept_refl.
  - eapply modalSound_kept; [| |exact Hs]; by apply kept_millisecond, kept_refl.
Qed.

Lemma kept_load (a : Aspect) page width storage media loading :
  a ≠ Theme →
  kept a (fresh page width storage media loading) (load page width storage media loading).
Proof.
  intros Ha. unfold load.
  by apply kept_initResizeTracking, kept_initEntrySelection, kept_init, kept_refl.
Qed.

(** X7.  On a page whose markup has the modal closed and the body free to
    scroll, in every state the script reaches the body's scroll is locked
    exactly while the modal is open, and the modal is open on a mobile
    viewport only. *)
Theorem scroll_locked_while_modal_open (page : Dom) (st : State) :
  pageModalOpen page = false → pageScrollLocked page = false →
  reachableFrom page st →
  scrollLocked st = modalOpen st ∧ (modalOpen st = true → isMobile st = true).
Proof.
  intros Hp1 Hp2 Hr. change (modalSound st).
  induction Hr as [width storage media loading|ev st Hr IH].
  - apply modalSound_closed.
    + by rewrite modalOpen_load.
    + by rewrite (scrollLocked_kept _ _ (kept_load Modal page width storage media loading
                                           ltac:(done))).
  - apply modalSound_step; [|done].
    by destruct (reachable_Sound st (reachableFrom_reachable _ _ Hr)) as (_ & _ & ?).
Qed.

Lemma scroll_locked_while_modal_open_witness :
  scrollLocked (step (EntryActivate 2) mobileFour) = true.
Proof.
  destruct (scroll_locked_while_modal_open (samplePage fourEntries)
              (step (EntryActivate 2) mobileFour)) as [H _].
  - vm_compute; reflexivity.
  - vm_compute; reflexivity.
  - apply reachableFrom_step, reachableFrom_load.
  - rewrite H. vm_compute; reflexivity.
Defined.

Lemma truthy_ne (img : string) : img ≠ "" → truthy (Some img) = Some img.
Proof. intros H. simpl. by destruct (String.eqb_spec img ""). Qed.

(** X8.  Activating an entry on a mobile viewport opens the modal on the
    entry's image and locks the scroll; the selection, the desktop
    showcase, the pause flag and the timers are as before.  Dismissing the
    modal closes it and frees the scroll, and the mobile showcase keeps the
    image. *)
Theorem mobile_activation_opens_modal (k : nat) (entry : Element) (img : string)
    (st : State) :
  entryListeners st = true → isMobile st = true →
  is_Some (mobileModal (dom st)) → is_Some (mobileShowcase (dom st)) →
  entries (dom st) !! k = Some entry → getAttribute "data-image" entry = Some img →
  img ≠ "" →
  let st1 := step (EntryActivate k) st in
  let st2 := step ModalDismiss st1 in
  (modalOpen st1 = true ∧ scrollLocked st1 = true ∧ mobileImage st1 = Some img)
  ∧ (selectedFlags st1 = selectedFlags st ∧ shownImage st1 = shownImage st
     ∧ carouselPaused st1 = carouselPaused st ∧ timers st1 = timers st)
  ∧ (modalOpen st2 = false ∧ scrollLocked st2 = false ∧ mobileImage st2 = Some img).
Proof.
  intros Hl Hm Hmo Hms Hk Hi Hne st1 st2.
  assert (E1 : st1 = openMobileModal (Some img) st).
  { subst st1. unfold step. rewrite Hl. unfold selectEntry.
    by rewrite Hk, Hm, Hi, truthy_ne. }
  destruct (openMobileModal_opens img st Hmo Hms Hne) as (O1 & O2 & O3).
  rewrite <- E1 in O1, O2, O3.
  assert (F : selectedFlags st1 = selectedFlags st ∧ shownImage st1 = shownImage st
              ∧ carouselPaused st1 = carouselPaused st ∧ timers st1 = timers st
              ∧ entryListeners st1 = true ∧ is_Some (mobileModal (dom st1))).
  { rewrite E1. unfold openMobileModal.
    destruct Hmo as [modal Hmo], Hms as [ms Hms]. rewrite Hmo, Hms, truthy_ne by done.
    split_and!; try done; simpl; by eexists. }
  destruct F as (F1 & F2 & F3 & F4 & F5 & F6).
  split_and!; try done.
  - subst st2. unfold step. rewrite F5. by apply closeMobileModal_closes.
  - subst st2. unfold step. rewrite F5. by apply closeMobileModal_closes.
  - subst st2. unfold step. rewrite F5. rewrite <- O3.
    unfold closeMobileModal, mobileImage. by case_match.
Qed.

Lemma mobile_activation_opens_modal_witness :
  modalOpen (step (EntryActivate 2) mobileFour) = true
  ∧ modalOpen (step ModalDismiss (step (EntryActivate 2) mobileFour)) = false.
Proof.
  destruct (mobile_activation_opens_modal 2
              (setAttribute "role" "button"
                 (setAttribute "tabindex" "0" (sampleEntry "C" false))) "C" mobileFour)
    as ((H1 & _) & _ & (H2 & _)).
  - vm_compute; reflexivity.
  - vm_compute; reflexivity.
  - eexists. vm_compute. reflexivity.
  - eexists. vm_compute. reflexivity.
  - vm_compute; reflexivity.
  - vm_compute; reflexivity.
  - discriminate.
  - split; [exact H1 | exact H2].
Defined.

(** ** Exactly one entry is selected *)

Lemma selectedCount_flags (es es' : list Element) :
  isSelected <$> es = isSelected <$> es' → selectedCount es = selectedCount es'.
Proof.
  unfold selectedCount. revert es'.
  induction es as [|e es IH]; intros [|e' es']; simpl; try done.
  intros [= He Hes]. rewrite He. specialize (IH es' Hes).
  destruct (isSelected e'); simpl; by rewrite IH.
Qed.

Lemma selectedCount_kept (s st : State) :
  kept Selection s st → selectedCount (entries (dom st)) = selectedCount (entries (dom s)).
Proof. intros H. by apply selectedCount_flags. Qed.

Lemma selectedCount_deselectAll (es : list Element) : selectedCount (deselectAll es) = 0.
Proof.
  unfold selectedCount. induction es as [|e es IH]; simpl; [done|].
  unfold isSelected at 1. by rewrite contains_remove.
Qed.

Lemma selectedCount_select (es : list Element) (k : nat) :
  k < length es →
  selectedCount (alter (classList_add "selected") k (deselectAll es)) = 1.
Proof.
  revert k. induction es as [|e es IH]; intros k Hk; simpl in *; [lia|].
  destruct k as [|k]; unfold selectedCount; simpl.
  - unfold isSelected at 1. rewrite contains_add. simpl. f_equal.
    apply selectedCount_deselectAll.
  - unfold isSelected at 1. rewrite contains_remove. apply IH. lia.
Qed.

Lemma selectedCount_zero (es : list Element) :
  selectedCount es = 0 → Forall (λ e, isSelected e = false) es.
Proof.
  unfold selectedCount. induction es as [|e es IH]; simpl; [by constructor|].
  destruct (isSelected e) eqn:He; simpl; [done|]. intros H. constructor; auto.
Qed.

(** With one entry selected, the first selected entry, which
    [querySelector] finds, is the last one, which the tick's loop finds. *)
Lemma scanSelected_first (es : list Element) (index current : Z) :
  selectedCount es = 1 →
  ∃ k e, queryEntry isSelected es = Some (k, e) ∧ k < length es
         ∧ scanSelected es index current = (index + Z.of_nat k)%Z.
Proof.
  revert index current. induction es as [|x es IH]; intros index current; [done|].
  unfold selectedCount. simpl. fold (isSelected x).
  destruct (isSelected x) eqn:Hx; simpl.
  - intros [= H0]. exists 0, x. split_and!; [done|lia|].
    rewrite scanSelected_none by (by apply selectedCount_zero). lia.
  - intros H1. destruct (IH (index + 1)%Z current H1) as (k & e & Hq & Hk & Hs).
    exists (S k), e. rewrite Hq. split_and!; [done|lia|]. rewrite Hs. lia.
Qed.

Lemma kept_selectEntry_tail (k : nat) (user : bool) (entry : Element) (st : State) :
  isMobile st = false → entries (dom st) !! k = Some entry →
  kept Selection
    (selectAt k (update_dom (λ d, with_entries (deselectAll (entries d)) d) st))
    (selectEntry k user st).
Proof.
  intros Hm Hk. unfold selectEntry. rewrite Hk, Hm.
  repeat case_match; auto using kept_refl with kept.
Qed.

Lemma entries_selectEntry_desktop (k : nat) (user : bool) (st : State) :
  isMobile st = false → k < length (entries (dom st)) →
  selectedFlags (selectEntry k user st)
  = isSelected <$> alter (classList_add "selected") k (deselectAll (entries (dom st))).
Proof.
  intros Hm Hk. destruct (lookup_lt_is_Some_2 _ _ Hk) as [entry He].
  exact (kept_selectEntry_tail k user entry st Hm He).
Qed.

Lemma oneSelected_kept (s st : State) : kept Selection s st → oneSelected s → oneSelected st.
Proof. unfold oneSelected. intros H. by rewrite (selectedCount_kept s st). Qed.

Lemma oneSelected_selectEntry (k : nat) (user : bool) (st : State) :
  oneSelected st → oneSelected (selectEntry k user st).
Proof.
  intros H. destruct (isMobile st) eqn:Hm.
  - eapply oneSelected_kept; [|exact H]. by apply kept_selectEntry_mobile, kept_refl.
  - destruct (decide (k < length (entries (dom st)))) as [Hk|Hk].
    + unfold oneSelected.
      rewrite (selectedCount_flags _ _ (entries_selectEntry_desktop k user st Hm Hk)).
      by apply selectedCount_select.
    + rewrite selectEntry_absent; [done|]. apply lookup_ge_None. lia.
Qed.

Lemma oneSelected_carouselTick (st : State) :
  oneSelected st → oneSelected (outcome_state (carouselTick st)).
Proof.
  intros H. destruct (isMobile st || carouselPaused st) eqn:Hg.
  - unfold carouselTick. rewrite Hg. simpl.
    eapply oneSelected_kept; [|exact H]. apply kept_stopCarousel, kept_refl.
  - apply orb_false_iff in Hg as [Hm Hp].
    destruct (carouselTick_advances st Hm Hp) as (st' & -> & Hes & Hlt).
    { intros Hnil. unfold oneSelected in H. by rewrite Hnil in H. }
    simpl. unfold oneSelected. rewrite Hes. by apply selectedCount_select.
Qed.

Lemma oneSelected_fireTimer (id : nat) (st : State) :
  oneSelected st → oneSelected (fireTimer id st).
Proof.
  intros H. unfold fireTimer. destruct (List.find (hasId id) (timers st)) as [t|]; [|done].
  assert (H1 : oneSelected match period t with
                           | Some p => reschedule id p st
                           | None => clearInterval id st
                           end).
  { eapply oneSelected_kept; [|exact H]. case_match; auto using kept_refl with kept. }
  destruct (callback t); simpl.
  - eapply oneSelected_kept; [|exact H1]. apply kept_fadeSwap, kept_refl.
  - eapply oneSelected_kept; [|exact H1]. apply kept_themeTransitionEnd, kept_refl.
  - by apply oneSelected_carouselTick.
Qed.

Lemma oneSelected_millisecond (st : State) : oneSelected st → oneSelected (millisecond st).
Proof.
  intros H. unfold millisecond.
  assert (H0 : oneSelected (with_clock (clock st + 1) st)) by exact H.
  generalize (timerId <$> List.filter (λ t, (due t <=? clock (with_clock (clock st + 1) st))%Z)
                (timers (with_clock (clock st + 1) st))).
  generalize dependent (with_clock (clock st + 1) st).
  intros s0 H0 ids. revert s0 H0.
  induction ids as [|i ids IH]; intros s0 H0; simpl; [done|].
  by apply IH, oneSelected_fireTimer.
Qed.

Lemma plainId_truthy (v : option string) (img : string) :
  plainId v = true → truthy v = Some img → plainToken img = true.
Proof. intros Hp Ht. apply truthy_Some in Ht as ->. exact Hp. Qed.

Lemma plainPage_mobileImage (st : State) :
  plainPage (dom st) = true → plainId (mobileImage st) = true.
Proof. unfold plainPage. by intros [_ Hp]%andb_true_iff. Qed.

Lemma oneSelected_carryModalSelection (st : State) :
  modalBacked st → plainId (mobileImage st) = true → oneSelected st →
  oneSelected (outcome_state (carryModalSelection st)).
Proof.
  intros Hb Hp H. destruct (modalOpen st) eqn:Ho.
  - destruct (Hb Ho) as (Hl & img & Hi & [[k e] Hq]).
    destruct (carryModalSelection_open st img k e Ho Hi (plainId_truthy _ _ Hp Hi) Hq)
      as (s & -> & _ & Hes & _).
    { unfold entryListeners in Hl. apply andb_true_iff in Hl as [_ Hl].
      by apply bool_decide_eq_true_1 in Hl. }
    simpl. unfold oneSelected. rewrite Hes. apply selectedCount_select.
    apply queryEntry_Some in Hq as [Hq _]. by eapply lookup_lt_Some.
  - by rewrite carryModalSelection_idle.
Qed.

Lemma oneSelected_handleResize (st : State) :
  modalBacked st → plainId (mobileImage st) = true → oneSelected st →
  oneSelected (outcome_state (handleResize st)).
Proof.
  intros Hb Hp H. destruct (wasMobile st) eqn:Hw, (isMobile st) eqn:Hm.
  - by rewrite handleResize_same by congruence.
  - rewrite handleResize_up by done.
    pose proof (oneSelected_carryModalSelection st Hb Hp H) as H1.
    destruct (carryModalSelection st) as [s|s]; simpl in H1 |- *; [|exact H1].
    eapply oneSelected_kept; [|exact H1]. auto 6 using kept_refl with kept.
  - rewrite handleResize_down by done. simpl.
    eapply oneSelected_kept; [|exact H]. auto 6 using kept_refl with kept.
  - by rewrite handleResize_same by congruence.
Qed.

Lemma oneSelected_step (ev : Event) (st : State) :
  modalBacked st → plainPage (dom st) = true → oneSelected st → oneSelected (step ev st).
Proof.
  intros Hb Hp H. destruct ev; unfold step.
  - case_match; [|done]. unfold setupToggleButton.
    eapply oneSelected_kept; [|exact H].
    by apply kept_setupEntrySelection, kept_updateButtonLabel.
  - case_match; [|done]. by apply oneSelected_selectEntry.
  - case_match; [|done]. eapply oneSelected_kept; [|exact H].
    by apply kept_closeMobileModal, kept_refl.
  - case_match; [|done]. eapply oneSelected_kept; [|exact H].
    by apply kept_onToggleActivate, kept_refl.
  - case_match; [|done]. eapply oneSelected_kept; [|exact H].
    by apply kept_onSystemThemeChange.
  - apply (oneSelected_handleResize (with_innerWidth width st)); [exact Hb| |exact H].
    by apply (plainPage_mobileImage (with_innerWidth width st)).
  - eapply oneSelected_kept; [|exact H]. apply kept_animationFrame, kept_refl.
  - by apply oneSelected_millisecond.
Qed.

(** X9.  On a page whose markup selects exactly one entry and has the
    modal closed, and whose image ids are plain tokens, exactly one entry is
    selected in every state the script reaches; the entry [querySelector]
    finds as the selected one is the entry the tick takes as current. *)
Theorem exactly_one_entry_selected (page : Dom) (st : State) :
  plainPage page = true →
  pageModalOpen page = false → selectedCount (entries page) = 1 →
  reachableFrom page st →
  selectedCount (entries (dom st)) = 1
  ∧ firstSelected st = activeIndex st
  ∧ (0 ≤ activeIndex st < Z.of_nat (length (entries (dom st))))%Z.
Proof.
  intros Hplain Hp1 Hp2 Hr.
  assert (H : oneSelected st).
  { induction Hr as [width storage media loading|ev st Hr IH].
    - eapply oneSelected_kept; [by apply (kept_load Selection)|exact Hp2].
    - apply oneSelected_step; [|by apply (reachableFrom_plainPage page)|done].
      by apply (reachableFrom_modalBacked page). }
  split; [exact H|].
  destruct (scanSelected_first (entries (dom st)) 0 (-1) H) as (k & e & Hq & Hk & Hs).
  unfold firstSelected, activeIndex. rewrite Hq, Hs. lia.
Qed.

Lemma exactly_one_entry_selected_witness :
  selectedCount (entries (dom (step (Resize 500) (step (EntryActivate 3) desktopFour)))) = 1.
Proof.
  destruct (exactly_one_entry_selected (samplePage fourEntries)
              (step (Resize 500) (step (EntryActivate 3) desktopFour))) as [H _].
  - vm_compute; reflexivity.
  - vm_compute; reflexivity.
  - vm_compute; reflexivity.
  - apply reachableFrom_step, reachableFrom_step, reachableFrom_load.
  - exact H.
Defined.

Lemma flags_select (es : list Element) (k : nat) :
  k < length es →
  isSelected <$> alter (classList_add "selected") k (deselectAll es)
  = (λ j, bool_decide (j = k)) <$> seq 0 (length es).
Proof.
  intros Hk. apply list_eq. intros j. rewrite !list_lookup_fmap.
  pose proof (selected_alter es k j Hk) as Hs.
  destruct (decide (j < length es)) as [Hj|Hj].
  - rewrite lookup_seq_lt by done. simpl.
    destruct (lookup_lt_is_Some_2 (alter (classList_add "selected") k (deselectAll es)) j)
      as [e He]; [by rewrite length_alter_deselect|].
    rewrite He in Hs |- *. simpl. by rewrite Hs.
  - rewrite lookup_seq_ge by lia.
    rewrite (proj2 (lookup_ge_None _ j)); [done|]. rewrite length_alter_deselect. lia.
Qed.

(** X10.  Activating the [k]-th entry on a desktop viewport leaves that
    entry and no other selected, so that the tick would go on from [k]; it
    sets the pause flag, and touches neither the modal nor the scroll lock
    nor the theme. *)
Theorem desktop_activation_selects (k : nat) (st : State) :
  entryListeners st = true → isMobile st = false → k < length (entries (dom st)) →
  let st1 := step (EntryActivate k) st in
  selectedFlags st1 = (λ j, bool_decide (j = k)) <$> seq 0 (length (entries (dom st)))
  ∧ activeIndex st1 = Z.of_nat k
  ∧ firstSelected st1 = Z.of_nat k
  ∧ carouselPaused st1 = true
  ∧ modalOpen st1 = modalOpen st ∧ scrollLocked st1 = scrollLocked st
  ∧ isDark st1 = isDark st.
Proof.
  intros Hl Hm Hk st1. subst st1. unfold step. rewrite Hl.
  destruct (lookup_lt_is_Some_2 _ _ Hk) as [entry He].
  destruct (selectEntry_desktop k st Hm) as (st3 & Hq & E & E'); [by eexists|].
  assert (Hes : entries (dom (selectEntry k true st))
                = alter (classList_add "selected") k (deselectAll (entries (dom st)))).
  { unfold selectEntry. rewrite He, Hm. unfold pauseCarousel.
    transitivity (entries (dom (selectAt k (update_dom
      (λ d, with_entries (deselectAll (entries d)) d) st)))); [|done].
    case_match.
    - rewrite (kept_entries _ _ (pageKept_pauseProgressBar _)),
        (kept_entries _ _ (pageKept_stopCarousel _)). simpl.
      by rewrite entries_updateImageVisibility.
    - by rewrite (kept_entries _ _ (pageKept_pauseProgressBar _)),
        (kept_entries _ _ (pageKept_stopCarousel _)). }
  split_and!.
  - unfold selectedFlags. rewrite Hes. by apply flags_select.
  - unfold activeIndex. rewrite Hes, scanSelected_alter by done. lia.
  - destruct (scanSelected_first (entries (dom (selectEntry k true st))) 0 (-1))
      as (j & e & Hq' & _ & Hs).
    { rewrite Hes. by apply selectedCount_select. }
    unfold firstSelected. rewrite Hq'. rewrite Hes, scanSelected_alter in Hs by done. lia.
  - rewrite E. apply pauseCarousel_paused.
  - apply modalOpen_kept. by apply kept_selectEntry_desktop, kept_refl.
  - apply scrollLocked_kept. by apply kept_selectEntry_desktop, kept_refl.
  - pose proof (kept_selectEntry st k true st (kept_refl _ _)) as Ht.
    unfold kept, themeView in Ht. injection Ht as Ht _ _ _ _. unfold isDark. by rewrite Ht.
Qed.

Lemma desktop_activation_selects_witness :
  selectedFlags (step (EntryActivate 2) desktopFour) = [false; false; true; false].
Proof.
  destruct (desktop_activation_selects 2 desktopFour) as [H _].
  - vm_compute; reflexivity.
  - vm_compute; reflexivity.
  - vm_compute. lia.
  - rewrite H. vm_compute; reflexivity.
Defined.

(** ** Resizes *)

Lemma with_wasMobile_same (st : State) : with_wasMobile (wasMobile st) st = st.
Proof. by destruct st. Qed.

(** X11.  A resize that stays on its side of the breakpoint, in a state
    whose recorded mode is the mode of the viewport, changes the width and
    nothing else: no timer, no class, not the pause flag.  The recorded mode
    is the mode of the viewport in every state reached on a page whose image
    ids are plain tokens. *)
Theorem resize_within_mode (page : Dom) (w : Z) (st : State) :
  (plainPage page = true → reachableFrom page st → wasMobile st = isMobile st)
  ∧ (wasMobile st = isMobile st → ((w ≤ 768)%Z ↔ (innerWidth st ≤ 768)%Z) →
     step (Resize w) st = with_innerWidth w st).
Proof.
  split.
  - intros Hp Hr. by destruct (reachableFrom_Inv page st Hp Hr) as (_ & _ & Hm).
  - intros Hm Hw. unfold step. set (s0 := with_innerWidth w st).
    assert (Hm0 : isMobile s0 = isMobile st).
    { unfold isMobile. simpl.
      destruct (Z.leb_spec w 768), (Z.leb_spec (innerWidth st) 768); try done; lia. }
    rewrite handleResize_same by (rewrite Hm0; exact Hm). cbn [outcome_state].
    rewrite Hm0, <- Hm. apply (with_wasMobile_same s0).
Qed.

Lemma resize_within_mode_witness :
  step (Resize 1280) desktopFour = with_innerWidth 1280 desktopFour.
Proof.
  destruct (resize_within_mode (samplePage fourEntries) 1280 desktopFour) as [H1 H2].
  apply H2.
  - apply H1; [vm_compute; reflexivity|apply reachableFrom_load].
  - vm_compute. split; intros H; exfalso; apply H; reflexivity.
Defined.

Lemma showcase_seedMobileShowcase (st : State) :
  showcase (dom (seedMobileShowcase st)) = showcase (dom st)
  ∧ showcaseWrapper (dom (seedMobileShowcase st)) = showcaseWrapper (dom st).
Proof. unfold seedMobileShowcase. by repeat case_match. Qed.

(** X12.  From a desktop viewport with the modal closed, a resize down to
    mobile and back up leaves the selection and the showcase as they were,
    sets no fade, clears the pause flag and, on a page with entries and a
    showcase, leaves the carousel running: a pause by the user does not
    survive the round trip. *)
Theorem resize_round_trip (wm wd : Z) (st : State) :
  reachable st → isMobile st = false → modalOpen st = false →
  (wm ≤ 768)%Z → (768 < wd)%Z →
  let st2 := run [Resize wm; Resize wd] st in
  selectedFlags st2 = selectedFlags st
  ∧ shownImage st2 = shownImage st ∧ fading st2 = fading st
  ∧ modalOpen st2 = false ∧ carouselPaused st2 = false
  ∧ (entries (dom st) ≠ [] → is_Some (showcase (dom st)) → carouselRunning st2 = true).
Proof.
  intros Hr Hm Ho Hwm Hwd st2.
  set (s0 := with_innerWidth wm st).
  set (s1 := step (Resize wm) st).
  assert (Hm0 : isMobile s0 = true) by (unfold isMobile; simpl; apply Z.leb_le; lia).
  assert (H1 : wasMobile s1 = true ∧ kept Selection st s1 ∧ kept Modal st s1
               ∧ showcase (dom s1) = showcase (dom st)
               ∧ showcaseWrapper (dom s1) = showcaseWrapper (dom st)).
  { subst s1. unfold step. fold s0. destruct (wasMobile st) eqn:Hw.
    - rewrite handleResize_same by (rewrite Hm0; exact Hw). cbn [outcome_state].
      rewrite Hm0. unfold s0. split_and!; auto using kept_refl with kept.
    - rewrite handleResize_down by done. cbn [outcome_state].
      split_and!; [done|unfold s0; auto 10 using kept_refl with kept..| |].
      + change (showcase (dom (seedMobileShowcase (pauseProgressBar (stopCarousel s0))))
                = showcase (dom st)).
        rewrite (proj1 (showcase_seedMobileShowcase _)).
        rewrite (kept_showcase _ _ (pageKept_pauseProgressBar _)).
        by rewrite stopCarousel_dom.
      + change (showcaseWrapper
                  (dom (seedMobileShowcase (pauseProgressBar (stopCarousel s0))))
                = showcaseWrapper (dom st)).
        rewrite (proj2 (showcase_seedMobileShowcase _)).
        rewrite (kept_wrapper _ _ (pageKept_pauseProgressBar _)).
        by rewrite stopCarousel_dom. }
  destruct H1 as (Hw1 & Hk1 & Hmod1 & Hsc1 & Hwr1).
  assert (Hr1 : reachable s1) by (by apply reachable_step).
  pose proof (reachable_coherent s1 Hr1) as Hc1.
  assert (Ho1 : modalOpen s1 = false) by (by rewrite (modalOpen_kept st s1 Hmod1)).
  set (s1' := with_innerWidth wd s1).
  assert (Hw1' : wasMobile s1' = true) by exact Hw1.
  assert (Hm1 : isMobile s1' = false) by (unfold isMobile; simpl; lia).
  assert (E2 : handleResize s1'
               = Returned (with_wasMobile false
                             (startCarousel (with_carouselPaused false s1')))).
  { rewrite handleResize_up by done.
    by rewrite (carryModalSelection_idle s1') by exact Ho1. }
  assert (E3 : st2 = with_wasMobile false (startCarousel (with_carouselPaused false s1'))).
  { subst st2. change (run [Resize wm; Resize wd] st) with (outcome_state (handleResize s1')).
    by rewrite E2. }
  assert (Hk : kept Selection st st2).
  { rewrite E3. unfold s1'. auto 12 using kept_refl with kept. }
  assert (Hsc : showcase (dom st2) = showcase (dom st)
                ∧ showcaseWrapper (dom st2) = showcaseWrapper (dom st)).
  { rewrite E3. unfold s1'. simpl.
    rewrite (kept_showcase _ _ (pageKept_startCarousel _)),
      (kept_wrapper _ _ (pageKept_startCarousel _)). simpl. by rewrite Hsc1, Hwr1. }
  destruct Hsc as [Hsc Hwr].
  split_and!.
  - exact Hk.
  - unfold shownImage. by rewrite Hsc.
  - unfold fading. by rewrite Hwr.
  - rewrite E3. rewrite <- Ho1. apply modalOpen_kept. unfold s1'.
    auto 10 using kept_refl with kept.
  - rewrite E3. simpl. by rewrite startCarousel_paused.
  - intros He Hs.
    assert (Hsh : shape s1' = shape st) by (apply (shape_step (Resize wm) st)).
    rewrite E3. apply (handleResize_up_restarts s1' _ Hc1 Hw1' Hm1); [| |exact E2].
    + by apply (shape_entries_nil st).
    + by apply (shape_showcase st).
Qed.

Lemma resize_round_trip_witness :
  let st := step (EntryActivate 2) desktopFour in
  carouselPaused st = true
  ∧ carouselPaused (run [Resize 500; Resize 1024] st) = false
  ∧ selectedFlags (run [Resize 500; Resize 1024] st) = selectedFlags st.
Proof.
  intros st.
  destruct (resize_round_trip 500 1024 st) as (H1 & _ & _ & _ & H2 & _).
  - apply reachable_step, reachable_load.
  - vm_compute; reflexivity.
  - vm_compute; reflexivity.
  - lia.
  - lia.
  - split_and!; [vm_compute; reflexivity|exact H2|exact H1].
Defined.

(** ** The progress bar *)

Lemma progressRun_runs (st : State) (pb bar : Element) :
  carouselProgress (dom st) = Some pb → carouselProgressBar (dom st) = Some bar →
  carouselProgress (dom (progressRun st)) = Some (classList_add "running" pb)
  ∧ carouselProgressBar (dom (progressRun st))
    = Some (setStyle "width" "100%" (setStyle "transition" "width 10s linear" bar)).
Proof. intros Hp Hb. unfold progressRun. by rewrite Hp, Hb. Qed.

(** What the bar shows once the frame callbacks have run. *)
Lemma frames_run (cbs : list FrameCallback) (st : State) (pb bar : Element) :
  cbs ≠ [] →
  carouselProgress (dom st) = Some pb → carouselProgressBar (dom st) = Some bar →
  let st' := foldl (λ s cb, runFrame cb s) st cbs in
  barStyle "width" st' = Some "100%"
  ∧ barStyle "transition" st' = Some "width 10s linear"
  ∧ progressClass "running" st' = true
  ∧ progressClass "paused" st' = classList_contains "paused" pb.
Proof.
  revert st pb bar. induction cbs as [|cb cbs IH]; intros st pb bar Hne Hp Hb; [done|].
  destruct cb. simpl.
  destruct (progressRun_runs st pb bar Hp Hb) as [Hp1 Hb1].
  destruct cbs as [|cb' cbs'].
  - simpl. unfold barStyle, progressClass. rewrite Hp1, Hb1. simpl. split_and!.
    + by rewrite lookup_insert_eq.
    + rewrite lookup_insert_ne by done. by rewrite lookup_insert_eq.
    + apply contains_add.
    + by apply contains_add_ne.
  - destruct (IH (progressRun st) _ _ ltac:(done) Hp1 Hb1) as (I1 & I2 & I3 & I4).
    split_and!; try done. cbv zeta in I4. rewrite I4. by apply contains_add_ne.
Qed.

Lemma frames_animationFrame (st : State) : frames (animationFrame st) = [].
Proof.
  unfold animationFrame.
  assert (H : frames (with_frames [] st) = []) by done.
  generalize dependent (with_frames [] st).
  induction (frames st) as [|cb cbs IH]; intros s H; simpl; [done|].
  apply IH. destruct cb. simpl. unfold progressRun. by repeat case_match.
Qed.

(** X13.  [startProgressBar] first resets the bar: no [running] or [paused]
    class, no transition, width 0%.  The animation frame it requests then
    sets the 10 s transition to 100% and the [running] class. *)
Theorem progress_bar_restarts_from_zero (st : State) (pb bar : Element) :
  carouselProgress (dom st) = Some pb → carouselProgressBar (dom st) = Some bar →
  let st1 := startProgressBar st in
  let st2 := step AnimationFrame st1 in
  (barStyle "width" st1 = Some "0%" ∧ barStyle "transition" st1 = Some "none"
   ∧ progressClass "running" st1 = false ∧ progressClass "paused" st1 = false)
  ∧ (barStyle "width" st2 = Some "100%"
     ∧ barStyle "transition" st2 = Some "width 10s linear"
     ∧ progressClass "running" st2 = true ∧ progressClass "paused" st2 = false)
  ∧ frames st2 = [].
Proof.
  intros Hp Hb st1 st2.
  assert (E1 : st1 = requestAnimationFrame ProgressRun
            (update_dom (λ d, with_carouselProgressBar
                (setStyle "width" "0%" (setStyle "transition" "none" bar))
                (with_carouselProgress
                   (classList_remove "running" (classList_remove "paused" pb)) d))
               (with_progressBar true st))).
  { subst st1. unfold startProgressBar. by rewrite Hp, Hb. }
  assert (Hrun : classList_contains "running"
                   (classList_remove "running" (classList_remove "paused" pb)) = false)
    by apply contains_remove.
  assert (Hpau : classList_contains "paused"
                   (classList_remove "running" (classList_remove "paused" pb)) = false).
  { unfold classList_contains, classList_remove. simpl. apply bool_decide_eq_false_2.
    rewrite !elem_of_difference, !elem_of_singleton. tauto. }
  destruct (frames_run (frames st1) (with_frames [] st1)
              (classList_remove "running" (classList_remove "paused" pb))
              (setStyle "width" "0%" (setStyle "transition" "none" bar)))
    as (R1 & R2 & R3 & R4).
  { rewrite E1. simpl. by destruct (frames st). }
  { by rewrite E1. }
  { by rewrite E1. }
  cbv zeta in R4. rewrite Hpau in R4.
  split_and!; try done.
  - rewrite E1. unfold barStyle. simpl. by rewrite lookup_insert_eq.
  - rewrite E1. unfold barStyle. simpl. rewrite lookup_insert_ne by done.
    by rewrite lookup_insert_eq.
  - by rewrite E1.
  - by rewrite E1.
  - apply frames_animationFrame.
Qed.

Lemma progress_bar_restarts_from_zero_witness :
  barStyle "width" desktopFour = Some "0%"
  ∧ barStyle "width" (step AnimationFrame desktopFour) = Some "100%".
Proof.
  destruct (progress_bar_restarts_from_zero
              (stopCarousel (setupToggleButton (init (fresh (samplePage fourEntries) 1024
                 (StorageItems ∅) (Some true) false))))
              (element ["carousel-progress"] []) (element ["carousel-progress-bar"] []))
    as ((H1 & _) & (H2 & _) & _).
  - vm_compute; reflexivity.
  - vm_compute; reflexivity.
  - split.
    + etrans; [|exact H1]. vm_compute; reflexivity.
    + etrans; [|exact H2]. vm_compute; reflexivity.
Defined.

(** X14.  A pause that comes between [startProgressBar] and the animation
    frame it requested does not cancel the frame: when the frame runs, the
    bar is sent to 100% over 10 s and the indicator carries both the
    [paused] and the [running] class. *)
Theorem pause_keeps_requested_frame (st : State) (pb bar : Element) :
  carouselProgress (dom st) = Some pb → carouselProgressBar (dom st) = Some bar →
  let st1 := pauseProgressBar (startProgressBar st) in
  let st2 := step AnimationFrame st1 in
  (progressClass "paused" st1 = true ∧ progressClass "running" st1 = false
   ∧ barStyle "width" st1 = Some "0%")
  ∧ (progressClass "paused" st2 = true ∧ progressClass "running" st2 = true
     ∧ barStyle "width" st2 = Some "100%"
     ∧ barStyle "transition" st2 = Some "width 10s linear").
Proof.
  intros Hp Hb st1 st2.
  set (pb1 := classList_add "paused" (classList_remove "running"
                (classList_remove "running" (classList_remove "paused" pb)))).
  set (bar1 := setStyle "width" "0%" (setStyle "transition" "none" bar)).
  assert (E : carouselProgress (dom st1) = Some pb1
              ∧ carouselProgressBar (dom st1) = Some bar1
              ∧ frames st1 = frames st ++ [ProgressRun]).
  { subst st1. unfold startProgressBar. rewrite Hp, Hb. by unfold pauseProgressBar. }
  destruct E as (E1 & E2 & E3).
  assert (Hpau : classList_contains "paused" pb1 = true) by apply contains_add.
  assert (Hrun : classList_contains "running" pb1 = false).
  { subst pb1. rewrite contains_add_ne by done. apply contains_remove. }
  destruct (frames_run (frames st1) (with_frames [] st1) pb1 bar1) as (R1 & R2 & R3 & R4);
    [rewrite E3; by destruct (frames st)|done|done|].
  cbv zeta in R4. rewrite Hpau in R4.
  split_and!; try done.
  - unfold progressClass. by rewrite E1.
  - unfold progressClass. by rewrite E1.
  - unfold barStyle. rewrite E2. simpl. by rewrite lookup_insert_eq.
Qed.

Lemma pause_keeps_requested_frame_witness :
  let st := step AnimationFrame (step (EntryActivate 2) desktopFour) in
  progressClass "paused" st = true ∧ progressClass "running" st = true.
Proof.
  intros st.
  destruct (pause_keeps_requested_frame
              (stopCarousel (with_carouselPaused true (stopCarousel (setupToggleButton
                 (init (fresh (samplePage fourEntries) 1024
                    (StorageItems ∅) (Some true) false))))))
              (element ["carousel-progress"] []) (element ["carousel-progress-bar"] []))
    as (_ & (H1 & H2 & _)).
  - vm_compute; reflexivity.
  - vm_compute; reflexivity.
  - split.
    + etrans; [|exact H1]. vm_compute; reflexivity.
    + etrans; [|exact H2]. vm_compute; reflexivity.
Defined.

(** ** Restarting and pausing the carousel *)

Lemma stopCarousel_idem (st : State) : stopCarousel (stopCarousel st) = stopCarousel st.
Proof. unfold stopCarousel at 1. by rewrite stopCarousel_id. Qed.

Lemma startGuard_stopCarousel (st : State) : startGuard (stopCarousel st) = startGuard st.
Proof. unfold stopCarousel. by case_match. Qed.

(** X15.  [restartCarousel] is [startCarousel] wherever the carousel may
    start; where it may not (mobile viewport, no entry, no showcase, or
    paused) it still stops the running timer, which [startCarousel] would
    leave alone. *)
Theorem restartCarousel_cases (st : State) :
  restartCarousel st = if startGuard st then stopCarousel st else startCarousel st.
Proof.
  unfold restartCarousel. destruct (startGuard st) eqn:Hg.
  - apply startCarousel_blocked. by rewrite startGuard_stopCarousel.
  - unfold startCarousel. rewrite startGuard_stopCarousel, Hg. by rewrite stopCarousel_idem.
Qed.

(** ** Set-up at once and set-up on [DOMContentLoaded] *)

Section Bookkeeping.
Variable g : State → State.
Hypothesis Hg : Bookkeeping g.

Lemma bookkeeping_dom (st : State) : dom (g st) = dom st.
Proof using Hg. by destruct Hg. Qed.

Lemma bookkeeping_isMobile (st : State) : isMobile (g st) = isMobile st.
Proof using Hg. by destruct Hg. Qed.

Lemma bookkeeping_update_dom (f : Dom → Dom) (st : State) :
  update_dom f (g st) = g (update_dom f st).
Proof using Hg. by destruct Hg. Qed.

Lemma bookkeeping_getCurrentTheme (st : State) :
  getCurrentTheme (g st) = (fst (getCurrentTheme st), g (snd (getCurrentTheme st))).
Proof using Hg.
  destruct Hg; unfold getCurrentTheme, getStoredThemePreference, Storage_getItem; simpl;
    destruct (localStorage st); simpl; by repeat case_match.
Qed.

Lemma bookkeeping_applyTheme (theme : string) (st : State) :
  applyTheme theme (g st) = g (applyTheme theme st).
Proof using Hg. destruct Hg; unfold applyTheme; by case_match. Qed.

Lemma bookkeeping_updateButtonLabel (st : State) :
  updateButtonLabel (g st) = g (updateButtonLabel st).
Proof using Hg. destruct Hg; unfold updateButtonLabel; simpl; by case_match. Qed.

Lemma bookkeeping_updateImageVisibility (img : option string) (skip : bool) (st : State) :
  updateImageVisibility img skip (g st) = g (updateImageVisibility img skip st).
Proof using Hg.
  destruct Hg; unfold updateImageVisibility, setTimeout; simpl; by repeat case_match.
Qed.

Lemma bookkeeping_stopCarousel (st : State) : stopCarousel (g st) = g (stopCarousel st).
Proof using Hg. destruct Hg; unfold stopCarousel, clearInterval; simpl; by case_match. Qed.

Lemma bookkeeping_startProgressBar (st : State) :
  startProgressBar (g st) = g (startProgressBar st).
Proof using Hg.
  destruct Hg; unfold startProgressBar, requestAnimationFrame; simpl; by repeat case_match.
Qed.

Lemma bookkeeping_startCarousel (st : State) :
  startCarousel (g st) = g (startCarousel st).
Proof using Hg.
  unfold startCarousel.
  assert (E : startGuard (g st) = startGuard st) by (by destruct Hg).
  rewrite E. case_match; [done|].
  rewrite bookkeeping_stopCarousel, bookkeeping_startProgressBar.
  by destruct Hg.
Qed.

Lemma bookkeeping_setupEntrySelection (st : State) :
  setupEntrySelection (g st) = g (setupEntrySelection st).
Proof using Hg.
  unfold setupEntrySelection. rewrite bookkeeping_dom.
  destruct (showcase (dom st)); [|done].
  rewrite bookkeeping_update_dom.
  set (st1 := update_dom _ st).
  rewrite bookkeeping_dom, bookkeeping_isMobile.
  assert (E : match queryEntry isSelected (entries (dom st1)) with
              | Some (_, defaultEntry) =>
                  if negb (isMobile st1) then
                    match truthy (getAttribute "data-image" defaultEntry) with
                    | Some img => updateImageVisibility (Some img) true (g st1)
                    | None => g st1
                    end
                  else g st1
              | None => g st1
              end
            = g match queryEntry isSelected (entries (dom st1)) with
                | Some (_, defaultEntry) =>
                    if negb (isMobile st1) then
                      match truthy (getAttribute "data-image" defaultEntry) with
                      | Some img => updateImageVisibility (Some img) true st1
                      | None => st1
                      end
                    else st1
                | None => st1
                end).
  { repeat case_match; try done. apply bookkeeping_updateImageVisibility. }
  rewrite E. clear E.
  set (st2 := match queryEntry isSelected (entries (dom st1)) with
              | Some _ => _ | None => _ end).
  rewrite bookkeeping_isMobile. case_match; [|done]. apply bookkeeping_startCarousel.
Qed.
End Bookkeeping.

Lemma isMobile_setup (st : State) :
  isMobile (setupEntrySelection (setupToggleButton st)) = isMobile st.
Proof.
  apply isMobile_kept. unfold setupToggleButton.
  by apply kept_setupEntrySelection, kept_updateButtonLabel.
Qed.

(** X16.  Whether the script runs while the document is still loading, and
    sets the page up on [DOMContentLoaded], or runs on the loaded document
    and sets it up at once, it ends in the same state. *)
Theorem deferred_setup_same_state (page : Dom) (width : Z) (storage : Storage)
    (media : option bool) :
  step DOMContentLoaded (load page width storage media true)
  = load page width storage media false.
Proof.
  unfold load, step.
  set (F := fresh page width storage media true).
  change (fresh page width storage media false) with (with_readyStateLoading false F).
  assert (Hl : ∀ b, Bookkeeping (with_readyStateLoading b)) by constructor.
  assert (Hw : ∀ b, Bookkeeping (with_wasMobile b)) by constructor.
  unfold init. rewrite (bookkeeping_getCurrentTheme _ (Hl false)).
  pose proof (kept_getCurrentTheme Theme F F (kept_refl _ _)) as Hk.
  destruct (getCurrentTheme F) as [theme st1]. simpl in Hk |- *.
  assert (Hr1 : readyStateLoading st1 = true).
  { unfold kept, themeView in Hk. by injection Hk as _ _ _ _ ->. }
  assert (Hr2 : readyStateLoading (applyTheme theme st1) = true).
  { unfold applyTheme. by case_match. }
  rewrite Hr2. unfold initEntrySelection. rewrite Hr2. unfold initResizeTracking. simpl.
  rewrite !(bookkeeping_applyTheme _ (Hl false)). simpl.
  unfold setupToggleButton.
  rewrite !(bookkeeping_updateButtonLabel _ (Hl false)),
    !(bookkeeping_setupEntrySelection _ (Hl false)).
  rewrite (bookkeeping_updateButtonLabel _ (Hw _)),
    (bookkeeping_setupEntrySelection _ (Hw _)).
  rewrite Hr2. simpl.
  change (isMobile (with_readyStateLoading false ?s)) with (isMobile s).
  change (updateButtonLabel (applyTheme theme st1))
    with (setupToggleButton (applyTheme theme st1)).
  by rewrite isMobile_setup.
Qed.

(** ** What the start-up leaves on the page *)

Lemma init_frame (st : State) :
  entries (dom (init st)) = entries (dom st)
  ∧ showcase (dom (init st)) = showcase (dom st)
  ∧ showcaseWrapper (dom (init st)) = showcaseWrapper (dom st)
  ∧ mobileShowcase (dom (init st)) = mobileShowcase (dom st)
  ∧ innerWidth (init st) = innerWidth st
  ∧ readyStateLoading (init st) = readyStateLoading st
  ∧ timers (init st) = timers st ∧ frames (init st) = frames st
  ∧ nextTimerId (init st) = nextTimerId st ∧ clock (init st) = clock st
  ∧ carouselIntervalId (init st) = carouselIntervalId st
  ∧ carouselPaused (init st) = carouselPaused st.
Proof.
  unfold init.
  assert (E : snd (getCurrentTheme st)
              = match localStorage st with
                | StorageUnavailable =>
                    with_console (console st ++ ["Unable to access localStorage:"]) st
                | StorageItems _ => st
                end).
  { unfold getCurrentTheme, getStoredThemePreference, Storage_getItem.
    destruct (localStorage st); simpl; by try case_match. }
  destruct (getCurrentTheme st) as [theme st1]. simpl in E. subst st1.
  unfold setupToggleButton, updateButtonLabel, applyTheme.
  repeat case_match; split_and!; reflexivity.
Qed.

(** X17.  On a mobile viewport the start-up schedules nothing and writes
    to neither showcase: no carousel timer, no fade, no animation frame,
    and the mobile showcase is not seeded with the default entry. *)
Theorem load_on_mobile (page : Dom) (width : Z) (storage : Storage) (media : option bool)
    (loading : bool) :
  (width ≤ 768)%Z →
  let st := load page width storage media loading in
  timers st = [] ∧ frames st = []
  ∧ showcase (dom st) = showcase page ∧ showcaseWrapper (dom st) = showcaseWrapper page
  ∧ mobileShowcase (dom st) = mobileShowcase page
  ∧ selectedFlags st = isSelected <$> entries page
  ∧ wasMobile st = true.
Proof.
  intros Hw st. subst st. unfold load.
  set (F := fresh page width storage media loading).
  destruct (init_frame F) as (I1 & I2 & I3 & I4 & I5 & I6 & I7 & I8 & _).
  assert (Hm : isMobile (init F) = true).
  { unfold isMobile. rewrite I5. simpl. apply Z.leb_le. lia. }
  assert (E : initEntrySelection (init F)
              = if readyStateLoading (init F) then init F
                else match showcase (dom (init F)) with
                     | None => init F
                     | Some _ =>
                         update_dom (λ d, with_entries
                           ((λ e, setAttribute "role" "button" (setAttribute "tabindex" "0" e))
                              <$> entries d) d) (init F)
                     end).
  { unfold initEntrySelection, setupEntrySelection. case_match; [done|].
    case_match; [|done].
    set (st1 := update_dom _ (init F)).
    assert (Hm1 : isMobile st1 = true) by exact Hm.
    rewrite Hm1.
    destruct (queryEntry isSelected (entries (dom st1))) as [[j d]|]; simpl; by rewrite Hm1. }
  assert (Hm2 : isMobile (initEntrySelection (init F)) = true).
  { rewrite E. by repeat case_match. }
  assert (Hk : selectedFlags (initResizeTracking (initEntrySelection (init F)))
               = selectedFlags F).
  { by apply (kept_load Selection page width storage media loading). }
  unfold initResizeTracking in *. rewrite Hm2.
  split_and!; [..|exact Hk|done]; simpl; rewrite E;
    repeat case_match; subst F; simpl in *; congruence.
Qed.

Lemma load_on_mobile_witness :
  timers mobileFour = [] ∧ mobileImage mobileFour = None.
Proof.
  destruct (load_on_mobile (samplePage fourEntries) 500 (StorageItems ∅) None false)
    as (H1 & _ & _ & _ & H2 & _); [lia|].
  split; [exact H1|]. unfold mobileImage, mobileFour. by rewrite H2.
Defined.

(** X18.  On a desktop viewport, with the document loaded, the start-up
    shows the image of the first entry the markup marks as selected, at
    once: the showcase takes the image id, no fade is set, the selection is
    as in the markup, and the one timer is the carousel's, due after 10 s. *)
Theorem load_on_desktop (page : Dom) (width : Z) (storage : Storage) (media : option bool)
    (sc wrapper : Element) (k : nat) (entry : Element) (img : string) :
  (768 < width)%Z →
  showcase page = Some sc → showcaseWrapper page = Some wrapper →
  queryEntry isSelected (entries page) = Some (k, entry) →
  truthy (getAttribute "data-image" entry) = Some img →
  let st := load page width storage media false in
  shownImage st = Some img
  ∧ fading st = classList_contains "fading" wrapper
  ∧ selectedFlags st = isSelected <$> entries page
  ∧ timers st = [mkTimer 1 CAROUSEL_INTERVAL (Some CAROUSEL_INTERVAL) CarouselTick]
  ∧ carouselIntervalId st = Some 1
  ∧ wasMobile st = false.
Proof.
  intros Hw Hsc Hwr Hq Hi st. subst st. unfold load.
  set (F := fresh page width storage media false).
  destruct (init_frame F) as (I1 & I2 & I3 & I4 & I5 & I6 & I7 & I8 & I9 & I10 & I11 & I12).
  assert (Hm : isMobile (init F) = false).
  { unfold isMobile. rewrite I5. simpl. apply Z.leb_gt. lia. }
  set (label := λ e, setAttribute "role" "button" (setAttribute "tabindex" "0" e)).
  set (st1 := update_dom (λ d, with_entries (label <$> entries d) d) (init F)).
  set (st2 := update_dom (with_showcase (setAttribute "data-selected" img sc)) st1).
  assert (Hq1 : queryEntry isSelected (entries (dom st1)) = Some (k, label entry)).
  { subst st1. simpl. rewrite I1. simpl.
    rewrite queryEntry_fmap by done. by rewrite Hq. }
  assert (E : initEntrySelection (init F) = startCarousel st2).
  { assert (Hl : readyStateLoading (init F) = false) by (by rewrite I6).
    assert (Hs0 : showcase (dom (init F)) = Some sc) by (by rewrite I2).
    unfold initEntrySelection. rewrite Hl. unfold setupEntrySelection. rewrite Hs0.
    change (update_dom _ (init F)) with st1. cbv zeta. rewrite Hq1.
    assert (Hm1 : isMobile st1 = false) by exact Hm. rewrite Hm1.
    assert (Hi1 : truthy (getAttribute "data-image" (label entry)) = Some img).
    { subst label. cbv beta. by rewrite !getAttribute_setAttribute_ne. }
    rewrite Hi1.
    assert (Hu : updateImageVisibility (Some img) true st1 = st2).
    { unfold updateImageVisibility.
      assert (Hs1 : showcase (dom st1) = Some sc) by exact Hs0.
      assert (Hw1 : showcaseWrapper (dom st1) = Some wrapper)
        by (change (showcaseWrapper (dom (init F)) = Some wrapper); by rewrite I3).
      by rewrite Hs1, Hw1, (truthy_idem _ _ Hi). }
    change (negb false) with true. cbv iota. rewrite Hu.
    assert (Hm2 : isMobile st2 = false) by exact Hm. by rewrite Hm2. }
  rewrite E.
  assert (Hg : startGuard st2 = false).
  { apply startGuard_false. split_and!.
    - exact Hm.
    - subst st2 st1. simpl. rewrite I1. simpl. intros Hnil.
      apply fmap_nil_inv in Hnil. by rewrite Hnil in Hq.
    - by eexists.
    - subst st2 st1. simpl. by rewrite I12. }
  assert (Hno : stopCarousel st2 = st2).
  { unfold stopCarousel. subst st2 st1. simpl. by rewrite I11. }
  pose proof (pageKept_startCarousel st2) as [K1 K2 K3 _ _].
  assert (Ht : timers (startCarousel st2)
               = [mkTimer 1 CAROUSEL_INTERVAL (Some CAROUSEL_INTERVAL) CarouselTick]
               ∧ carouselIntervalId (startCarousel st2) = Some 1).
  { rewrite startCarousel_started by done. unfold readied. rewrite Hno.
    assert (Hp : timers (startProgressBar st2) = [] ∧ nextTimerId (startProgressBar st2) = 1
                 ∧ clock (startProgressBar st2) = 0%Z).
    { unfold startProgressBar. subst st2 st1.
      repeat case_match; simpl; by rewrite ?I7, ?I9, ?I10. }
    destruct Hp as (P1 & P2 & P3). simpl. by rewrite P1, P2, P3. }
  destruct Ht as [Ht1 Ht2].
  unfold initResizeTracking.
  assert (Hm3 : isMobile (startCarousel st2) = false).
  { rewrite (isMobile_width st2); [exact Hm|].
    apply (steady_width _ _ (steady_startCarousel _)). }
  rewrite Hm3. unfold shownImage, fading, selectedFlags. simpl.
  rewrite K1, K2, K3. split_and!; try done.
  - subst st2. simpl. unfold getAttribute, setAttribute. simpl. by rewrite lookup_insert_eq.
  - subst st2 st1. simpl. rewrite I3.
    change (showcaseWrapper (dom F)) with (showcaseWrapper page). by rewrite Hwr.
  - subst st2 st1. simpl. rewrite I1. apply selected_labelEntries.
Qed.

Lemma load_on_desktop_witness :
  shownImage desktopFour = Some "B" ∧ fading desktopFour = false.
Proof.
  destruct (load_on_desktop (samplePage fourEntries) 1024 (StorageItems ∅) (Some true)
              (element ["showcase"] [("data-selected", "ai-web")])
              (element ["showcase-image-wrapper"] []) 1 (sampleEntry "B" true) "B")
    as (H1 & H2 & _).
  - lia.
  - reflexivity.
  - reflexivity.
  - vm_compute; reflexivity.
  - vm_compute; reflexivity.
  - split; [exact H1|]. etrans; [exact H2|]. vm_compute; reflexivity.
Defined.

(** ** The theme-transition marker, in time *)

Lemma transitioning_page (s s' : State) :
  documentElement (dom s') = documentElement (dom s) → transitioning s' = transitioning s.
Proof. unfold transitioning. by intros ->. Qed.

Lemma documentElement_startProgressBar (s : State) :
  documentElement (dom (startProgressBar s)) = documentElement (dom s).
Proof. unfold startProgressBar, requestAnimationFrame. by repeat case_match. Qed.

Lemma documentElement_updateImageVisibility (v : option string) (skip : bool) (s : State) :
  documentElement (dom (updateImageVisibility v skip s)) = documentElement (dom s).
Proof. unfold updateImageVisibility, setTimeout. by repeat case_match. Qed.

Lemma documentElement_fadeSwap (img : string) (s : State) :
  documentElement (dom (fadeSwap img s)) = documentElement (dom s).
Proof. unfold fadeSwap. by repeat case_match. Qed.

Lemma documentElement_carouselTick (s : State) :
  documentElement (dom (outcome_state (carouselTick s))) = documentElement (dom s).
Proof.
  unfold carouselTick. destruct (isMobile s || carouselPaused s); simpl.
  - by rewrite stopCarousel_dom.
  - destruct (nodeAt _ _) as [[k entry]|]; simpl; [|done].
    rewrite documentElement_startProgressBar.
    destruct (truthy _); [by rewrite documentElement_updateImageVisibility|done].
Qed.

Lemma fadeSwap_frame (img : string) (s : State) :
  clock (fadeSwap img s) = clock s ∧ timers (fadeSwap img s) = timers s
  ∧ nextTimerId (fadeSwap img s) = nextTimerId s
  ∧ carouselIntervalId (fadeSwap img s) = carouselIntervalId s.
Proof. unfold fadeSwap. by repeat case_match. Qed.

(** No timer sets the marker. *)
Lemma cleared_fireTimer (i : nat) (s : State) :
  transitioning s = false → transitioning (fireTimer i s) = false.
Proof.
  intros Hs. unfold fireTimer. destruct (List.find (hasId i) (timers s)) as [t|]; [|done].
  set (s1 := match period t with Some p => reschedule i p s | None => clearInterval i s end).
  assert (H1 : transitioning s1 = false).
  { rewrite <- Hs. apply transitioning_page. subst s1. by destruct (period t). }
  destruct (callback t); simpl.
  - rewrite <- H1. apply transitioning_page, documentElement_fadeSwap.
  - unfold transitioning, themeTransitionEnd, getAttribute, removeAttribute. simpl.
    apply bool_decide_eq_false_2. rewrite lookup_delete_eq. by intros [? ?].
  - rewrite <- H1. apply transitioning_page, documentElement_carouselTick.
Qed.

Lemma cleared_fireTimers (ids : list nat) (s : State) :
  transitioning s = false → transitioning (foldl (λ s id, fireTimer id s) s ids) = false.
Proof.
  revert s. induction ids as [|i ids IH]; intros s Hs; simpl; [done|].
  by apply IH, cleared_fireTimer.
Qed.

Section MarkerWindow.

Variable ours : Timer.
Variable c : Z.
Hypothesis ours_theme : isThemeTimer ours = true.

Lemma idle_ne (i : nat) (s : State) :
  markerPending ours c s → idle i s → i ≠ timerId ours.
Proof using ours_theme.
  intros Hp [_ Hi] ->. rewrite (Hi ours) in ours_theme; [done| |done]. by destruct Hp.
Qed.

Lemma mp_clearInterval (i : nat) (s : State) :
  i ≠ timerId ours → markerPending ours c s → markerPending ours c (clearInterval i s).
Proof.
  intros Hi [Hc Hwf Hid Hm Ho Hf]. constructor; try done.
  - by apply (steady_wf _ _ (steady_clearInterval i s)).
  - unfold clearInterval. simpl. apply list_elem_of_In, List.filter_In.
    split; [by apply list_elem_of_In|].
    destruct (Nat.eqb_spec (timerId ours) i); [congruence|done].
  - intros u Hu. apply Hf. unfold clearInterval in Hu. simpl in Hu.
    apply list_elem_of_In, List.filter_In in Hu as [Hu _]. by apply list_elem_of_In.
Qed.

Lemma idle_clearInterval (i j : nat) (s : State) : idle j s → idle j (clearInterval i s).
Proof.
  intros [H1 H2]. split; [done|].
  intros u Hu. apply H2. unfold clearInterval in Hu. simpl in Hu.
  apply list_elem_of_In, List.filter_In in Hu as [Hu _]. by apply list_elem_of_In.
Qed.

Lemma mp_reschedule (i : nat) (p : Z) (s : State) :
  idle i s → markerPending ours c s → markerPending ours c (reschedule i p s).
Proof using ours_theme.
  intros Hi Hp. pose proof (idle_ne i s Hp Hi) as Hne.
  destruct Hp as [Hc Hwf Hid Hm Ho Hf]. constructor; try done.
  - by apply (calm_wf _ _ (quiet_calm _ _ (quiet_reschedule i p s))).
  - unfold reschedule. simpl. apply list_elem_of_fmap. exists ours. split; [|done].
    unfold hasId. destruct (Nat.eqb_spec (timerId ours) i); [congruence|done].
  - intros u' Hu' Ht. unfold reschedule in Hu'. simpl in Hu'.
    apply list_elem_of_fmap in Hu' as (u & -> & Hu).
    destruct (hasId i u) eqn:Hh; [|by apply Hf].
    unfold hasId in Hh. apply Nat.eqb_eq in Hh.
    destruct Hi as [_ Hi]. specialize (Hi u Hu Hh).
    unfold isThemeTimer in *. simpl in Ht. congruence.
Qed.

Lemma idle_reschedule (i j : nat) (p : Z) (s : State) :
  idle j s → idle j (reschedule i p s).
Proof.
  intros [H1 H2]. split; [done|].
  intros u' Hu' Hid'. unfold reschedule in Hu'. simpl in Hu'.
  apply list_elem_of_fmap in Hu' as (u & -> & Hu).
  destruct (hasId i u); [|by apply H2].
  simpl in *. by specialize (H2 u Hu Hid').
Qed.

(** A change that leaves the marker and the timer table. *)
Lemma mp_page (s s' : State) :
  clock s' = clock s → timers s' = timers s → nextTimerId s' = nextTimerId s →
  carouselIntervalId s' = carouselIntervalId s ∨ carouselIntervalId s' = None →
  transitioning s' = transitioning s →
  markerPending ours c s → markerPending ours c s'.
Proof.
  intros Hc Ht Hn Hi Hm [? ? ? ? ? ?]. constructor.
  - congruence.
  - unfold wfTimers, timerIds in *. by rewrite Ht, Hn.
  - destruct Hi as [-> | ->]; done.
  - congruence.
  - by rewrite Ht.
  - by rewrite Ht.
Qed.

Lemma idle_page (j : nat) (s s' : State) :
  timers s' = timers s → nextTimerId s' = nextTimerId s → idle j s → idle j s'.
Proof. intros Ht Hn [H1 H2]. unfold idle. by rewrite Ht, Hn. Qed.

Lemma mp_stopCarousel (s : State) :
  markerPending ours c s → markerPending ours c (stopCarousel s).
Proof.
  intros Hp. unfold stopCarousel.
  destruct (carouselIntervalId s) as [i|] eqn:Hi; [|done].
  apply (mp_page (clearInterval i s)); try done; [by right|].
  apply mp_clearInterval; [|done]. intros ->. by destruct Hp.
Qed.

Lemma idle_stopCarousel (j : nat) (s : State) : idle j s → idle j (stopCarousel s).
Proof.
  intros Hj. unfold stopCarousel.
  destruct (carouselIntervalId s) as [i|] eqn:Hi; [|done].
  apply (idle_page j (clearInterval i s)); try done. by apply idle_clearInterval.
Qed.

(** A timeout set while [ours] is pending: one that removes the marker
    must not be due before [ours]. *)
Lemma mp_setTimeout (cb : Callback) (delay : Z) (s : State) :
  cb ≠ CarouselTick → (cb = ThemeTransitionEnd → (due ours ≤ clock s + delay)%Z) →
  markerPending ours c s → markerPending ours c (setTimeout cb delay s).
Proof.
  intros Hcb Hlate [Hc Hwf Hid Hm Ho Hf]. constructor; try done.
  - by apply (calm_wf _ _ (quiet_calm _ _ (quiet_setTimeout cb delay s Hcb))).
  - unfold setTimeout. simpl. apply elem_of_app. by left.
  - intros u Hu Ht. unfold setTimeout in Hu. simpl in Hu.
    apply elem_of_app in Hu as [Hu|Hu]; [by apply Hf|].
    apply list_elem_of_singleton in Hu as ->. simpl. apply Hlate.
    unfold isThemeTimer in Ht. simpl in Ht. by destruct cb.
Qed.

Lemma idle_setTimeout (j : nat) (cb : Callback) (delay : Z) (s : State) :
  idle j s → idle j (setTimeout cb delay s).
Proof.
  intros [H1 H2]. split; [simpl; lia|].
  simpl. intros u Hu Hid. apply elem_of_app in Hu as [Hu|Hu]; [by apply H2|].
  apply list_elem_of_singleton in Hu as ->. simpl in Hid. lia.
Qed.

Lemma mp_updateImageVisibility (v : option string) (skip : bool) (s : State) :
  markerPending ours c s → markerPending ours c (updateImageVisibility v skip s).
Proof.
  intros Hp. unfold updateImageVisibility.
  destruct (showcase (dom s)) as [sc|]; [|done].
  destruct (truthy v) as [x|]; [|done].
  destruct (showcaseWrapper (dom s)) as [wr|]; [|done].
  destruct skip.
  - apply (mp_page s); try done. by left.
  - apply mp_setTimeout; [done|done|]. apply (mp_page s); try done. by left.
Qed.

Lemma idle_updateImageVisibility (j : nat) (v : option string) (skip : bool) (s : State) :
  idle j s → idle j (updateImageVisibility v skip s).
Proof.
  intros Hj. unfold updateImageVisibility.
  destruct (showcase (dom s)) as [sc|]; [|done].
  destruct (truthy v) as [x|]; [|done].
  destruct (showcaseWrapper (dom s)) as [wr|]; [|done].
  destruct skip.
  - by apply (idle_page j s).
  - apply idle_setTimeout. by apply (idle_page j s).
Qed.

Lemma mp_startProgressBar (s : State) :
  markerPending ours c s → markerPending ours c (startProgressBar s).
Proof.
  apply mp_page; unfold startProgressBar, requestAnimationFrame; repeat case_match;
    done || by left.
Qed.

Lemma idle_startProgressBar (j : nat) (s : State) : idle j s → idle j (startProgressBar s).
Proof.
  apply idle_page; unfold startProgressBar, requestAnimationFrame; by repeat case_match.
Qed.

Lemma mp_carouselTick (s : State) :
  markerPending ours c s → markerPending ours c (outcome_state (carouselTick s)).
Proof.
  intros Hp. unfold carouselTick.
  destruct (isMobile s || carouselPaused s); [by apply mp_stopCarousel|].
  set (s1 := update_dom (with_entries (deselectAll (entries (dom s)))) s).
  assert (Hp1 : markerPending ours c s1) by (apply (mp_page s); try done; by left).
  destruct (nodeAt _ _) as [[k entry]|]; simpl; [|done].
  set (s2 := update_dom _ s1).
  assert (Hp2 : markerPending ours c s2) by (apply (mp_page s1); try done; by left).
  apply mp_startProgressBar.
  destruct (truthy _); [by apply mp_updateImageVisibility|done].
Qed.

Lemma idle_carouselTick (j : nat) (s : State) :
  idle j s → idle j (outcome_state (carouselTick s)).
Proof.
  intros Hj. unfold carouselTick.
  destruct (isMobile s || carouselPaused s); [by apply idle_stopCarousel|].
  set (s1 := update_dom (with_entries (deselectAll (entries (dom s)))) s).
  assert (Hj1 : idle j s1) by (by apply (idle_page j s)).
  destruct (nodeAt _ _) as [[k entry]|]; simpl; [|done].
  set (s2 := update_dom _ s1).
  assert (Hj2 : idle j s2) by (by apply (idle_page j s1)).
  apply idle_startProgressBar.
  destruct (truthy _); [by apply idle_updateImageVisibility|done].
Qed.

(** Firing a timer that does not remove the marker keeps [ours] pending. *)
Lemma mp_fireTimer (i : nat) (s : State) :
  idle i s → markerPending ours c s →
  markerPending ours c (fireTimer i s) ∧ ∀ j, idle j s → idle j (fireTimer i s).
Proof using ours_theme.
  intros Hi Hp. unfold fireTimer.
  destruct (List.find (hasId i) (timers s)) as [t|] eqn:Hfind; [|done].
  apply List.find_some in Hfind as [Ht Hid]. apply list_elem_of_In in Ht.
  unfold hasId in Hid. apply Nat.eqb_eq in Hid.
  assert (Hnt : isThemeTimer t = false) by (destruct Hi as [_ H2]; by apply H2).
  set (s1 := match period t with Some p => reschedule i p s | None => clearInterval i s end).
  assert (Hp1 : markerPending ours c s1).
  { subst s1. destruct (period t); [by apply mp_reschedule|].
    apply mp_clearInterval; [|done]. by apply (idle_ne i s). }
  assert (Hj1 : ∀ j, idle j s → idle j s1).
  { intros j Hj. subst s1.
    destruct (period t); [by apply idle_reschedule|by apply idle_clearInterval]. }
  unfold isThemeTimer in Hnt. destruct (callback t); [|done|]; simpl.
  - destruct (fadeSwap_frame imageId s1) as (F1 & F2 & F3 & F4). split.
    + apply (mp_page s1); try done; [by left|].
      apply transitioning_page, documentElement_fadeSwap.
    + intros j Hj. apply (idle_page j s1); try done. by apply Hj1.
  - split; [by apply mp_carouselTick|].
    intros j Hj. by apply idle_carouselTick, Hj1.
Qed.

Lemma mp_fireTimers (ids : list nat) (s : State) :
  Forall (λ i, idle i s) ids → markerPending ours c s →
  markerPending ours c (foldl (λ s id, fireTimer id s) s ids).
Proof using ours_theme.
  revert s. induction ids as [|i ids IH]; intros s Hall Hp; simpl; [done|].
  inversion Hall as [|? ? Hi Hrest]; subst.
  destruct (mp_fireTimer i s Hi Hp) as [Hp' Hj'].
  apply IH; [|done]. eapply Forall_impl; [exact Hrest|]. intros j Hj. by apply Hj'.
Qed.

Lemma mp_tick_of_clock (s : State) :
  markerPending ours (c - 1) s → markerPending ours c (with_clock (clock s + 1) s).
Proof. intros [Hc ? ? ? ? ?]. constructor; try done. simpl. lia. Qed.

(** A timer that is no marker timer can be fired. *)
Lemma timer_idle (s : State) (u : Timer) :
  wfTimers s → u ∈ timers s → isThemeTimer u = false → idle (timerId u) s.
Proof.
  intros Hwf Hu Hnt. split.
  - destruct Hwf as [_ Hfr]. rewrite Forall_forall in Hfr. apply Hfr.
    unfold timerIds. apply list_elem_of_fmap. by exists u.
  - intros v Hv Heq. by rewrite (timer_unique s v u Hwf Hv Hu Heq).
Qed.

(** A millisecond that ends before [ours] is due. *)
Lemma mp_millisecond (s : State) :
  markerPending ours (c - 1) s → (c < due ours)%Z → markerPending ours c (millisecond s).
Proof using ours_theme.
  intros Hp Hlt. unfold millisecond.
  pose proof (mp_tick_of_clock s Hp) as Hp1.
  set (s1 := with_clock (clock s + 1) s) in *.
  apply mp_fireTimers; [|done].
  rewrite Forall_forall. intros i Hi.
  apply list_elem_of_fmap in Hi as (u & -> & Hu).
  apply list_elem_of_In, List.filter_In in Hu as [Hu Hdue].
  apply list_elem_of_In in Hu. apply Z.leb_le in Hdue.
  pose proof Hp1 as [Hc1 Hwf _ _ _ Hf].
  apply timer_idle; [done..|].
  destruct (isThemeTimer u) eqn:Ht; [|done]. specialize (Hf u Hu Ht). lia.
Qed.

Lemma find_marker_timer (s : State) :
  markerPending ours c s → List.find (hasId (timerId ours)) (timers s) = Some ours.
Proof.
  intros [_ Hwf _ _ Ho _]. destruct (List.find _ _) as [u|] eqn:Hfind.
  - apply List.find_some in Hfind as [Hu Hid]. apply list_elem_of_In in Hu.
    unfold hasId in Hid. apply Nat.eqb_eq in Hid. f_equal.
    by apply (timer_unique s).
  - apply list_elem_of_In in Ho.
    pose proof (List.find_none _ _ Hfind _ Ho) as Hno.
    unfold hasId in Hno. by rewrite Nat.eqb_refl in Hno.
Qed.

(** Firing any timer either keeps [ours] pending, and then it was not
    [ours], or removes the marker. *)
Lemma fireTimer_marker (i : nat) (s : State) :
  markerPending ours c s →
  (markerPending ours c (fireTimer i s) ∧ i ≠ timerId ours)
  ∨ transitioning (fireTimer i s) = false.
Proof using ours_theme.
  intros Hp. destruct (List.find (hasId i) (timers s)) as [t|] eqn:Hfind.
  - destruct (isThemeTimer t) eqn:Ht.
    + right. unfold fireTimer. rewrite Hfind.
      unfold isThemeTimer in Ht. destruct (callback t); try done. simpl.
      unfold transitioning, themeTransitionEnd, getAttribute, removeAttribute. simpl.
      apply bool_decide_eq_false_2. rewrite lookup_delete_eq. by intros [? ?].
    + left. apply List.find_some in Hfind as [Hu Hid]. apply list_elem_of_In in Hu.
      unfold hasId in Hid. apply Nat.eqb_eq in Hid. subst i.
      assert (Hi : idle (timerId t) s) by (apply timer_idle; [by destruct Hp|done..]).
      split; [by apply mp_fireTimer|by apply (idle_ne _ s)].
  - left. unfold fireTimer. rewrite Hfind. split; [done|].
    intros ->. by rewrite (find_marker_timer s Hp) in Hfind.
Qed.

Lemma fireTimers_clear (ids : list nat) (s : State) :
  markerPending ours c s → timerId ours ∈ ids →
  transitioning (foldl (λ s id, fireTimer id s) s ids) = false.
Proof using ours_theme.
  revert s. induction ids as [|i ids IH]; intros s Hp Hin; simpl.
  - by apply elem_of_nil in Hin.
  - destruct (fireTimer_marker i s Hp) as [[Hp' Hne]|Hcl].
    + apply IH; [done|]. apply elem_of_cons in Hin as [Heq|Hin]; [congruence|done].
    + by apply cleared_fireTimers.
Qed.

(** The millisecond at which [ours] is due. *)
Lemma millisecond_clears (s : State) :
  markerPending ours (c - 1) s → due ours = c → transitioning (millisecond s) = false.
Proof using ours_theme.
  intros Hp Hdue. unfold millisecond.
  pose proof (mp_tick_of_clock s Hp) as Hp1.
  set (s1 := with_clock (clock s + 1) s) in *.
  apply fireTimers_clear; [done|].
  apply list_elem_of_fmap. exists ours. split; [done|].
  apply list_elem_of_In, List.filter_In. destruct Hp1 as [Hc1 _ _ _ Ho _].
  split; [by apply list_elem_of_In|]. apply Z.leb_le. lia.
Qed.

End MarkerWindow.

Lemma mp_elapse_pending (ours : Timer) (n : nat) (s : State) :
  isThemeTimer ours = true → (clock s + Z.of_nat n < due ours)%Z →
  markerPending ours (clock s) s →
  markerPending ours (clock s + Z.of_nat n) (elapse n s).
Proof.
  intros Ht Hdue H0. induction n as [|n IH].
  - simpl. by rewrite Z.add_0_r.
  - rewrite elapse_S. apply mp_millisecond; [done| |lia].
    replace (clock s + Z.of_nat (S n) - 1)%Z with (clock s + Z.of_nat n)%Z by lia.
    apply IH. lia.
Qed.

(** From the moment the marker is set to the moment it is removed. *)
Lemma mp_elapse (ours : Timer) (d : nat) (s : State) :
  isThemeTimer ours = true → due ours = (clock s + Z.of_nat (S d))%Z →
  markerPending ours (clock s) s →
  (∀ n, n ≤ d → transitioning (elapse n s) = true)
  ∧ transitioning (elapse (S d) s) = false.
Proof.
  intros Ht Hdue H0.
  assert (Hpend : ∀ n, n ≤ d → markerPending ours (clock s + Z.of_nat n) (elapse n s)).
  { intros n Hn. apply mp_elapse_pending; [done| |done]. lia. }
  split.
  - intros n Hn. by destruct (Hpend n Hn).
  - rewrite elapse_S. apply (millisecond_clears ours (clock s + Z.of_nat (S d))); [done| |done].
    replace (clock s + Z.of_nat (S d) - 1)%Z with (clock s + Z.of_nat d)%Z by lia.
    by apply Hpend.
Qed.

Lemma toggleTheme_frame (st : State) :
  timers (snd (toggleTheme st)) = timers st ++ [themeTimer st]
  ∧ nextTimerId (snd (toggleTheme st)) = S (nextTimerId st)
  ∧ clock (snd (toggleTheme st)) = clock st
  ∧ carouselIntervalId (snd (toggleTheme st)) = carouselIntervalId st.
Proof.
  unfold toggleTheme, themeTimer. simpl.
  unfold setStoredThemePreference, applyTheme. by repeat case_match.
Qed.

Lemma transitioning_toggleTheme (st : State) : transitioning (snd (toggleTheme st)) = true.
Proof.
  unfold transitioning. rewrite dom_toggleTheme. apply bool_decide_eq_true_2.
  unfold applyTheme. case_match; simpl.
  - rewrite getAttribute_setAttribute_ne by done.
    unfold getAttribute, setAttribute. simpl. rewrite lookup_insert_eq. by eexists.
  - rewrite getAttribute_removeAttribute_ne by done.
    unfold getAttribute, setAttribute. simpl. rewrite lookup_insert_eq. by eexists.
Qed.

(** A toggle when no earlier marker timer is pending. *)
Lemma mp_toggleTheme_first (st : State) :
  wfTimers st → issued st → Forall (λ u, isThemeTimer u = false) (timers st) →
  markerPending (themeTimer st) (clock st) (snd (toggleTheme st)).
Proof.
  intros Hwf Hiss Hno. destruct (toggleTheme_frame st) as (Ht & Hn & Hc & Hi).
  constructor.
  - exact Hc.
  - apply (calm_wf _ _ (quiet_calm _ _ (quiet_toggleTheme st))), Hwf.
  - rewrite Hi. simpl. intros Heq. specialize (Hiss _ Heq). lia.
  - apply transitioning_toggleTheme.
  - rewrite Ht. apply elem_of_app. right. by apply list_elem_of_singleton.
  - intros u Hu Hth. rewrite Ht in Hu. apply elem_of_app in Hu as [Hu|Hu].
    + rewrite Forall_forall in Hno. by rewrite (Hno u Hu) in Hth.
    + by apply list_elem_of_singleton in Hu as ->.
Qed.

(** A toggle while [ours] is pending: [ours] stays the earliest. *)
Lemma mp_toggleTheme_again (ours : Timer) (c : Z) (s : State) :
  (due ours ≤ c + 300)%Z → markerPending ours c s →
  markerPending ours c (snd (toggleTheme s)).
Proof.
  intros Hdue [Hc Hwf Hid Hm Ho Hf]. destruct (toggleTheme_frame s) as (Ht & Hn & Hc' & Hi).
  constructor.
  - congruence.
  - apply (calm_wf _ _ (quiet_calm _ _ (quiet_toggleTheme s))), Hwf.
  - by rewrite Hi.
  - apply transitioning_toggleTheme.
  - rewrite Ht. apply elem_of_app. by left.
  - intros u Hu Hth. rewrite Ht in Hu. apply elem_of_app in Hu as [Hu|Hu]; [by apply Hf|].
    apply list_elem_of_singleton in Hu as ->. simpl. lia.
Qed.

Lemma mp_onToggleActivate (ours : Timer) (c : Z) (s : State) :
  markerPending ours c (snd (toggleTheme s)) → markerPending ours c (onToggleActivate s).
Proof.
  unfold onToggleActivate.
  apply mp_page; try (unfold updateButtonLabel; by case_match).
  left. unfold updateButtonLabel. by case_match.
Qed.

Lemma toggleListeners_kept (s st : State) :
  kept Theme s st → toggleListeners st = toggleListeners s.
Proof.
  unfold kept, themeView, toggleListeners. intros H. injection H as _ H2 _ _ H5.
  by rewrite H2, H5.
Qed.

Lemma toggleListeners_onToggleActivate (st : State) :
  toggleListeners (onToggleActivate st) = toggleListeners st.
Proof.
  unfold toggleListeners, onToggleActivate.
  assert (H1 : readyStateLoading (updateButtonLabel (snd (toggleTheme st)))
               = readyStateLoading st).
  { unfold updateButtonLabel, toggleTheme, setStoredThemePreference, applyTheme. simpl.
    by repeat case_match. }
  assert (H2 : is_Some (themeToggle (dom (updateButtonLabel (snd (toggleTheme st)))))
               ↔ is_Some (themeToggle (dom st))).
  { assert (H3 : themeToggle (dom (snd (toggleTheme st))) = themeToggle (dom st)).
    { rewrite dom_toggleTheme. unfold applyTheme. by case_match. }
    unfold updateButtonLabel. rewrite <- H3.
    destruct (themeToggle (dom (snd (toggleTheme st)))) as [b|] eqn:E2; [|by rewrite E2].
    simpl. split; intros _; by eexists. }
  rewrite H1. f_equal. by apply bool_decide_ext.
Qed.

(** X19.  A press of the theme button, when no earlier marker timer is
    pending, sets the [data-theme-transitioning] marker for exactly 300 ms:
    it is on the document during the 299 milliseconds that follow and
    removed at the 300th, whatever other timers run in between. *)
Theorem theme_marker_lasts_300ms (st : State) :
  reachable st → toggleListeners st = true →
  Forall (λ u, isThemeTimer u = false) (timers st) →
  let st1 := step ToggleActivate st in
  (∀ n, n < 300 → transitioning (elapse n st1) = true)
  ∧ transitioning (elapse 300 st1) = false.
Proof.
  intros Hr Hl Hno st1.
  destruct (reachable_timersSound st Hr) as [Hwf Hiss].
  assert (E : st1 = onToggleActivate st) by (subst st1; unfold step; by rewrite Hl).
  assert (Hc0 : clock st1 = clock st).
  { rewrite E. unfold onToggleActivate, updateButtonLabel.
    destruct (toggleTheme_frame st) as (_ & _ & Hc' & _). by case_match. }
  assert (Hp : markerPending (themeTimer st) (clock st1) st1).
  { rewrite Hc0, E. by apply mp_onToggleActivate, mp_toggleTheme_first. }
  destruct (mp_elapse (themeTimer st) 299 st1) as [H1 H2]; [done| |done|].
  - simpl. lia.
  - split; [|exact H2]. intros n Hn. apply H1. lia.
Qed.

Lemma theme_marker_lasts_300ms_witness :
  transitioning (elapse 299 (step ToggleActivate desktopFour)) = true
  ∧ transitioning (elapse 300 (step ToggleActivate desktopFour)) = false.
Proof.
  destruct (theme_marker_lasts_300ms desktopFour) as [H1 H2].
  - apply reachable_load.
  - vm_compute; reflexivity.
  - vm_compute. repeat constructor.
  - split; [apply H1; lia|exact H2].
Defined.

(** X20.  A second press within the 300 ms does not restart the window:
    the marker is removed when the first press's timer runs, that is
    [300 - a] milliseconds after a second press that came [a] milliseconds
    after the first. *)
Theorem theme_marker_double_toggle (st : State) (a : nat) :
  reachable st → toggleListeners st = true →
  Forall (λ u, isThemeTimer u = false) (timers st) → a < 300 →
  let st2 := step ToggleActivate (elapse a (step ToggleActivate st)) in
  (∀ n, n < 300 - a → transitioning (elapse n st2) = true)
  ∧ transitioning (elapse (300 - a) st2) = false.
Proof.
  intros Hr Hl Hno Ha st2.
  destruct (reachable_timersSound st Hr) as [Hwf Hiss].
  set (st1 := step ToggleActivate st) in *.
  assert (E : st1 = onToggleActivate st) by (subst st1; unfold step; by rewrite Hl).
  assert (Hc0 : clock st1 = clock st).
  { rewrite E. unfold onToggleActivate, updateButtonLabel.
    destruct (toggleTheme_frame st) as (_ & _ & Hc' & _). by case_match. }
  assert (Hp : markerPending (themeTimer st) (clock st1) st1).
  { rewrite Hc0, E. by apply mp_onToggleActivate, mp_toggleTheme_first. }
  set (sa := elapse a st1) in *.
  assert (Hpa : markerPending (themeTimer st) (clock st1 + Z.of_nat a) sa).
  { apply mp_elapse_pending; [done| |done]. simpl. lia. }
  assert (Hla : toggleListeners sa = true).
  { rewrite (toggleListeners_kept st1); [by rewrite E, toggleListeners_onToggleActivate|].
    by apply kept_elapse, kept_refl. }
  assert (E2 : st2 = onToggleActivate sa) by (subst st2; unfold step; by rewrite Hla).
  assert (Hca : clock sa = (clock st1 + Z.of_nat a)%Z) by (by destruct Hpa).
  assert (Hc2 : clock st2 = clock sa).
  { rewrite E2. unfold onToggleActivate, updateButtonLabel.
    destruct (toggleTheme_frame sa) as (_ & _ & Hc' & _). by case_match. }
  assert (Hp2 : markerPending (themeTimer st) (clock st2) st2).
  { rewrite Hc2, Hca, E2. apply mp_onToggleActivate, mp_toggleTheme_again; [|done].
    simpl. lia. }
  destruct (mp_elapse (themeTimer st) (299 - a) st2) as [H1 H2]; [done| |done|].
  - simpl. lia.
  - replace (300 - a) with (S (299 - a)) by lia.
    split; [|exact H2]. intros n Hn. apply H1. lia.
Qed.

Lemma theme_marker_double_toggle_witness :
  let st2 := step ToggleActivate (elapse 100 (step ToggleActivate desktopFour)) in
  transitioning (elapse 199 st2) = true ∧ transitioning (elapse 200 st2) = false.
Proof.
  intros st2.
  destruct (theme_marker_double_toggle desktopFour 100) as [H1 H2].
  - apply reachable_load.
  - vm_compute; reflexivity.
  - vm_compute. repeat constructor.
  - lia.
  - split; [apply H1; lia|exact H2].
Defined.

(** ** The carousel, in time *)

Lemma scanSelected_flags (es es' : list Element) (index current : Z) :
  isSelected <$> es = isSelected <$> es' →
  scanSelected es index current = scanSelected es' index current.
Proof.
  revert es' index current.
  induction es as [|e es IH]; intros [|e' es'] index current; simpl; try done.
  intros [= He Hes]. unfold isSelected in He. rewrite He. by apply IH.
Qed.

Lemma activeIndex_flags (s st : State) :
  selectedFlags st = selectedFlags s → activeIndex st = activeIndex s.
Proof. intros H. by apply scanSelected_flags. Qed.

Lemma length_flags (s st : State) :
  selectedFlags st = selectedFlags s →
  length (entries (dom st)) = length (entries (dom s)).
Proof.
  unfold selectedFlags. intros H.
  by rewrite <- (length_fmap isSelected), H, length_fmap.
Qed.

Lemma find_timer (s : State) (t : Timer) :
  wfTimers s → t ∈ timers s → List.find (hasId (timerId t)) (timers s) = Some t.
Proof.
  intros Hwf Ht. destruct (List.find _ _) as [u|] eqn:Hfind.
  - apply List.find_some in Hfind as [Hu Hid]. apply list_elem_of_In in Hu.
    unfold hasId in Hid. apply Nat.eqb_eq in Hid. f_equal.
    by apply (timer_unique s).
  - apply list_elem_of_In in Ht.
    pose proof (List.find_none _ _ Hfind _ Ht) as Hno.
    unfold hasId in Hno. by rewrite Nat.eqb_refl in Hno.
Qed.

(** The timers a firing leaves in the table, when it is not the carousel's:
    those with another id stay as they are. *)
Lemma timers_other (i : nat) (t u : Timer) (s : State) :
  timerId u ≠ i → u ∈ timers s →
  u ∈ timers match period t with
             | Some p => reschedule i p s
             | None => clearInterval i s
             end.
Proof.
  intros Hne Hu. destruct (period t).
  - unfold reschedule. simpl. apply list_elem_of_fmap. exists u. split; [|done].
    unfold hasId. by destruct (Nat.eqb_spec (timerId u) i).
  - unfold clearInterval. simpl. apply list_elem_of_In, List.filter_In.
    split; [by apply list_elem_of_In|]. by destruct (Nat.eqb_spec (timerId u) i).
Qed.

Section Cycling.

Variable id : nat.

(** While the carousel cycles, a timer with another id is no carousel
    timer. *)
Lemma cycling_not_tick (dueAt c : Z) (s : State) (u : Timer) :
  cycling id dueAt c s → u ∈ timers s → timerId u ≠ id → isCarouselTimer u = false.
Proof.
  intros [_ (_ & Ho & _) Hid _ _ _ _] Hu Hne.
  destruct (isCarouselTimer u) eqn:Ht; [exfalso|done].
  unfold owned in Ho. rewrite Forall_forall in Ho.
  assert (Hin : timerId u ∈ carouselIds s).
  { unfold carouselIds, carouselTimers. apply list_elem_of_fmap. exists u. split; [done|].
    apply list_elem_of_In, List.filter_In. split; [by apply list_elem_of_In|done]. }
  specialize (Ho _ Hin). congruence.
Qed.

(** Firing a timer that is not the carousel's leaves the carousel cycling
    and the selection as it is. *)
Lemma cycling_fireTimer_other (i : nat) (dueAt c : Z) (s : State) :
  i ≠ id → cycling id dueAt c s →
  cycling id dueAt c (fireTimer i s) ∧ selectedFlags (fireTimer i s) = selectedFlags s.
Proof.
  intros Hi Hcy.
  pose proof (tame_fireTimer i s) as Ht.
  pose proof Hcy as [Hc Hco Hid Htm Hd Hp He].
  destruct (List.find (hasId i) (timers s)) as [t|] eqn:Hfind;
    [|unfold fireTimer; by rewrite Hfind].
  pose proof Hfind as Hf. apply List.find_some in Hf as [Hin Hti].
  apply list_elem_of_In in Hin. unfold hasId in Hti. apply Nat.eqb_eq in Hti.
  assert (Hnt : isCarouselTimer t = false).
  { apply (cycling_not_tick dueAt c s); [done..|]. congruence. }
  set (s1 := match period t with Some p => reschedule i p s | None => clearInterval i s end).
  assert (H1 : carouselIntervalId s1 = Some id ∧ carouselTimer id dueAt ∈ timers s1
               ∧ selectedFlags s1 = selectedFlags s).
  { split_and!.
    - subst s1. by destruct (period t).
    - apply timers_other; [simpl; congruence|done].
    - subst s1. by destruct (period t). }
  destruct H1 as (I1 & I2 & I3).
  assert (H2 : carouselIntervalId (fireTimer i s) = Some id
               ∧ carouselTimer id dueAt ∈ timers (fireTimer i s)
               ∧ selectedFlags (fireTimer i s) = selectedFlags s).
  { unfold fireTimer. rewrite Hfind. fold s1.
    unfold isCarouselTimer in Hnt. destruct (callback t); [| |done]; simpl.
    - destruct (fadeSwap_frame imageId s1) as (_ & F2 & _ & F4).
      rewrite F2, F4. split_and!; [done..|].
      rewrite <- I3. apply (kept_fadeSwap Selection s1 imageId s1), kept_refl.
    - split_and!; done. }
  destruct H2 as (J1 & J2 & J3).
  split; [|done]. constructor.
  - rewrite <- Hc. by apply (kept_fireTimer Clock s i s), kept_refl.
  - by apply (coherent_tame s).
  - done.
  - done.
  - rewrite <- Hd. apply isMobile_width, (steady_width _ _ (tame_steady _ _ Ht)).
  - by rewrite (tame_paused _ _ Ht).
  - apply (shape_entries_nil s); [|done]. apply (steady_shape _ _ (tame_steady _ _ Ht)).
Qed.

Lemma cycling_fireTimers_other (ids : list nat) (dueAt c : Z) (s : State) :
  id ∉ ids → cycling id dueAt c s →
  cycling id dueAt c (foldl (λ s i, fireTimer i s) s ids)
  ∧ selectedFlags (foldl (λ s i, fireTimer i s) s ids) = selectedFlags s.
Proof.
  revert s. induction ids as [|i ids IH]; intros s Hni Hcy; simpl; [done|].
  apply not_elem_of_cons in Hni as [Hne Hni].
  destruct (cycling_fireTimer_other i dueAt c s) as [Hcy' Hfl]; [done..|].
  destruct (IH (fireTimer i s) Hni Hcy') as [Hcy'' Hfl'].
  split; [done|congruence].
Qed.

(** The ids of the timers that are due, in the order of the table. *)
Lemma due_ids_NoDup (s : State) :
  wfTimers s →
  NoDup (timerId <$> List.filter (λ t, (due t <=? clock s)%Z) (timers s)).
Proof.
  intros [Hnd _]. eapply sublist_NoDup; [exact Hnd|].
  unfold timerIds. apply fmap_sublist, filter_sublist.
Qed.

(** A millisecond that ends before the carousel's timer is due. *)
Lemma cycling_millisecond (dueAt c : Z) (s : State) :
  cycling id dueAt (c - 1) s → (c < dueAt)%Z →
  cycling id dueAt c (millisecond s) ∧ selectedFlags (millisecond s) = selectedFlags s.
Proof.
  intros Hcy Hlt. unfold millisecond.
  set (s1 := with_clock (clock s + 1) s).
  assert (Hcy1 : cycling id dueAt c s1).
  { destruct Hcy as [Hc ? ? ? ? ? ?]. constructor; try done. simpl. lia. }
  apply (cycling_fireTimers_other _ dueAt c s1); [|done].
  intros Hin. apply list_elem_of_fmap in Hin as (u & Hid & Hu).
  apply list_elem_of_In, List.filter_In in Hu as [Hu Hdue].
  apply list_elem_of_In in Hu. apply Z.leb_le in Hdue.
  destruct Hcy1 as [Hc1 (Hwf & _) _ Htm _ _ _].
  assert (u = carouselTimer id dueAt) as ->.
  { by apply (timer_unique s1). }
  unfold carouselTimer in Hdue. simpl in Hdue, Hc1. lia.
Qed.

Lemma timers_carouselTick (s : State) (t : Timer) :
  isMobile s || carouselPaused s = false →
  t ∈ timers s → t ∈ timers (outcome_state (carouselTick s)).
Proof.
  intros Hg Ht. unfold carouselTick. rewrite Hg.
  destruct (nodeAt _ _) as [[k entry]|]; simpl; [|done].
  assert (H1 : ∀ s0, timers (startProgressBar s0) = timers s0).
  { intros s0. unfold startProgressBar, requestAnimationFrame. by repeat case_match. }
  rewrite H1. destruct (truthy _); [|done].
  unfold updateImageVisibility, setTimeout. repeat case_match; try done.
  simpl. apply elem_of_app. by left.
Qed.

(** The firing of the carousel's timer: the next entry is selected and the
    timer is set for one interval later. *)
Lemma cycling_fire_tick (dueAt c : Z) (s : State) (i : nat) :
  cycling id dueAt c s → activeIndex s = Z.of_nat i →
  let N := length (entries (dom s)) in
  cycling id (dueAt + CAROUSEL_INTERVAL) c (fireTimer id s)
  ∧ activeIndex (fireTimer id s) = Z.of_nat ((i + 1) mod N)
  ∧ length (entries (dom (fireTimer id s))) = N.
Proof.
  intros Hcy Hi N.
  pose proof (tame_fireTimer id s) as Ht.
  pose proof Hcy as [Hc Hco Hid Htm Hd Hp He].
  pose proof Hco as (Hwf & _).
  assert (E : fireTimer id s
              = outcome_state (carouselTick (reschedule id CAROUSEL_INTERVAL s))).
  { pose proof (find_timer s (carouselTimer id dueAt) Hwf Htm) as Hfind.
    simpl in Hfind. unfold fireTimer. by rewrite Hfind. }
  set (s1 := reschedule id CAROUSEL_INTERVAL s) in *.
  assert (HN : 0 < length (entries (dom s1))).
  { change (0 < length (entries (dom s))). destruct (entries (dom s)); [done|simpl; lia]. }
  destruct (carouselTick_next s1 i) as (_ & Hm' & Hp' & Hl' & Ha' & _); try done.
  assert (Hg : isMobile s1 || carouselPaused s1 = false).
  { change (isMobile s || carouselPaused s = false). by rewrite Hd, Hp. }
  rewrite E. split_and!; [|exact Ha'|exact Hl'].
  constructor.
  - rewrite <- Hc, <- E. by apply (kept_fireTimer Clock s id s), kept_refl.
  - rewrite <- E. by apply (coherent_tame s).
  - rewrite (calm_id _ _ (quiet_calm _ _ (quiet_carouselTick s1 Hg))). exact Hid.
  - apply timers_carouselTick; [done|].
    unfold s1, reschedule. simpl. apply list_elem_of_fmap.
    exists (carouselTimer id dueAt). split; [|done].
    unfold hasId. simpl. by rewrite Nat.eqb_refl.
  - exact Hm'.
  - exact Hp'.
  - intros Hnil. rewrite Hnil in Hl'. simpl in Hl'. by destruct (entries (dom s)).
Qed.

(** The millisecond at which the carousel's timer is due. *)
Lemma cycling_millisecond_due (c : Z) (s : State) (i : nat) :
  cycling id c (c - 1) s → activeIndex s = Z.of_nat i →
  let N := length (entries (dom s)) in
  cycling id (c + CAROUSEL_INTERVAL) c (millisecond s)
  ∧ activeIndex (millisecond s) = Z.of_nat ((i + 1) mod N)
  ∧ length (entries (dom (millisecond s))) = N.
Proof.
  intros Hcy Hi N. unfold millisecond.
  set (s1 := with_clock (clock s + 1) s).
  assert (Hcy1 : cycling id c c s1).
  { destruct Hcy as [Hc ? ? ? ? ? ?]. constructor; try done. simpl. lia. }
  pose proof Hcy1 as [Hc1 (Hwf & _) _ Htm _ _ _].
  set (ids := timerId <$> List.filter (λ t, (due t <=? clock s1)%Z) (timers s1)).
  assert (Hin : id ∈ ids).
  { apply list_elem_of_fmap. exists (carouselTimer id c). split; [done|].
    apply list_elem_of_In, List.filter_In. split; [by apply list_elem_of_In|].
    apply Z.leb_le. rewrite Hc1. simpl. lia. }
  assert (Hnd : NoDup ids) by (by apply due_ids_NoDup).
  apply list_elem_of_split in Hin as (l1 & l2 & Hsplit).
  rewrite Hsplit in Hnd |- *.
  apply NoDup_app in Hnd as (_ & Hd1 & Hnd2).
  apply NoDup_cons in Hnd2 as [Hd2 _].
  assert (Hn1 : id ∉ l1).
  { intros H1. apply (Hd1 id H1). by left. }
  rewrite foldl_app. simpl.
  destruct (cycling_fireTimers_other l1 c c s1 Hn1 Hcy1) as [Hcya Hfa].
  set (sa := foldl (λ s i, fireTimer i s) s1 l1) in *.
  assert (Hia : activeIndex sa = Z.of_nat i).
  { rewrite (activeIndex_flags s1 sa Hfa). exact Hi. }
  destruct (cycling_fire_tick c c sa i Hcya Hia) as (Hcyb & Hib & Hlb).
  set (sb := fireTimer id sa) in *.
  destruct (cycling_fireTimers_other l2 (c + CAROUSEL_INTERVAL) c sb Hd2 Hcyb) as [Hcyc Hfc].
  assert (HNa : length (entries (dom sa)) = N) by exact (length_flags s1 sa Hfa).
  split_and!.
  - exact Hcyc.
  - rewrite (activeIndex_flags sb _ Hfc), Hib. by rewrite HNa.
  - rewrite (length_flags sb _ Hfc), Hlb. exact HNa.
Qed.

End Cycling.

(** One period: nothing moves before the timer is due, and the next entry
    is selected when it is. *)
Lemma cycling_period (id : nat) (m i : nat) (s : State) :
  cycling id (clock s + Z.of_nat (S m)) (clock s) s → activeIndex s = Z.of_nat i →
  let N := length (entries (dom s)) in
  (∀ n, n ≤ m → selectedFlags (elapse n s) = selectedFlags s)
  ∧ cycling id (clock s + Z.of_nat (S m) + CAROUSEL_INTERVAL) (clock s + Z.of_nat (S m))
      (elapse (S m) s)
  ∧ activeIndex (elapse (S m) s) = Z.of_nat ((i + 1) mod N)
  ∧ length (entries (dom (elapse (S m) s))) = N.
Proof.
  intros Hcy Hi N.
  assert (Hbefore : ∀ n, n ≤ m →
            cycling id (clock s + Z.of_nat (S m)) (clock s + Z.of_nat n) (elapse n s)
            ∧ selectedFlags (elapse n s) = selectedFlags s).
  { induction n as [|n IH]; intros Hn.
    - simpl. by rewrite Z.add_0_r.
    - destruct IH as [IH1 IH2]; [lia|]. rewrite elapse_S.
      destruct (cycling_millisecond id (clock s + Z.of_nat (S m)) (clock s + Z.of_nat (S n))
                  (elapse n s)) as [H1 H2]; [|lia|].
      + replace (clock s + Z.of_nat (S n) - 1)%Z with (clock s + Z.of_nat n)%Z by lia.
        exact IH1.
      + split; [done|congruence]. }
  destruct (Hbefore m ltac:(lia)) as [Hcm Hfm].
  split; [intros n Hn; by destruct (Hbefore n Hn)|].
  rewrite elapse_S.
  destruct (cycling_millisecond_due id (clock s + Z.of_nat (S m)) (elapse m s) i)
    as (H1 & H2 & H3).
  - replace (clock s + Z.of_nat (S m) - 1)%Z with (clock s + Z.of_nat m)%Z by lia.
    exact Hcm.
  - by rewrite (activeIndex_flags s _ Hfm).
  - rewrite (length_flags s _ Hfm) in H2, H3. by split_and!.
Qed.

Lemma elapse_add (n a : nat) (s : State) : elapse (a + n) s = elapse n (elapse a s).
Proof.
  unfold elapse. rewrite (Nat.add_comm a n). apply Nat.iter_add.
Qed.

(** Period after period. *)
Lemma cycling_periods (id : nat) (m i k : nat) (s : State) :
  cycling id (clock s + Z.of_nat (S m)) (clock s) s → activeIndex s = Z.of_nat i →
  let N := length (entries (dom s)) in
  let sk := elapse (S m + k * CAROUSEL_TICKS) s in
  cycling id (clock sk + CAROUSEL_INTERVAL) (clock sk) sk
  ∧ activeIndex sk = Z.of_nat ((i + S k) mod N)
  ∧ length (entries (dom sk)) = N.
Proof.
  intros Hcy Hi N. induction k as [|k (IH1 & IH2 & IH3)].
  - cbv zeta. rewrite Nat.mul_0_l, Nat.add_0_r.
    destruct (cycling_period id m i s Hcy Hi) as (_ & H1 & H2 & H3).
    pose proof H1 as [Hc _ _ _ _ _ _]. rewrite Hc. by split_and!.
  - cbv zeta in *.
    replace (S m + S k * CAROUSEL_TICKS)
      with ((S m + k * CAROUSEL_TICKS) + S (pred CAROUSEL_TICKS))
      by (unfold CAROUSEL_TICKS, CAROUSEL_INTERVAL; lia).
    rewrite elapse_add.
    set (sk := elapse (S m + k * CAROUSEL_TICKS) s) in *.
    assert (HT : Z.of_nat (S (pred CAROUSEL_TICKS)) = CAROUSEL_INTERVAL)
      by (unfold CAROUSEL_TICKS, CAROUSEL_INTERVAL; lia).
    destruct (cycling_period id (pred CAROUSEL_TICKS) ((i + S k) mod N) sk)
      as (_ & H1 & H2 & H3).
    + by rewrite HT.
    + exact IH2.
    + pose proof H1 as [Hc _ _ _ _ _ _]. rewrite Hc. rewrite HT in H1.
      rewrite IH3 in H2, H3. split_and!; [by rewrite HT|rewrite H2|done].
      f_equal. rewrite Nat.Div0.add_mod_idemp_l. f_equal. lia.
Qed.

Lemma cycling_reachable (st : State) (id : nat) (dueAt : Z) :
  reachable st → isMobile st = false →
  carouselTimer id dueAt ∈ timers st → cycling id dueAt (clock st) st.
Proof.
  intros Hr Hm Ht. destruct (reachable_Sound st Hr) as (Hco & Hg & _).
  assert (Hin : carouselTimer id dueAt ∈ carouselTimers st).
  { unfold carouselTimers. apply list_elem_of_In, List.filter_In.
    split; [by apply list_elem_of_In|done]. }
  assert (Hrun : carouselRunning st = true).
  { unfold carouselRunning. destruct (carouselTimers st); [|done]. by apply elem_of_nil in Hin. }
  destruct (Hg Hrun) as (Hp & He & _).
  constructor; try done.
  destruct Hco as (_ & Ho & _). unfold owned in Ho. rewrite Forall_forall in Ho.
  apply (Ho id). unfold carouselIds. apply list_elem_of_fmap. by exists (carouselTimer id dueAt).
Qed.

(** X21.  On a desktop viewport, with no event but the passing of time, a
    running carousel moves the selection by one entry, cyclically, each time
    its timer comes due and at no other time: nothing moves before the first
    firing, and during the [k]-th interval of 10 000 ms after it the active
    entry is the [(k + 1)]-th after the first one. *)
Theorem carousel_advances_every_interval (st : State) (id m i : nat) :
  reachable st → isMobile st = false →
  carouselTimer id (clock st + Z.of_nat (S m)) ∈ timers st →
  activeIndex st = Z.of_nat i →
  let N := length (entries (dom st)) in
  (∀ n, n ≤ m → selectedFlags (elapse n st) = selectedFlags st)
  ∧ (∀ k n, n < CAROUSEL_TICKS →
       activeIndex (elapse (S m + k * CAROUSEL_TICKS + n) st) = Z.of_nat ((i + S k) mod N)).
Proof.
  intros Hr Hm Ht Hi N.
  pose proof (cycling_reachable st id _ Hr Hm Ht) as Hcy.
  split; [by destruct (cycling_period id m i st Hcy Hi) as [H _]|].
  intros k n Hn.
  destruct (cycling_periods id m i k st Hcy Hi) as (H1 & H2 & H3).
  cbv zeta in H1, H2, H3. rewrite elapse_add.
  set (sk := elapse (S m + k * CAROUSEL_TICKS) st) in *.
  assert (HT : Z.of_nat (S (pred CAROUSEL_TICKS)) = CAROUSEL_INTERVAL)
    by (unfold CAROUSEL_TICKS, CAROUSEL_INTERVAL; lia).
  destruct (cycling_period id (pred CAROUSEL_TICKS) ((i + S k) mod N) sk) as (Hf & _).
  - by rewrite HT.
  - exact H2.
  - rewrite (activeIndex_flags sk); [exact H2|]. apply Hf.
    unfold CAROUSEL_TICKS, CAROUSEL_INTERVAL in *. lia.
Qed.

Lemma carousel_advances_every_interval_witness :
  activeIndex (elapse (S (Z.to_nat 9999) + 2 * CAROUSEL_TICKS + 0) desktopFour) = 0%Z.
Proof.
  destruct (carousel_advances_every_interval desktopFour 1 (Z.to_nat 9999) 1) as [_ H].
  - apply reachable_load.
  - vm_compute; reflexivity.
  - vm_compute. apply list_elem_of_here.
  - vm_compute; reflexivity.
  - rewrite H; [vm_compute; reflexivity|]. unfold CAROUSEL_TICKS, CAROUSEL_INTERVAL. lia.
Defined.

(** ** The fade of a user selection *)

Lemma user_selection_fades_witness :
  let st1 := step (EntryActivate 2) desktopFour in
  shownImage (elapse 249 st1) = Some "B" ∧ shownImage (elapse 250 st1) = Some "C"
  ∧ fading (elapse 250 st1) = false.
Proof.
  intros st1.
  destruct (user_selection_fades desktopFour 2
              (setAttribute "role" "button"
                 (setAttribute "tabindex" "0" (sampleEntry "C" false))) "C")
    as (H1 & H2 & H3).
  - apply reachable_load.
  - vm_compute; reflexivity.
  - vm_compute; reflexivity.
  - vm_compute; reflexivity.
  - vm_compute; reflexivity.
  - eexists. vm_compute. reflexivity.
  - vm_compute. repeat constructor.
  - split_and!; [|exact H2|exact H3].
    destruct (H1 249) as [_ H]; [lia|]. etrans; [exact H|]. vm_compute; reflexivity.
Defined.

(** ** Clicks inside the modal *)

Lemma inits_snoc (p : Path) (i : nat) : inits (p ++ [i]) = inits p ++ [p ++ [i]].
Proof.
  induction p as [|j p IH]; simpl; [done|].
  rewrite IH, fmap_app. done.
Qed.

Lemma propagationPath_snoc (p : Path) (i : nat) :
  propagationPath (p ++ [i]) = (p ++ [i]) :: propagationPath p.
Proof. unfold propagationPath. by rewrite inits_snoc, reverse_snoc. Qed.

Lemma propagationPath_head (p : Path) : ∃ rest, propagationPath p = p :: rest.
Proof.
  destruct p as [|i p _] using rev_ind.
  - by exists [].
  - eexists. apply propagationPath_snoc.
Qed.

Lemma prefix_snoc (w k : Path) (i : nat) : w `prefix_of` (w ++ k) ++ [i].
Proof. exists (k ++ [i]). by rewrite app_assoc. Qed.

(** Below an element where no listener closes and which stops the click. *)
Lemma bubble_stopped (modal : Node) (target w k : Path) :
  stopsAt modal w = true →
  (∀ q, w `prefix_of` q → closesAt modal target q = false) →
  bubble modal target (propagationPath (w ++ k)) = false.
Proof.
  intros Hstop Hno. induction k as [|i k IH] using rev_ind.
  - rewrite app_nil_r. destruct (propagationPath_head w) as [rest ->]. simpl.
    by rewrite Hstop, Hno.
  - rewrite app_assoc, propagationPath_snoc. simpl.
    rewrite (Hno _ (prefix_snoc w k i)). simpl.
    by destruct (stopsAt modal ((w ++ k) ++ [i])).
Qed.

(** Up to an element whose listener closes, with no stop on the way. *)
Lemma bubble_closed (modal : Node) (target u k : Path) :
  closesAt modal target u = true →
  (∀ q, u `prefix_of` q → q ≠ u → q `prefix_of` (u ++ k) → stopsAt modal q = false) →
  bubble modal target (propagationPath (u ++ k)) = true.
Proof.
  intros Hcl Hno. induction k as [|i k IH] using rev_ind.
  - rewrite app_nil_r. destruct (propagationPath_head u) as [rest ->]. simpl.
    by rewrite Hcl.
  - rewrite app_assoc, propagationPath_snoc. simpl.
    apply orb_true_iff. right.
    rewrite Hno.
    + apply IH. intros q H1 H2 H3. apply Hno; [done..|].
      etrans; [exact H3|]. rewrite app_assoc. by apply prefix_app_r.
    + apply prefix_snoc.
    + intros Heq. apply (f_equal length) in Heq. rewrite !length_app in Heq. simpl in Heq. lia.
    + by rewrite app_assoc.
Qed.

Lemma firstMatch_Some (c : string) (query : Node → option Path) (i : nat)
    (kids : list Node) (j : nat) (p : Path) :
  firstMatch c query i kids = Some (j :: p) →
  i ≤ j ∧ ∃ k, kids !! (j - i) = Some k
               ∧ (if hasClass c k then Some [] else query k) = Some p.
Proof.
  revert i. induction kids as [|k kids IH]; intros i; simpl; [done|].
  destruct (if hasClass c k then Some [] else query k) as [q|] eqn:Hq.
  - intros [= <- <-]. split; [done|]. exists k. by rewrite Nat.sub_diag.
  - intros H. destruct (IH _ H) as (Hle & k' & Hk' & Hq').
    split; [lia|]. exists k'. split; [|done].
    replace (j - i) with (S (j - S i)) by lia. done.
Qed.

(** The first match in a tree, when it lies inside the element at [c], is
    the first match inside that element. *)
Lemma querySelector_inside (cls : string) (c w : Path) (n nc : Node) :
  querySelector cls n = Some (c ++ w) → w ≠ [] → subtree c n = Some nc →
  querySelector cls nc = Some w.
Proof.
  revert n. induction c as [|i c IH]; intros n Hq Hw Hs; simpl in *.
  - by injection Hs as <-.
  - destruct n as [classes kids]. simpl in Hq.
    apply firstMatch_Some in Hq as (_ & k & Hk & Hq).
    rewrite Nat.sub_0_r in Hk. rewrite Hk in Hs. simpl in Hs.
    destruct (hasClass cls k).
    + injection Hq as Hq. symmetry in Hq. apply app_eq_nil in Hq as [_ ?]. done.
    + by apply (IH k).
Qed.

(** X23.  A click on the image wrapper of the modal, or on anything inside
    it, never reaches a close handler: the wrapper's listener stops it.
    (On a modal whose underlay and content are not inside the wrapper.) *)
Theorem click_on_image_keeps_modal (modal : Node) (w target : Path) (st : State) :
  wrapperOf modal = Some w → w `prefix_of` target →
  (∀ u, underlayOf modal = Some u → ¬ w `prefix_of` u) →
  (∀ c, contentOf modal = Some c → ¬ w `prefix_of` c) →
  clickCloses modal target = false ∧ onModalClick modal target st = st.
Proof.
  intros Hw [k ->] Hu Hc.
  assert (H : clickCloses modal (w ++ k) = false).
  { unfold clickCloses. apply bubble_stopped.
    - unfold stopsAt. by apply bool_decide_eq_true_2.
    - intros q Hq. unfold closesAt. apply orb_false_iff. split.
      + apply bool_decide_eq_false_2. intros Heq. by apply (Hu q).
      + apply andb_false_iff. left. apply bool_decide_eq_false_2.
        intros Heq. by apply (Hc q). }
  split; [done|]. unfold onModalClick. by rewrite H, andb_false_r.
Qed.

Lemma click_on_image_keeps_modal_witness :
  clickCloses sampleModal [1; 1; 0; 0] = false.
Proof.
  destruct (click_on_image_keeps_modal sampleModal [1; 1; 0] [1; 1; 0; 0] mobileFour)
    as [H _].
  - vm_compute; reflexivity.
  - by exists [0].
  - intros u Hu. vm_compute in Hu. injection Hu as <-. intros [k Hk]. discriminate.
  - intros c Hc. vm_compute in Hc. injection Hc as <-. intros [k Hk]. discriminate.
  - exact H.
Defined.

(** X24.  A click on the underlay, or inside the content and outside the
    content's image wrapper, closes the modal.  The wrapper's listener can
    not stop a click on the content before the content's handler runs: the
    wrapper it is set on, the first in the modal, is the first in the
    content whenever it lies inside the content. *)
Theorem click_beside_image_closes (modal : Node) (target : Path) (st : State) :
  entryListeners st = true →
  (∃ u, underlayOf modal = Some u ∧ u `prefix_of` target
        ∧ ∀ w, wrapperOf modal = Some w → ¬ w `prefix_of` target)
  ∨ (∃ c wc, contentOf modal = Some c ∧ contentWrapperOf modal = Some wc
             ∧ c `prefix_of` target ∧ ¬ wc `prefix_of` target) →
  clickCloses modal target = true
  ∧ onModalClick modal target st = closeMobileModal st
  ∧ modalOpen (onModalClick modal target st) = false.
Proof.
  intros Hl Hcase.
  assert (H : clickCloses modal target = true).
  { unfold clickCloses.
    destruct Hcase as [(u & Hu & [k ->] & Hno)|(c & wc & Hc & Hwc & [k ->] & Hout)].
    - apply bubble_closed.
      + unfold closesAt. apply orb_true_iff. left. by apply bool_decide_eq_true_2.
      + intros q _ _ Hq. unfold stopsAt. apply bool_decide_eq_false_2.
        intros Hw. by apply (Hno q).
    - apply bubble_closed.
      + unfold closesAt. apply orb_true_iff. right. rewrite Hwc.
        apply andb_true_iff. split; [by apply bool_decide_eq_true_2|].
        unfold contains. by rewrite bool_decide_eq_false_2.
      + intros q [w' ->] Hne Hq. unfold stopsAt. apply bool_decide_eq_false_2.
        intros Hw. apply Hout.
        unfold contentWrapperOf in Hwc. rewrite Hc in Hwc. simpl in Hwc.
        destruct (subtree c modal) as [nc|] eqn:Hs; [|done]. simpl in Hwc.
        assert (Hin : querySelector "mobile-showcase-image-wrapper" nc = Some w').
        { apply (querySelector_inside _ c w' modal); [exact Hw| |done].
          intros ->. by rewrite app_nil_r in Hne. }
        rewrite Hin in Hwc. simpl in Hwc. by injection Hwc as <-. }
  unfold onModalClick. rewrite H, Hl. simpl.
  split_and!; [done..|apply modalOpen_closeMobileModal].
Qed.

Lemma click_beside_image_closes_witness :
  let st := step (EntryActivate 2) mobileFour in
  clickCloses sampleModal [1; 0] = true
  ∧ modalOpen st = true ∧ modalOpen (onModalClick sampleModal [1; 0] st) = false.
Proof.
  intros st.
  destruct (click_beside_image_closes sampleModal [1; 0] st) as (H1 & _ & H2).
  - vm_compute; reflexivity.
  - right. exists [1], [1; 1; 0]. split_and!.
    + vm_compute; reflexivity.
    + vm_compute; reflexivity.
    + by exists [0].
    + intros [k Hk]. discriminate.
  - split_and!; [exact H1|vm_compute; reflexivity|exact H2].
Defined.

(** ** The theme at start-up *)

Lemma isDark_kept (s st : State) : kept Theme s st → isDark st = isDark s.
Proof. unfold kept, themeView, isDark. intros H. injection H as H1 _ _ _ _. by rewrite H1. Qed.

(** X25.  The start-up puts the document in the effective theme: dark
    exactly when the stored preference, or without one the system
    preference, is ["dark"]; any other stored value gives the light theme.
    The set-up of the entries and of the resize tracking leaves it. *)
Theorem load_applies_effective_theme (page : Dom) (width : Z) (storage : Storage)
    (media : option bool) (loading : bool) :
  let st0 := fresh page width storage media loading in
  isDark (load page width storage media loading)
  = String.eqb (effectiveTheme_spec (truthy (storedPreference st0)) media) THEME_DARK.
Proof.
  intros st0. unfold load. fold st0.
  rewrite (isDark_kept (init st0))
    by (apply kept_initResizeTracking, kept_initEntrySelection, kept_refl).
  pose proof (getCurrentTheme_value st0) as Hv.
  unfold init. destruct (getCurrentTheme st0) as [theme st1]. simpl in Hv. subst theme.
  unfold setupToggleButton.
  case_match; rewrite ?isDark_updateButtonLabel; apply isDark_applyTheme.
Qed.

(** ** The resize handler and its first revision *)

Lemma modalView_kept (s st : State) : kept Modal s st → modalView st = modalView s.
Proof. done. Qed.

Lemma modalView_carryModalSelection (st : State) :
  modalView (outcome_state (carryModalSelection st))
  = modalView (if modalOpen st then closeMobileModal st else st).
Proof.
  destruct (modalOpen st) eqn:Ho; [|by rewrite carryModalSelection_idle].
  apply modalView_kept. by apply kept_carryModalSelection_open.
Qed.

Lemma reachableFrom_modalSound (page : Dom) (st : State) :
  pageModalOpen page = false → pageScrollLocked page = false →
  reachableFrom page st → modalSound st.
Proof.
  intros Hp1 Hp2 Hr. induction Hr as [width storage media loading|ev st Hr IH].
  - apply modalSound_closed.
    + by rewrite modalOpen_load.
    + by rewrite (scrollLocked_kept _ _ (kept_load Modal page width storage media loading
                                           ltac:(done))).
  - apply modalSound_step; [|done].
    by destruct (reachable_Sound st (reachableFrom_reachable _ _ Hr)) as (_ & _ & ?).
Qed.

(** X26.  On a page whose markup has the modal closed and the body free to
    scroll, the resize handler does to the modal and to the scroll lock, in
    every state the script reaches, what the handler of the first revision
    did: it closes an open modal when the viewport is desktop, and nothing
    else. *)
Theorem resize_modal_as_first_revision (page : Dom) (st : State) (w : Z) :
  pageModalOpen page = false → pageScrollLocked page = false →
  reachableFrom page st →
  modalView (step (Resize w) st) = modalView (Revision1.handleResize (with_innerWidth w st)).
Proof.
  intros Hp1 Hp2 Hr.
  destruct (reachableFrom_modalSound page st Hp1 Hp2 Hr) as [_ Hopen].
  destruct (reachable_Sound st (reachableFrom_reachable _ _ Hr)) as (_ & _ & Htr).
  unfold step. set (s0 := with_innerWidth w st).
  assert (Hw0 : wasMobile s0 = wasMobile st) by done.
  assert (Ho0 : modalOpen s0 = modalOpen st) by done.
  assert (E1 : Revision1.handleResize s0
               = if negb (isMobile s0) && modalOpen s0 then closeMobileModal s0 else s0).
  { unfold Revision1.handleResize, modalOpen, pageModalOpen.
    destruct (mobileModal (dom s0)); [done|]. by rewrite andb_false_r. }
  rewrite E1.
  destruct (wasMobile st) eqn:Hw, (isMobile s0) eqn:Hm0; simpl.
  - by rewrite handleResize_same by congruence.
  - rewrite handleResize_up by done.
    transitivity (modalView (outcome_state (carryModalSelection s0))).
    + destruct (carryModalSelection s0) as [s|s]; cbn [outcome_state]; [|done].
      apply modalView_kept. auto 6 using kept_refl with kept.
    + apply modalView_carryModalSelection.
  - rewrite handleResize_down by done. cbn [outcome_state].
    apply modalView_kept. auto 6 using kept_refl with kept.
  - rewrite handleResize_same by congruence. cbn [outcome_state].
    rewrite Ho0. destruct (modalOpen st) eqn:Hos; [|done].
    specialize (Hopen eq_refl). specialize (Htr Hopen). congruence.
Qed.

Lemma resize_modal_as_first_revision_witness :
  let st := step (EntryActivate 2) mobileFour in
  modalView (step (Resize 1024) st) = modalView (closeMobileModal st).
Proof.
  intros st.
  rewrite (resize_modal_as_first_revision (samplePage fourEntries) st 1024).
  - vm_compute; reflexivity.
  - vm_compute; reflexivity.
  - vm_compute; reflexivity.
  - apply reachableFrom_step, reachableFrom_load.
Defined.

(** ** A page without showcase *)

Lemma showcase_load page width storage media loading :
  is_Some (showcase (dom (load page width storage media loading))) ↔ is_Some (showcase page).
Proof.
  unfold load. set (F := fresh page width storage media loading).
  assert (H : shape (initResizeTracking (initEntrySelection (init F))) = shape F).
  { change (shape (initEntrySelection (init F)) = shape F).
    transitivity (shape (init F)).
    - unfold initEntrySelection. case_match; [done|].
      apply (steady_shape _ _ (steady_setupEntrySelection _)).
    - apply (calm_shape _ _ (quiet_calm _ _ (quiet_init F))). }
  unfold shape in H. injection H as _ H.
  split; intros Hs.
  - apply (bool_decide_eq_true_1 (is_Some (showcase page))).
    rewrite <- H. by apply bool_decide_eq_true_2.
  - apply (bool_decide_eq_true_1 (is_Some (showcase (dom (initEntrySelection (init F)))))).
    rewrite H. by apply bool_decide_eq_true_2.
Qed.

Lemma showcase_reachableFrom (page : Dom) (st : State) :
  reachableFrom page st → is_Some (showcase (dom st)) → is_Some (showcase page).
Proof.
  induction 1 as [width storage media loading|ev st Hr IH]; intros Hs.
  - by apply showcase_load in Hs.
  - apply IH. apply (shape_showcase (step ev st)); [|done].
    symmetry. apply shape_step.
Qed.

(** X27.  On a page without [.showcase] the set-up of the entries returns
    at once, for good: in every state the script reaches no carousel timer
    is live, resizes included, and the activation of an entry and the
    dismissal of the modal find no listener and change nothing. *)
Theorem no_showcase_no_selection (page : Dom) (st : State) (k : nat) :
  showcase page = None → reachableFrom page st →
  carouselRunning st = false
  ∧ step (EntryActivate k) st = st ∧ step ModalDismiss st = st.
Proof.
  intros Hp Hr.
  assert (Hs : showcase (dom st) = None).
  { destruct (showcase (dom st)) eqn:E; [|done].
    destruct (showcase_reachableFrom page st Hr) as [x Hx]; [by eexists|congruence]. }
  assert (Hl : entryListeners st = false).
  { unfold entryListeners. rewrite Hs. apply andb_false_iff. right.
    apply bool_decide_eq_false_2. by intros [? ?]. }
  split_and!.
  - destruct (carouselRunning st) eqn:Hrun; [|done].
    destruct (reachable_Sound st (reachableFrom_reachable _ _ Hr)) as (_ & Hg & _).
    destruct (Hg Hrun) as (_ & _ & [x Hx]). congruence.
  - unfold step. by rewrite Hl.
  - unfold step. by rewrite Hl.
Qed.

Lemma no_showcase_no_selection_witness :
  let page := mkDom (element [] []) (element [] []) None fourEntries None None None None
                None None (λ _ _, LookupThrows) in
  carouselRunning (step (Resize 1024) (load page 500 (StorageItems ∅) None false)) = false.
Proof.
  intros page.
  destruct (no_showcase_no_selection page
              (step (Resize 1024) (load page 500 (StorageItems ∅) None false)) 0) as [H _].
  - reflexivity.
  - apply reachableFrom_step, reachableFrom_load.
  - exact H.
Defined.
